(** * The retrieval-and-answer pipeline: chunker, vector index, retrieval
    optimizer, answer generator and query orchestrator.

    A shallow embedding of the Python services under [src/services] and of
    the properties their specification states about them.

    Conventions of the embedding.
    - A Python [str] is a [text]: the list of its characters.  Characters are
      8-bit code points (Latin-1).  Whitespace ([str.isspace], [\s],
      [str.strip], [str.split]) and decimal digits follow Python on the whole
      range, and so do the case functions ([lower], [upper], [isupper],
      [islower], [re.IGNORECASE]), with one limit: the upper-case forms of
      U+00B5 and U+00FF are not 8-bit characters, so a text that has one of
      the two is outside the domain of [upper] (see there).
    - Python integers are [Z].  Clock readings are binary64 floats, the
      primitive floats of the kernel, with their subtraction and comparison.
      Similarity scores, which are only compared with one another, are exact
      rationals [Q]; so is the Jaccard ratio of two set sizes, whose float
      quotient compares with 0.8 as the exact one does for sets of fewer
      than 10^15 words.
    - A [dict] is a [gmap]; a [set] is a [gset].
    - Code that raises returns a [result]; the left summand is the exception.
    - Library calls whose code is not part of the repository (the HTTP
      client, FAISS, the sentence encoder, the LLM client, the file system,
      [uuid4], [hash], [time.time]) are section variables. *)

From Stdlib Require Import ZArith QArith Lqa Ascii String List Lia Bool.
From Stdlib Require Floats.
From stdpp Require Import base option list sorting gmap strings pretty.

Local Open Scope Z_scope.

(** A Python string, and a literal of it. *)
Abbreviation text := (list ascii).

Definition txt (s : string) : text := list_ascii_of_string s.
Arguments txt : simpl never.

(** ** Python's string primitives *)

Module PyStr.

Definition code (c : ascii) : N := N_of_ascii c.

(** [str.isspace] on one character: the Unicode white space below 256. *)
Definition isspace (c : ascii) : bool :=
  let n := code c in
  ((9 <=? n) && (n <=? 13))%N || ((28 <=? n) && (n <=? 32))%N
  || (n =? 133)%N || (n =? 160)%N.

(** [\d] *)
Definition isdigit (c : ascii) : bool :=
  let n := code c in ((48 <=? n) && (n <=? 57))%N.

(** [c.isupper()] on one character: [A]-[Z], U+00C0-U+00D6, U+00D8-U+00DE. *)
Definition isupper (c : ascii) : bool :=
  let n := code c in
  ((65 <=? n) && (n <=? 90))%N || ((192 <=? n) && (n <=? 214))%N
  || ((216 <=? n) && (n <=? 222))%N.

(** [c.islower()] on one character: [a]-[z], U+00AA, U+00B5, U+00BA,
    U+00DF-U+00F6, U+00F8-U+00FF. *)
Definition islower (c : ascii) : bool :=
  let n := code c in
  ((97 <=? n) && (n <=? 122))%N || (n =? 170)%N || (n =? 181)%N || (n =? 186)%N
  || ((223 <=? n) && (n <=? 246))%N || ((248 <=? n) && (n <=? 255))%N.

(** The lower-case form of a character: the upper-case letters have theirs
    32 code points up. *)
Definition lower_char (c : ascii) : ascii :=
  if isupper c then ascii_of_N (code c + 32) else c.

(** The upper-case form of a character where it is one 8-bit character:
    [a]-[z], U+00E0-U+00F6 and U+00F8-U+00FE have theirs 32 code points
    down.  U+00AA and U+00BA have none and U+00DF has none of one character;
    those of U+00B5 and U+00FF (U+039C, U+0178) are not 8-bit characters. *)
Definition upper_char (c : ascii) : ascii :=
  let n := code c in
  if ((97 <=? n) && (n <=? 122))%N || ((224 <=? n) && (n <=? 246))%N
     || ((248 <=? n) && (n <=? 254))%N
  then ascii_of_N (n - 32) else c.

(** [s.lower()] *)
Definition lower (s : text) : text := map lower_char s.

(** [s.upper()]: character by character, U+00DF becoming [SS].  A text with
    U+00B5 or U+00FF is outside the domain: Python gives U+039C and U+0178
    for them, which no 8-bit text holds; here they are kept. *)
Definition upper (s : text) : text :=
  flat_map (fun c => if (code c =? 223)%N then ["S"; "S"]%char else [upper_char c]) s.

Definition len (s : text) : Z := Z.of_nat (length s).

(** [s.lstrip(chars)], [s.rstrip(chars)], [s.strip(chars)] for a set of
    characters given by its membership test. *)
Fixpoint lstrip_by (p : ascii -> bool) (s : text) : text :=
  match s with
  | [] => []
  | c :: s' => if p c then lstrip_by p s' else s
  end.

Definition rstrip_by (p : ascii -> bool) (s : text) : text :=
  reverse (lstrip_by p (reverse s)).

Definition strip_by (p : ascii -> bool) (s : text) : text :=
  rstrip_by p (lstrip_by p s).

(** [s.strip()] *)
Definition strip (s : text) : text := strip_by isspace s.

Definition char_in (chars : text) (c : ascii) : bool :=
  existsb (Ascii.eqb c) chars.

(** [s.strip(chars)] *)
Definition strip_chars (chars : text) (s : text) : text :=
  strip_by (char_in chars) s.

(** [s.split()]: the maximal runs of characters that are not white space. *)
Fixpoint split_go (cur : text) (s : text) : list text :=
  match s with
  | [] => if bool_decide (cur = []) then [] else [reverse cur]
  | c :: s' =>
      if isspace c
      then (if bool_decide (cur = []) then split_go [] s'
            else reverse cur :: split_go [] s')
      else split_go (c :: cur) s'
  end.

Definition split (s : text) : list text := split_go [] s.

(** The index adjustment of a slice bound ([PySlice_AdjustIndices]). *)
Definition adjust (n i : Z) : Z :=
  if i <? 0 then Z.max 0 (i + n) else Z.min i n.

(** [s[lo:hi]] *)
Definition slice (s : text) (lo hi : Z) : text :=
  let a := adjust (len s) lo in
  let b := adjust (len s) hi in
  take (Z.to_nat (b - a)) (drop (Z.to_nat a) s).

(** The highest index of [c] in [s], if any. *)
Fixpoint rindex (c : ascii) (s : text) : option nat :=
  match s with
  | [] => None
  | x :: s' =>
      match rindex c s' with
      | Some i => Some (S i)
      | None => if Ascii.eqb x c then Some O else None
      end
  end.

(** [s.rfind(c, lo, hi)] for a one-character needle: the highest index [i]
    with [lo <= i < hi] (bounds adjusted as for a slice, the lower one not
    clamped to the length) and [s[i] = c], or [-1]. *)
Definition rfind (s : text) (c : ascii) (lo hi : Z) : Z :=
  let n := len s in
  let b := if lo <? 0 then Z.max 0 (lo + n) else lo in
  let e := adjust n hi in
  if e - b <? 1 then -1
  else match rindex c (take (Z.to_nat (e - b)) (drop (Z.to_nat b) s)) with
       | Some i => b + Z.of_nat i
       | None => -1
       end.

(** [s.endswith((c1, c2, ...))] for one-character suffixes. *)
Definition ends_with_any (chars : text) (s : text) : bool :=
  match last s with
  | Some c => char_in chars c
  | None => false
  end.

(** [l[i]] on a Python list: negative indices count from the end; out of
    range is an [IndexError] ([None]). *)
Definition py_index {A} (l : list A) (i : Z) : option A :=
  let n := Z.of_nat (length l) in
  if (0 <=? i) && (i <? n) then l !! Z.to_nat i
  else if (- n <=? i) && (i <? 0) then l !! Z.to_nat (n + i)
  else None.

End PyStr.

(** ** The fragment of Python's [re] the services use

    Every quantifier in the source patterns is applied to a single character
    or character class, so a pattern is a sequence of atoms.  Matching is
    Python's backtracking search: greedy quantifiers try the longest run
    first, the lazy star the shortest, alternatives are tried in order. *)

Module Re.

Inductive atom : Type :=
  | One (c : ascii -> bool)          (* a character of the class *)
  | Lit (l : text)                   (* a run of literal characters *)
  | Opt (c : ascii -> bool)          (* c?  *)
  | Star (c : ascii -> bool)         (* c*  *)
  | Plus (c : ascii -> bool)         (* c+  *)
  | LazyStar (c : ascii -> bool)     (* c*? *)
  | AltLit (ls : list text).         (* (?:l1|l2|...) of literals *)

(** Character classes. *)
Definition chr (c : ascii) : ascii -> bool := Ascii.eqb c.
Definition oneof (s : string) : ascii -> bool := PyStr.char_in (txt s).
Definition space : ascii -> bool := PyStr.isspace.
Definition digit : ascii -> bool := PyStr.isdigit.
(** [.] without DOTALL: anything but a newline. *)
Definition dot : ascii -> bool := fun x => negb (Ascii.eqb x "010").
(** [[lo-hi]] *)
Definition range (lo hi : ascii) : ascii -> bool :=
  fun x => ((PyStr.code lo <=? PyStr.code x) && (PyStr.code x <=? PyStr.code hi))%N.
(** [[a-zA-Z0-9\.]] *)
Definition alnum_dot : ascii -> bool :=
  fun x => range "a" "z" x || range "A" "Z" x || range "0" "9" x || Ascii.eqb x ".".

(** Membership of [x] in class [c], under [re.IGNORECASE] when [ic]. *)
Definition cmatch (ic : bool) (c : ascii -> bool) (x : ascii) : bool :=
  if ic then c x || c (PyStr.lower_char x) || c (PyStr.upper_char x) else c x.

(** The literal [l] at the head of [s]: what follows it. *)
Fixpoint lit_here (ic : bool) (l : text) (s : text) : option text :=
  match l with
  | [] => Some s
  | a :: l' =>
      match s with
      | x :: s' => if cmatch ic (chr a) x then lit_here ic l' s' else None
      | [] => None
      end
  end.

(** [c*] followed by the continuation [k], longest run first. *)
Fixpoint star_greedy (ic : bool) (c : ascii -> bool) (k : text -> option text)
    (s : text) : option text :=
  match s with
  | x :: s' =>
      if cmatch ic c x
      then match star_greedy ic c k s' with
           | Some r => Some r
           | None => k s
           end
      else k s
  | [] => k s
  end.

(** [c*?] followed by the continuation [k], shortest run first. *)
Fixpoint star_lazy (ic : bool) (c : ascii -> bool) (k : text -> option text)
    (s : text) : option text :=
  match k s with
  | Some r => Some r
  | None =>
      match s with
      | x :: s' => if cmatch ic c x then star_lazy ic c k s' else None
      | [] => None
      end
  end.

(** The alternatives in order, each followed by [k]. *)
Fixpoint alt_lit (ic : bool) (ls : list text) (k : text -> option text)
    (s : text) : option text :=
  match ls with
  | [] => None
  | l :: ls' =>
      match lit_here ic l s with
      | Some s' =>
          match k s' with
          | Some r => Some r
          | None => alt_lit ic ls' k s
          end
      | None => alt_lit ic ls' k s
      end
  end.

(** The pattern [p] matched at the head of [s]: the text after the match. *)
Fixpoint match_here (ic : bool) (p : list atom) (s : text) : option text :=
  match p with
  | [] => Some s
  | a :: p' =>
      match a with
      | One c =>
          match s with
          | x :: s' => if cmatch ic c x then match_here ic p' s' else None
          | [] => None
          end
      | Lit l =>
          match lit_here ic l s with
          | Some s' => match_here ic p' s'
          | None => None
          end
      | Opt c =>
          match s with
          | x :: s' =>
              if cmatch ic c x
              then match match_here ic p' s' with
                   | Some r => Some r
                   | None => match_here ic p' s
                   end
              else match_here ic p' s
          | [] => match_here ic p' s
          end
      | Star c => star_greedy ic c (match_here ic p') s
      | Plus c =>
          match s with
          | x :: s' =>
              if cmatch ic c x then star_greedy ic c (match_here ic p') s'
              else None
          | [] => None
          end
      | LazyStar c => star_lazy ic c (match_here ic p') s
      | AltLit ls => alt_lit ic ls (match_here ic p') s
      end
  end.

(** [re.sub(p, repl, s)] for a pattern without [^]: scan from the left; where
    the pattern matches, emit [repl] and resume right after the match
    ([skip] counts the matched characters still to pass over); elsewhere copy
    the character.  No pattern of the services matches the empty string (see
    [mandatory]), so an empty match is treated as no match. *)
Fixpoint sub_scan (ic : bool) (p : list atom) (repl : text) (skip : nat)
    (s : text) : text :=
  match s with
  | [] => []
  | x :: s' =>
      match skip with
      | S k => sub_scan ic p repl k s'
      | O =>
          match match_here ic p s with
          | Some rest =>
              if (length rest <? length s)%nat
              then repl ++ sub_scan ic p repl (length s' - length rest) s'
              else x :: sub_scan ic p repl O s'
          | None => x :: sub_scan ic p repl O s'
          end
      end
  end.

Definition sub (ic : bool) (p : list atom) (repl : text) (s : text) : text :=
  sub_scan ic p repl O s.

(** [re.sub('^' + p, repl, s)] without MULTILINE: only a match at the very
    start is replaced. *)
Definition sub_at_start (ic : bool) (p : list atom) (repl : text) (s : text) : text :=
  match match_here ic p s with
  | Some rest => repl ++ rest
  | None => s
  end.

(** An atom that consumes at least one character. *)
Definition mandatory (a : atom) : bool :=
  match a with
  | One _ | Plus _ => true
  | Lit l => negb (bool_decide (l = []))
  | AltLit ls => forallb (fun l => negb (bool_decide (l = []))) ls
  | Opt _ | Star _ | LazyStar _ => false
  end.

End Re.

(** ** Exceptions, results *)

Inductive exn : Type :=
  | ValueError (msg : text)
  | IndexError (msg : text)
  | ExternalError (msg : text).      (* raised inside a library call *)

(** [str(e)] *)
Definition exn_str (e : exn) : text :=
  match e with
  | ValueError m | IndexError m | ExternalError m => m
  end.

Abbreviation result A := (exn + A)%type.

(** A computation on a store [S] that returns an [A] or raises; what it
    wrote before raising stays written. *)
Module Eff.

Definition M (S A : Type) : Type := S -> result A * S.

Definition ret {S A} (a : A) : M S A := fun s => (inr a, s).

Definition raise {S A} (e : exn) : M S A := fun s => (inl e, s).

Definition bind {S A B} (c : M S A) (k : A -> M S B) : M S B :=
  fun s =>
    match c s with
    | (inl e, s') => (inl e, s')
    | (inr a, s') => k a s'
    end.

(** [try: c except Exception as e: h e] *)
Definition catch {S A} (c : M S A) (h : exn -> M S A) : M S A :=
  fun s =>
    match c s with
    | (inl e, s') => h e s'
    | (inr a, s') => (inr a, s')
    end.

Definition get {S} : M S S := fun s => (inr s, s).

Definition put {S} (s' : S) : M S unit := fun _ => (inr tt, s').

(** A computation on the second component of a pair of stores. *)
Definition on_snd {S W A} (c : M W A) : M (S * W) A :=
  fun sw =>
    match c (snd sw) with
    | (r, w') => (r, (fst sw, w'))
    end.

(** A computation on the first component and the second. *)
Definition on_fst {S1 S2 W A} (proj : S1 -> S2) (upd : S2 -> S1 -> S1)
    (c : M (S2 * W) A) : M (S1 * W) A :=
  fun sw =>
    match c (proj (fst sw), snd sw) with
    | (r, (s2, w')) => (r, (upd s2 (fst sw), w'))
    end.

End Eff.

Notation "x <-- c ;; k" := (Eff.bind c (fun x => k))
  (at level 100, c at next level, right associativity).
Notation "c ;;; k" := (Eff.bind c (fun _ => k))
  (at level 100, right associativity).

(** ** models/schemas.py *)

(** A value stored in a metadata dictionary ([Dict[str, Any]]): the callers
    store integers (page and chunk numbers) and strings. *)
Inductive value : Type :=
  | VInt (n : Z)
  | VStr (s : text).

(** [f"{v}"] *)
Definition value_str (v : value) : text :=
  match v with
  | VInt n => txt (pretty n)
  | VStr s => s
  end.

(** Truth value of [v] in a condition. *)
Definition truthy (v : value) : bool :=
  match v with
  | VInt n => negb (n =? 0)
  | VStr s => negb (bool_decide (s = []))
  end.

Module DocumentChunk.
Record t : Type := mk {
  content : text;
  metadata : gmap text value;
  chunk_id : text;
  page_number : option Z
}.
End DocumentChunk.

Module ClauseMatch.
Record t : Type := mk {
  content : text;
  similarity_score : Q;
  metadata : gmap text value;
  source_reference : text
}.
End ClauseMatch.

(** ** services/document_processor.py: the chunker *)

Module DocumentProcessor.

Section Chunker.

(** [uuid.uuid4()]: the identifier of the [k]-th draw of the generator. *)
Variable uuid4 : nat -> text.
(** [self.chunk_size], [self.chunk_overlap] *)
Variable chunk_size chunk_overlap : Z.

(** [generate_chunk_id()] after [k] earlier draws. *)
Definition generate_chunk_id (k : nat) : text * nat := (uuid4 k, S k).

(** [re.sub(r'\s+', ' ', text).strip()] *)
Definition normalize (raw : text) : text :=
  PyStr.strip (Re.sub false [Re.Plus Re.space] (txt " ") raw).

(** [metadata.get("page_number")], as the [Optional[int]] field receives it:
    the callers store an integer under that key, or nothing. *)
Definition get_page_number (md : gmap text value) : option Z :=
  match md !! txt "page_number" with
  | Some (VInt n) => Some n
  | _ => None
  end.

(** The variables of the [while] loop, and the identifiers drawn so far. *)
Record loop_state : Type := mk_loop {
  start : Z;
  chunk_num : Z;
  chunks : list DocumentChunk.t;
  drawn : nat
}.

(** The value of [end] when the chunk is cut. *)
Definition window_end (t : text) (start : Z) : Z :=
  let end_ := start + chunk_size in
  if end_ <? PyStr.len t then
    let last_sentence := PyStr.rfind t "." start end_ in
    let last_paragraph := PyStr.rfind t "010" start end_ in
    if start <? last_sentence then last_sentence + 1
    else if start <? last_paragraph then last_paragraph
    else end_
  else end_.

(** One iteration of the loop body. *)
Definition chunk_step (t : text) (md : gmap text value) (st : loop_state) : loop_state :=
  let end_ := window_end t (start st) in
  let chunk_content := PyStr.strip (PyStr.slice t (start st) end_) in
  let '(chunks', drawn') :=
    if bool_decide (chunk_content = []) then (chunks st, drawn st)
    else
      let chunk_metadata := <[txt "chunk_number" := VInt (chunk_num st)]> md in
      let '(id, k) := generate_chunk_id (drawn st) in
      (chunks st ++ [DocumentChunk.mk chunk_content chunk_metadata id (get_page_number md)], k) in
  mk_loop (Z.max (start st + 1) (end_ - chunk_overlap)) (chunk_num st + 1) chunks' drawn'.

(** [while start < len(text): ...], at most [fuel] tests of the condition;
    [None] when the loop is still running after them. *)
Fixpoint chunk_loop (fuel : nat) (t : text) (md : gmap text value) (st : loop_state)
    : option loop_state :=
  match fuel with
  | O => None
  | S fuel' =>
      if start st <? PyStr.len t then chunk_loop fuel' t md (chunk_step t md st)
      else Some st
  end.

(** [_chunk_text(text, metadata)] after [k] earlier draws of the identifier
    generator: the chunks and the number of draws afterwards. *)
Definition _chunk_text (raw : text) (md : gmap text value) (k : nat)
    : option (list DocumentChunk.t * nat) :=
  let t := normalize raw in
  if PyStr.len t <=? chunk_size then
    let '(id, k') := generate_chunk_id k in
    Some ([DocumentChunk.mk t md id (get_page_number md)], k')
  else
    match chunk_loop (S (length t)) t md (mk_loop 0 0 [] k) with
    | Some st => Some (chunks st, drawn st)
    | None => None
    end.

End Chunker.

End DocumentProcessor.

(** ** services/optimizer.py *)

Module QueryOptimizer.

(** [a < b] on rationals. *)
Definition Qlt_bool (a b : Q) : bool :=
  match (a ?= b)%Q with
  | Lt => true
  | _ => false
  end.

(** An entry of [self.query_cache]; the timestamp is a reading of
    [time.time()], a float. *)
Record cache_entry : Type := mk_entry {
  result : text;
  timestamp : PrimFloat.float
}.

Section Cache.

Import PrimFloat.

(** The built-in [hash] on strings. *)
Variable hash : text -> Z.

(** [f"{document_url}:{hash(query)}"] *)
Definition cache_key (query document_url : text) : text :=
  document_url ++ txt ":" ++ txt (pretty (hash query)).

(** [should_use_cache(query, document_url)] when [time.time()] reads [now]:
    [time.time() - cached_time < 3600] in float arithmetic. *)
Definition should_use_cache (query document_url : text) (now : PrimFloat.float)
    (query_cache : gmap text cache_entry) : bool :=
  match query_cache !! cache_key query document_url with
  | Some entry => (now - timestamp entry <? 3600)%float
  | None => false
  end.

(** [get_cached_result]; a missing key is a [KeyError] ([None]). *)
Definition get_cached_result (query document_url : text)
    (query_cache : gmap text cache_entry) : option text :=
  result <$> query_cache !! cache_key query document_url.

(** [cache_result(query, document_url, result)] when [time.time()] reads
    [now]: the cache afterwards. *)
Definition cache_result (query document_url res : text) (now : PrimFloat.float)
    (query_cache : gmap text cache_entry) : gmap text cache_entry :=
  <[cache_key query document_url := mk_entry res now]> query_cache.

End Cache.

(** [set(text.lower().split())] *)
Definition word_set (t : text) : gset text :=
  list_to_set (PyStr.split (PyStr.lower t)).

(** [_calculate_text_similarity(text1, text2)] *)
Definition _calculate_text_similarity (text1 text2 : text) : Q :=
  let words1 := word_set text1 in
  let words2 := word_set text2 in
  let intersection := words1 ∩ words2 in
  let union := words1 ∪ words2 in
  if bool_decide (union = ∅) then 0%Q
  else (Z.of_nat (size intersection) # Pos.of_nat (size union))%Q.

(** [sorted(chunks, key=lambda x: x.similarity_score, reverse=True)]: the
    stable sort by descending score, as an insertion sort. *)
Fixpoint insert_desc (x : ClauseMatch.t) (l : list ClauseMatch.t) : list ClauseMatch.t :=
  match l with
  | [] => [x]
  | y :: l' =>
      if Qlt_bool (ClauseMatch.similarity_score x) (ClauseMatch.similarity_score y)
      then y :: insert_desc x l'
      else x :: l
  end.

Definition sorted_desc (l : list ClauseMatch.t) : list ClauseMatch.t :=
  foldr insert_desc [] l.

(** The inner [for selected in selected_chunks] loop: the final value of
    [is_diverse]. *)
Fixpoint is_diverse (chunk : ClauseMatch.t) (selected_chunks : list ClauseMatch.t) : bool :=
  match selected_chunks with
  | [] => true
  | selected :: rest =>
      if Qlt_bool (8 # 10)
           (_calculate_text_similarity (ClauseMatch.content chunk) (ClauseMatch.content selected))
      then false
      else is_diverse chunk rest
  end.

(** The outer [for chunk in sorted_chunks[1:]] loop with its [break]. *)
Fixpoint select_loop (selected_chunks : list ClauseMatch.t) (rest : list ClauseMatch.t)
    : list ClauseMatch.t :=
  match rest with
  | [] => selected_chunks
  | chunk :: rest' =>
      let selected_chunks' :=
        if is_diverse chunk selected_chunks then selected_chunks ++ [chunk]
        else selected_chunks in
      if (5 <=? length selected_chunks')%nat then selected_chunks'
      else select_loop selected_chunks' rest'
  end.

(** [optimize_chunk_selection(chunks, query)] *)
Definition optimize_chunk_selection (chunks : list ClauseMatch.t) (query : text)
    : list ClauseMatch.t :=
  if (length chunks <=? 3)%nat then chunks
  else
    match sorted_desc chunks with
    | best :: rest => select_loop [best] rest
    | [] => []
    end.

End QueryOptimizer.

(** ** services/embedding_service.py *)

Module EmbeddingService.

(** [self.index], [self.chunks] *)
Record state (Index : Type) : Type := mk_state {
  index : option Index;
  chunks : list DocumentChunk.t
}.
Arguments mk_state {Index} _ _.
Arguments index {Index} _.
Arguments chunks {Index} _.

Section Service.

(** The world outside the process, a FAISS index, an array of embeddings. *)
Variables World Index Emb : Type.

(** [self.model.encode(texts)] *)
Variable model_encode : list text -> Eff.M World Emb.
(** [faiss.IndexFlatIP(self.dimension)] *)
Variable IndexFlatIP : Index.
(** [faiss.normalize_L2(e); index.add(e.astype('float32'))]: the index
    afterwards. *)
Variable index_add : Index -> Emb -> Eff.M World Index.
(** [faiss.normalize_L2(q); index.search(q.astype('float32'), top_k)], read
    as [zip(scores[0], indices[0])]. *)
Variable index_search : Index -> Emb -> Z -> Eff.M World (list (Q * Z)).
(** [os.path.exists] *)
Variable path_exists : text -> World -> bool.
(** [faiss.read_index(path)] *)
Variable read_index : text -> Eff.M World Index.
(** [with open(path, 'rb') as f: pickle.load(f)] *)
Variable load_chunks : text -> Eff.M World (list DocumentChunk.t).

(** [settings.TOP_K_RESULTS] *)
Definition TOP_K_RESULTS : Z := 5.

Definition set_index (i : Index) : Eff.M (state Index * World) unit :=
  fun sw => (inr tt, (mk_state (Some i) (chunks (fst sw)), snd sw)).

Definition set_chunks (cs : list DocumentChunk.t) : Eff.M (state Index * World) unit :=
  fun sw => (inr tt, (mk_state (index (fst sw)) cs, snd sw)).

(** [create_embeddings(chunks)] *)
Definition create_embeddings (cs : list DocumentChunk.t)
    : Eff.M (state Index * World) unit :=
  Eff.catch
    (let texts := map DocumentChunk.content cs in
     embeddings <-- Eff.on_snd (model_encode texts) ;;
     set_index IndexFlatIP ;;;
     filled <-- Eff.on_snd (index_add IndexFlatIP embeddings) ;;
     set_index filled ;;;
     set_chunks cs)
    (fun e => Eff.raise e).

(** The body of [for score, idx in zip(scores[0], indices[0])]: the matches
    collected so far, extended. *)
Definition add_match (cs : list DocumentChunk.t) (matches : list ClauseMatch.t)
    (hit : Q * Z) : result (list ClauseMatch.t) :=
  let '(score, idx) := hit in
  if idx <? Z.of_nat (length cs) then
    match PyStr.py_index cs idx with
    | Some chunk =>
        inr (matches ++
             [ClauseMatch.mk (DocumentChunk.content chunk) score
                (DocumentChunk.metadata chunk)
                (txt "Chunk " ++ DocumentChunk.chunk_id chunk)])
    | None => inl (IndexError (txt "list index out of range"))
    end
  else inr matches.

Fixpoint collect_matches (cs : list DocumentChunk.t) (matches : list ClauseMatch.t)
    (hits : list (Q * Z)) : result (list ClauseMatch.t) :=
  match hits with
  | [] => inr matches
  | hit :: hits' =>
      match add_match cs matches hit with
      | inl e => inl e
      | inr matches' => collect_matches cs matches' hits'
      end
  end.

(** [search_similar_chunks(query, top_k)] *)
Definition search_similar_chunks (query : text) (top_k : option Z)
    : Eff.M (state Index * World) (list ClauseMatch.t) :=
  st <-- Eff.get ;;
  match index (fst st) with
  | None =>
      Eff.raise (ValueError (txt "No embeddings index available. Create embeddings first."))
  | Some idx =>
      Eff.catch
        (let top_k := match top_k with
                      | None => TOP_K_RESULTS
                      | Some k => k
                      end in
         query_embedding <-- Eff.on_snd (model_encode [query]) ;;
         hits <-- Eff.on_snd (index_search idx query_embedding top_k) ;;
         match collect_matches (chunks (fst st)) [] hits with
         | inl e => Eff.raise e
         | inr matches => Eff.ret matches
         end)
        (fun e => Eff.raise e)
  end.

(** [load_index(path)] *)
Definition load_index (path : text) : Eff.M (state Index * World) bool :=
  Eff.catch
    (st <-- Eff.get ;;
     if path_exists (path ++ txt ".faiss") (snd st)
        && path_exists (path ++ txt ".chunks") (snd st)
     then
       loaded <-- Eff.on_snd (read_index (path ++ txt ".faiss")) ;;
       set_index loaded ;;;
       cs <-- Eff.on_snd (load_chunks (path ++ txt ".chunks")) ;;
       set_chunks cs ;;;
       Eff.ret true
     else Eff.ret false)
    (fun e => Eff.ret false).

End Service.

Arguments create_embeddings {World Index Emb} _ _ _ _ _.
Arguments search_similar_chunks {World Index Emb} _ _ _ _ _.
Arguments load_index {World Index} _ _ _ _ _.

End EmbeddingService.

(** ** services/llm_service.py *)

Module LLMService.

Import Re.

(** [verbose_patterns]; each is anchored by [^] and used with IGNORECASE. *)
Definition verbose_patterns : list (list atom) :=
  [ (* ^[Bb]ased on the provided document context,?\s* *)
    [One (oneof "Bb"); Lit (txt "ased on the provided document context"); Opt (chr ","); Star space];
    (* ^[Aa]ccording to the document,?\s* *)
    [One (oneof "Aa"); Lit (txt "ccording to the document"); Opt (chr ","); Star space];
    (* ^[Aa]ccording to the policy,?\s* *)
    [One (oneof "Aa"); Lit (txt "ccording to the policy"); Opt (chr ","); Star space];
    (* ^[Aa]ccording to the provided document context,?\s* *)
    [One (oneof "Aa"); Lit (txt "ccording to the provided document context"); Opt (chr ","); Star space];
    (* ^[Tt]he document states that\s* *)
    [One (oneof "Tt"); Lit (txt "he document states that"); Star space];
    (* ^[Ff]rom the provided context,?\s* *)
    [One (oneof "Ff"); Lit (txt "rom the provided context"); Opt (chr ","); Star space];
    (* ^[Ii]n the document,?\s* *)
    [One (oneof "Ii"); Lit (txt "n the document"); Opt (chr ","); Star space];
    (* ^[Aa]s per the policy,?\s* *)
    [One (oneof "Aa"); Lit (txt "s per the policy"); Opt (chr ","); Star space];
    (* ^[Tt]he policy states that\s* *)
    [One (oneof "Tt"); Lit (txt "he policy states that"); Star space] ].

(** [[Cc]hunk \d+] *)
Definition chunk_ref : list atom :=
  [One (oneof "Cc"); Lit (txt "hunk "); Plus digit].

(** [.*?\.?] *)
Definition to_period : list atom := [LazyStar dot; Opt (chr ".")].

(** [chunk_patterns], used with IGNORECASE. *)
Definition chunk_patterns : list (list atom) :=
  [ (* \s*[Tt]his is stated in [Cc]hunk \d+.*?\.? *)
    [Star space; One (oneof "Tt"); Lit (txt "his is stated in ")] ++ chunk_ref ++ to_period;
    (* \s*[Aa]s mentioned in [Cc]hunk \d+.*?\.? *)
    [Star space; One (oneof "Aa"); Lit (txt "s mentioned in ")] ++ chunk_ref ++ to_period;
    (* \s*and reiterated in [Cc]hunk \d+.*?\.? *)
    [Star space; Lit (txt "and reiterated in ")] ++ chunk_ref ++ to_period;
    (* \s*\([Cc]hunk \d+.*?\) *)
    [Star space; One (chr "(")] ++ chunk_ref ++ [LazyStar dot; One (chr ")")];
    (* \s*[Aa]ccording to [Cc]hunk \d+.*?\.? *)
    [Star space; One (oneof "Aa"); Lit (txt "ccording to ")] ++ chunk_ref ++ to_period;
    (* \s*[Cc]hunk \d+ (?:states|mentions|indicates).*?\.? *)
    [Star space] ++ chunk_ref
      ++ [Lit (txt " "); AltLit [txt "states"; txt "mentions"; txt "indicates"]] ++ to_period;
    (* \s*[Bb]ased on [Cc]hunk \d+.*?\.? *)
    [Star space; One (oneof "Bb"); Lit (txt "ased on ")] ++ chunk_ref ++ to_period;
    (* \s*[Ii]n [Cc]hunk \d+.*?\.? *)
    [Star space; One (oneof "Ii"); Lit (txt "n ")] ++ chunk_ref ++ to_period;
    (* \s*[Ff]rom [Cc]hunk \d+.*?\.? *)
    [Star space; One (oneof "Ff"); Lit (txt "rom ")] ++ chunk_ref ++ to_period;
    (* \s*[Cc]hunk \d+[:\-\s] *)
    [Star space] ++ chunk_ref ++ [One (fun x => oneof ":-" x || space x)] ].

(** [\n?\s*[\*\-\•]\s*]; the bullet U+2022 lies outside the 8-bit range. *)
Definition bullet_marker : list atom :=
  [Opt (chr "010"); Star space; One (oneof "*-"); Star space].

(** [\n?\s*\d+\.\s*] *)
Definition number_marker : list atom :=
  [Opt (chr "010"); Star space; Plus digit; One (chr "."); Star space].

(** [\s*as per Section [a-zA-Z0-9\.]+\.?] and [\s*under Section ...] *)
Definition as_per_section : list atom :=
  [Star space; Lit (txt "as per Section "); Plus alnum_dot; Opt (chr ".")].
Definition under_section : list atom :=
  [Star space; Lit (txt "under Section "); Plus alnum_dot; Opt (chr ".")].

(** [_convert_bullets_to_text(text)] *)
Definition _convert_bullets_to_text (t : text) : text :=
  let t := sub false bullet_marker (txt " ") t in
  let t := sub false number_marker (txt " ") t in
  let t := sub false [Plus space] (txt " ") t in
  t.

(** [if cleaned and not cleaned[0].isupper(): cleaned = cleaned[0].upper() + cleaned[1:]] *)
Definition capitalize (cleaned : text) : text :=
  match cleaned with
  | c :: rest => if PyStr.isupper c then cleaned else PyStr.upper [c] ++ rest
  | [] => []
  end.

(** [if cleaned and not cleaned.endswith(('.', '!', '?')): cleaned += '.'] *)
Definition terminate (cleaned : text) : text :=
  match cleaned with
  | [] => []
  | _ :: _ =>
      if PyStr.ends_with_any (txt ".!?") cleaned then cleaned
      else cleaned ++ txt "."
  end.

(** [_clean_chunk_references(text)] *)
Definition _clean_chunk_references (t : text) : text :=
  let cleaned := t in
  let cleaned := fold_left (fun cleaned pattern => sub_at_start true pattern [] cleaned)
                   verbose_patterns cleaned in
  let cleaned := fold_left (fun cleaned pattern => sub true pattern [] cleaned)
                   chunk_patterns cleaned in
  let cleaned := _convert_bullets_to_text cleaned in
  let cleaned := sub true as_per_section [] cleaned in
  let cleaned := sub true under_section [] cleaned in
  let cleaned := PyStr.strip (sub false [Plus space] (txt " ") cleaned) in
  let cleaned := sub false [Plus (chr ".")] (txt ".") cleaned in
  let cleaned := PyStr.strip_chars (txt " .,") cleaned in
  let cleaned := capitalize cleaned in
  let cleaned := terminate cleaned in
  cleaned.

Definition nl : text := ["010"%char].
Definition quote : text := ["034"%char].

(** [_prepare_context(chunks)] *)
Definition section_text (chunk : ClauseMatch.t) : text :=
  let chunk_text := txt "Document Section:" ++ nl in
  let chunk_text := chunk_text ++ ClauseMatch.content chunk ++ nl in
  match ClauseMatch.metadata chunk !! txt "page_number" with
  | Some v =>
      if truthy v
      then chunk_text ++ txt "(Page " ++ value_str v ++ txt ")" ++ nl
      else chunk_text
  | None => chunk_text
  end.

(** [sep.join(parts)] *)
Fixpoint join (sep : text) (parts : list text) : text :=
  match parts with
  | [] => []
  | [part] => part
  | part :: parts' => part ++ sep ++ join sep parts'
  end.

Definition _prepare_context (chunks : list ClauseMatch.t) : text :=
  join (nl ++ txt "---" ++ nl) (map section_text chunks).

(** [_create_answer_prompt(question, context)] *)
Definition _create_answer_prompt (question context : text) : text :=
  txt "You are an expert document analyst. Based on the provided document context, answer the following question accurately and concisely." ++ nl
  ++ nl
  ++ txt "Question: " ++ question ++ nl
  ++ nl
  ++ txt "Document Context:" ++ nl
  ++ context ++ nl
  ++ nl
  ++ txt "Instructions:" ++ nl
  ++ txt "1. Answer based ONLY on the information provided in the context" ++ nl
  ++ txt "2. Provide a direct, factual answer in 1-3 sentences maximum" ++ nl
  ++ txt "3. Do NOT use bullet points, lists, or extensive explanations" ++ nl
  ++ txt "4. Do NOT mention " ++ quote ++ txt "Based on the provided document context"
  ++ quote ++ txt " or similar phrases" ++ nl
  ++ txt "5. Do NOT mention chunk numbers, sections, or any document structure references" ++ nl
  ++ txt "6. Start your answer directly with the factual information" ++ nl
  ++ txt "7. Be concise and professional" ++ nl
  ++ txt "8. If multiple conditions exist, summarize them in flowing sentences, not lists" ++ nl
  ++ txt "9. Focus on the key facts that directly answer the question" ++ nl
  ++ nl
  ++ txt "Answer:".

Section Service.

Variable World : Type.

(** [self.client.generate(model=..., prompt=prompt, options=...)['response']] *)
Variable client_generate : text -> Eff.M World text.

(** [generate_answer(question, context_chunks)] *)
Definition generate_answer (question : text) (context_chunks : list ClauseMatch.t)
    : Eff.M World text :=
  Eff.catch
    (let context := _prepare_context context_chunks in
     let prompt := _create_answer_prompt question context in
     response <-- client_generate prompt ;;
     let answer := PyStr.strip response in
     let cleaned_answer := _clean_chunk_references answer in
     Eff.ret cleaned_answer)
    (fun e => Eff.raise e).

End Service.

Arguments generate_answer {World} _ _ _ _.

End LLMService.

(** ** services/query_processor.py *)

Module QueryProcessor.

(** [self._current_document_url], [self.embedding_service] *)
Record state (Index : Type) : Type := mk_state {
  _current_document_url : option text;
  embedding_service : EmbeddingService.state Index
}.
Arguments mk_state {Index} _ _.
Arguments _current_document_url {Index} _.
Arguments embedding_service {Index} _.

Section Processor.

Variables World Index : Type.

(** The methods of the collaborating services. *)
(** [self.document_processor.process_document(url)] *)
Variable process_document : text -> Eff.M World (list DocumentChunk.t).
(** [self.embedding_service.create_embeddings(chunks)] *)
Variable create_embeddings :
  list DocumentChunk.t -> Eff.M (EmbeddingService.state Index * World) unit.
(** [self.embedding_service.search_similar_chunks(query, top_k)] *)
Variable search_similar_chunks :
  text -> option Z -> Eff.M (EmbeddingService.state Index * World) (list ClauseMatch.t).
(** [self.llm_service.generate_answer(question, chunks)] *)
Variable generate_answer : text -> list ClauseMatch.t -> Eff.M World text.

Abbreviation store := (state Index * World)%type.

(** A method of [self.embedding_service] run from the processor. *)
Definition in_embedding_service {A} (c : Eff.M (EmbeddingService.state Index * World) A)
    : Eff.M store A :=
  Eff.on_fst embedding_service
    (fun es st => mk_state (_current_document_url st) es) c.

Definition set_current_document_url (url : text) : Eff.M store unit :=
  fun sw => (inr tt, (mk_state (Some url) (embedding_service (fst sw)), snd sw)).

(** [_process_document(document_url)] *)
Definition _process_document (document_url : text) : Eff.M store unit :=
  Eff.catch
    (chunks <-- Eff.on_snd (process_document document_url) ;;
     if bool_decide (chunks = [])
     then Eff.raise (ValueError (txt "No content extracted from document"))
     else in_embedding_service (create_embeddings chunks))
    (fun e => Eff.raise e).

(** [_process_single_query(question)] *)
Definition _process_single_query (question : text) : Eff.M store text :=
  Eff.catch
    (relevant_chunks <--
       in_embedding_service
         (search_similar_chunks question (Some EmbeddingService.TOP_K_RESULTS)) ;;
     if bool_decide (relevant_chunks = [])
     then Eff.ret (txt "No relevant information found in the document for this question.")
     else Eff.on_snd (generate_answer question relevant_chunks))
    (fun e => Eff.raise e).

(** The body of [for i, question in enumerate(questions)]: [answers] after
    the iteration. *)
Definition answer_question (answers : list text) (question : text)
    : Eff.M store (list text) :=
  Eff.catch
    (answer <-- _process_single_query question ;;
     Eff.ret (answers ++ [answer]))
    (fun e => Eff.ret (answers ++ [txt "Error processing question: " ++ exn_str e])).

Fixpoint answer_all (answers : list text) (questions : list text)
    : Eff.M store (list text) :=
  match questions with
  | [] => Eff.ret answers
  | question :: questions' =>
      answers' <-- answer_question answers question ;;
      answer_all answers' questions'
  end.

(** [process_queries(document_url, questions)] *)
Definition process_queries (document_url : text) (questions : list text)
    : Eff.M store (list text) :=
  Eff.catch
    (st <-- Eff.get ;;
     (if bool_decide (_current_document_url (fst st) = Some document_url)
      then Eff.ret tt
      else (_process_document document_url ;;;
            set_current_document_url document_url)) ;;;
     answer_all [] questions)
    (fun e => Eff.raise e).

End Processor.

Arguments _process_document {World Index} _ _ _ _.
Arguments _process_single_query {World Index} _ _ _ _.
Arguments answer_question {World Index} _ _ _ _ _.
Arguments answer_all {World Index} _ _ _ _ _.
Arguments process_queries {World Index} _ _ _ _ _ _ _.

End QueryProcessor.

(** ** services/document_processor.py: loading a document

    The methods of [DocumentProcessor] around [_chunk_text].  The libraries
    ([requests], [PyPDF2], [docx]) and [_process_email], which is built on
    [email] and [bs4], are parameters.  The store is the number of
    identifiers drawn so far and the world outside the process. *)

Module DocumentLoader.

(** What the loader reads of the response of [requests.get]. *)
Record response (Bytes : Type) : Type := mk_response {
  content_type : option text;      (* response.headers.get('content-type') *)
  content : Bytes;                 (* response.content *)
  text_ : text                     (* response.text *)
}.
Arguments mk_response {Bytes} _ _ _.
Arguments content_type {Bytes} _.
Arguments content {Bytes} _.
Arguments text_ {Bytes} _.

(** [s.startswith(prefix)] *)
Fixpoint startswith (s prefix_ : text) : bool :=
  match prefix_, s with
  | [], _ => true
  | a :: prefix', x :: s' => Ascii.eqb a x && startswith s' prefix'
  | _ :: _, [] => false
  end.

(** [sub in s] *)
Fixpoint contains (sub_ s : text) : bool :=
  startswith s sub_
  || match s with
     | [] => false
     | _ :: s' => contains sub_ s'
     end.

(** [s.endswith(suffix)] *)
Definition endswith (s suffix_ : text) : bool :=
  startswith (reverse s) (reverse suffix_).

Section Loader.

Variables World Bytes Page : Type.

Variable uuid4 : nat -> text.
Variables chunk_size chunk_overlap : Z.

(** [requests.get(document_url, timeout=30)] *)
Variable requests_get : text -> Eff.M World (response Bytes).
(** [response.raise_for_status()]: the exception, if the status is one. *)
Variable raise_for_status : response Bytes -> option exn.
(** [PyPDF2.PdfReader(BytesIO(content)).pages] *)
Variable PdfReader : Bytes -> result (list Page).
(** [page.extract_text()] *)
Variable extract_text : Page -> result text.
(** [docx.Document(BytesIO(content)).paragraphs], the [text] of each *)
Variable Document : Bytes -> result (list text).
(** [self._process_email(email_content)] *)
Variable _process_email : text -> Eff.M (nat * World) (list DocumentChunk.t).

Abbreviation store := (nat * World)%type.

Definition lift {A} (r : result A) : Eff.M store A := fun s => (r, s).

(** [self._chunk_text(text, metadata)], the identifiers counted in the
    store.  [_chunk_text] always returns (see [chunk_text_returns]), so the
    last branch is never taken. *)
Definition chunk_text (raw : text) (md : gmap text value)
    : Eff.M store (list DocumentChunk.t) :=
  fun s =>
    match DocumentProcessor._chunk_text uuid4 chunk_size chunk_overlap raw md (fst s) with
    | Some (chunks, k') => (inr chunks, (k', snd s))
    | None => (inl (ExternalError (txt "chunking did not finish")), s)
    end.

(** [{"page_number": page_num + 1, "document_type": "pdf"}] *)
Definition pdf_metadata (page_num : Z) : gmap text value :=
  <[txt "page_number" := VInt (page_num + 1)]>
    {[ txt "document_type" := VStr (txt "pdf") ]}.

(** [for page_num, page in enumerate(pdf_reader.pages)], from [page_num] on
    with the [chunks] collected so far. *)
Fixpoint pdf_pages (page_num : Z) (pages : list Page) (chunks : list DocumentChunk.t)
    : Eff.M store (list DocumentChunk.t) :=
  match pages with
  | [] => Eff.ret chunks
  | page :: pages' =>
      text <-- lift (extract_text page) ;;
      if bool_decide (PyStr.strip text = [])
      then pdf_pages (page_num + 1) pages' chunks
      else
        page_chunks <-- chunk_text text (pdf_metadata page_num) ;;
        pdf_pages (page_num + 1) pages' (chunks ++ page_chunks)
  end.

(** [_process_pdf(file_stream)] *)
Definition _process_pdf (file_stream : Bytes) : Eff.M store (list DocumentChunk.t) :=
  Eff.catch
    (pdf_reader <-- lift (PdfReader file_stream) ;;
     pdf_pages 0 pdf_reader [])
    (fun e => Eff.raise e).

(** [_process_docx(file_stream)] *)
Definition _process_docx (file_stream : Bytes) : Eff.M store (list DocumentChunk.t) :=
  Eff.catch
    (paragraphs <-- lift (Document file_stream) ;;
     let full_text := filter (fun paragraph => PyStr.strip paragraph <> []) paragraphs in
     let text := LLMService.join LLMService.nl full_text in
     chunk_text text {[ txt "document_type" := VStr (txt "docx") ]})
    (fun e => Eff.raise e).

(** [_process_text(text)] *)
Definition _process_text (text : text) : Eff.M store (list DocumentChunk.t) :=
  Eff.catch
    (if contains (txt "@") text
        && (contains (txt "From:") text || contains (txt "To:") text)
     then _process_email text
     else chunk_text text {[ txt "document_type" := VStr (txt "text") ]})
    (fun e => Eff.raise e).

(** [process_document(document_url)] *)
Definition process_document (document_url : text) : Eff.M store (list DocumentChunk.t) :=
  Eff.catch
    (response <-- Eff.on_snd (requests_get document_url) ;;
     match raise_for_status response with
     | Some e => Eff.raise e
     | None =>
         let content_type := PyStr.lower (default [] (content_type response)) in
         if contains (txt "pdf") content_type
            || endswith (PyStr.lower document_url) (txt ".pdf")
         then _process_pdf (content response)
         else if contains (txt "word") content_type
                 || (endswith (PyStr.lower document_url) (txt ".docx")
                     || endswith (PyStr.lower document_url) (txt ".doc"))
         then _process_docx (content response)
         else if contains (txt "text") content_type || contains (txt "email") content_type
         then _process_text (text_ response)
         else _process_text (text_ response)
     end)
    (fun e => Eff.raise e).

End Loader.

Arguments chunk_text {World} _ _ _ _ _.
Arguments pdf_pages {World Page} _ _ _ _ _ _ _.
Arguments _process_pdf {World Bytes Page} _ _ _ _ _ _.
Arguments _process_docx {World Bytes} _ _ _ _ _.
Arguments _process_text {World} _ _ _ _ _.
Arguments process_document {World Bytes Page} _ _ _ _ _ _ _ _ _ _.

End DocumentLoader.

(** ** main.py: the query endpoint *)

Module Api.

(** [HTTPException(status_code=..., detail=...)] *)
Record HTTPException : Type := mk_http {
  status_code : Z;
  detail : text
}.

(** [QueryRequest], [QueryResponse] *)
Record QueryRequest : Type := mk_request {
  documents : text;
  questions : list text
}.

Record QueryResponse : Type := mk_response {
  answers : list text
}.

Section Endpoint.

Variables World Index : Type.

(** [settings.API_TOKEN] *)
Variable API_TOKEN : text.

(** The services of the module-level [query_processor]. *)
Variable process_document : text -> Eff.M World (list DocumentChunk.t).
Variable create_embeddings :
  list DocumentChunk.t -> Eff.M (EmbeddingService.state Index * World) unit.
Variable search_similar_chunks :
  text -> option Z -> Eff.M (EmbeddingService.state Index * World) (list ClauseMatch.t).
Variable generate_answer : text -> list ClauseMatch.t -> Eff.M World text.

(** [verify_token(credentials)]; [credentials] is
    [credentials.credentials], the bearer token of the request. *)
Definition verify_token (credentials : text) : HTTPException + text :=
  if bool_decide (credentials <> API_TOKEN)
  then inl (mk_http 401 (txt "Invalid authentication credentials"))
  else inr credentials.

(** [POST /api/v1/hackrx/run]: the dependency [verify_token], then the
    handler [process_queries(request, token)]. *)
Definition process_queries (request : QueryRequest) (credentials : text)
    (s : QueryProcessor.state Index * World)
    : (HTTPException + QueryResponse) * (QueryProcessor.state Index * World) :=
  match verify_token credentials with
  | inl e => (inl e, s)
  | inr token =>
      match QueryProcessor.process_queries process_document create_embeddings
              search_similar_chunks generate_answer (documents request) (questions request) s
      with
      | (inr answers, s') => (inr (mk_response answers), s')
      | (inl e, s') =>
          (inl (mk_http 500 (txt "Error processing queries: " ++ exn_str e)), s')
      end
  end.

End Endpoint.

Arguments verify_token _ _ : assert.
Arguments process_queries {World Index} _ _ _ _ _ _ _ _.

End Api.

(** ** batch_processor.py *)

Module BatchProcessor.

(** An entry of [batch_data['documents']]; a key that is read may be
    missing. *)
Record doc_data : Type := mk_doc {
  url : option text;
  questions : option (list text)
}.

(** [doc_result], by its [status]. *)
Inductive doc_result (Time : Type) : Type :=
  | success (document_url : text) (processing_time : Time) (questions_count : Z)
      (answers : list text)
  | error (document_url : text) (processing_time : Time) (error_ : text).
Arguments success {Time} _ _ _ _.
Arguments error {Time} _ _ _.

Definition document_url {Time} (r : doc_result Time) : text :=
  match r with
  | success u _ _ _ | error u _ _ => u
  end.

(** [results] *)
Record results (Time : Type) : Type := mk_results {
  processed_at : Time;
  total_documents : Z;
  results_ : list (doc_result Time)
}.
Arguments mk_results {Time} _ _ _.
Arguments processed_at {Time} _.
Arguments total_documents {Time} _.
Arguments results_ {Time} _.

(** What ends [process_batch_file] without a result: a missing key, or an
    exception of the file access. *)
Inductive failure : Type :=
  | KeyError (key : text)
  | Raised (e : exn).

Section Batch.

Variables World Index Time : Type.

(** [with open(batch_file, 'r') as f: json.load(f)], and of it
    [.get('documents', [])] *)
Variable load_batch : text -> Eff.M World (list doc_data).
(** [time.time()] *)
Variable time : World -> Time.
(** The difference of two readings. *)
Variable minus : Time -> Time -> Time.

(** The services of [self.query_processor]. *)
Variable process_document : text -> Eff.M World (list DocumentChunk.t).
Variable create_embeddings :
  list DocumentChunk.t -> Eff.M (EmbeddingService.state Index * World) unit.
Variable search_similar_chunks :
  text -> option Z -> Eff.M (EmbeddingService.state Index * World) (list ClauseMatch.t).
Variable generate_answer : text -> list ClauseMatch.t -> Eff.M World text.

Abbreviation store := (QueryProcessor.state Index * World)%type.

(** The body of [for doc_data in ...]: [results['results']] after the
    iteration. *)
Definition process_doc (acc : list (doc_result Time)) (doc : doc_data) (s : store)
    : (failure + list (doc_result Time)) * store :=
  match url doc with
  | None => (inl (KeyError (txt "url")), s)
  | Some doc_url =>
      match questions doc with
      | None => (inl (KeyError (txt "questions")), s)
      | Some qs =>
          let start_time := time (snd s) in
          match QueryProcessor.process_queries process_document create_embeddings
                  search_similar_chunks generate_answer doc_url qs s
          with
          | (inr answers, s') =>
              (inr (acc ++ [success doc_url (minus (time (snd s')) start_time)
                              (Z.of_nat (length qs)) answers]), s')
          | (inl e, s') =>
              (inr (acc ++ [error doc_url (minus (time (snd s')) start_time) (exn_str e)]),
               s')
          end
      end
  end.

Fixpoint process_docs (acc : list (doc_result Time)) (docs : list doc_data) (s : store)
    : (failure + list (doc_result Time)) * store :=
  match docs with
  | [] => (inr acc, s)
  | doc :: docs' =>
      match process_doc acc doc s with
      | (inl f, s') => (inl f, s')
      | (inr acc', s') => process_docs acc' docs' s'
      end
  end.

(** [process_batch_file(batch_file)] *)
Definition process_batch_file (batch_file : text) (s : store)
    : (failure + results Time) * store :=
  match load_batch batch_file (snd s) with
  | (inl e, w') => (inl (Raised e), (fst s, w'))
  | (inr docs, w') =>
      let at_ := time w' in
      match process_docs [] docs (fst s, w') with
      | (inl f, s') => (inl f, s')
      | (inr rs, s') => (inr (mk_results at_ (Z.of_nat (length docs)) rs), s')
      end
  end.

End Batch.

Arguments process_doc {World Index Time} _ _ _ _ _ _ _ _ _.
Arguments process_docs {World Index Time} _ _ _ _ _ _ _ _ _.
Arguments process_batch_file {World Index Time} _ _ _ _ _ _ _ _ _.

End BatchProcessor.

(** * Notions the properties are stated with *)

(** ** Vector index *)

(** The match built from a chunk and a score. *)
Definition match_of (chunk : DocumentChunk.t) (score : Q) : ClauseMatch.t :=
  ClauseMatch.mk (DocumentChunk.content chunk) score (DocumentChunk.metadata chunk)
    (txt "Chunk " ++ DocumentChunk.chunk_id chunk).

(** [hit] addresses a chunk of [cs], of which [m] is the match. *)
Definition hit_of (cs : list DocumentChunk.t) (hit : Q * Z) (m : ClauseMatch.t) : Prop :=
  0 <= hit.2 /\ exists chunk, cs !! Z.to_nat hit.2 = Some chunk /\ m = match_of chunk hit.1.

(** ** Query orchestrator *)

Section Answered.

Variables World Index : Type.
Variable search_similar_chunks :
  text -> option Z -> Eff.M (EmbeddingService.state Index * World) (list ClauseMatch.t).
Variable generate_answer : text -> list ClauseMatch.t -> Eff.M World text.

(** The entry of the answer list for a question whose processing ended
    with [r]. *)
Definition render (r : result text) : text :=
  match r with
  | inr answer => answer
  | inl e => txt "Error processing question: " ++ exn_str e
  end.

(** [answered s questions answers s']: starting in store [s], the questions
    are processed one after the other, each contributing the answer or the
    error entry at its own position, and the store ends as [s']. *)
Inductive answered :
    QueryProcessor.state Index * World -> list text -> list text ->
    QueryProcessor.state Index * World -> Prop :=
  | answered_nil (s : QueryProcessor.state Index * World) : answered s [] [] s
  | answered_cons (s s1 s' : QueryProcessor.state Index * World) (question : text)
      (questions : list text)
      (r : result text) (answers : list text) :
      QueryProcessor._process_single_query search_similar_chunks generate_answer question s
      = (r, s1) ->
      answered s1 questions answers s' ->
      answered s (question :: questions) (render r :: answers) s'.

End Answered.

Arguments answered {World Index} _ _ _ _ _ _.

(** A small deployment for examples: the document at [ok] has one chunk, the
    one at [empty] none, any other URL cannot be downloaded; retrieval raises
    on the question [q2]. *)
Module Demo.

Definition chunk0 : DocumentChunk.t :=
  DocumentChunk.mk (txt "The grace period is 30 days.") ∅ (txt "id-0") None.

Definition process_document (url : text) : Eff.M unit (list DocumentChunk.t) :=
  if bool_decide (url = txt "ok") then Eff.ret [chunk0]
  else if bool_decide (url = txt "empty") then Eff.ret []
  else Eff.raise (ExternalError (txt "404 Client Error")).

Definition create_embeddings (cs : list DocumentChunk.t)
    : Eff.M (EmbeddingService.state unit * unit) unit :=
  fun sw => (inr tt, (EmbeddingService.mk_state (Some tt) cs, snd sw)).

Definition search_similar_chunks (query : text) (top_k : option Z)
    : Eff.M (EmbeddingService.state unit * unit) (list ClauseMatch.t) :=
  if bool_decide (query = txt "q2") then Eff.raise (ExternalError (txt "encoder failed"))
  else Eff.ret [match_of chunk0 1].

Definition generate_answer (question : text) (cs : list ClauseMatch.t) : Eff.M unit text :=
  Eff.ret (txt "Answer to " ++ question ++ txt ".").

Definition idle : QueryProcessor.state unit :=
  QueryProcessor.mk_state None (EmbeddingService.mk_state None []).

Definition process_queries :=
  QueryProcessor.process_queries process_document create_embeddings
    search_similar_chunks generate_answer.

End Demo.

(** The services put together, with stand-ins for the libraries: the index
    is the number of vectors it holds, the search answers with the stored
    positions in order and pads with [-1] up to [top_k], the model always
    gives the same response. *)
Module Pipeline.

Definition document : text :=
  txt "The grace period is 30 days. Claims must be filed within 90 days.".

Definition uuid4 (k : nat) : text := txt "id-" ++ txt (pretty k).

Definition process_document (url : text) : Eff.M unit (list DocumentChunk.t) :=
  match DocumentProcessor._chunk_text uuid4 1000 200 document
          {[ txt "document_type" := VStr (txt "text") ]} 0 with
  | Some (chunks, _) => Eff.ret chunks
  | None => Eff.raise (ExternalError (txt "chunking did not finish"))
  end.

Definition model_encode (texts : list text) : Eff.M unit nat := Eff.ret (length texts).

Definition index_add (index rows : nat) : Eff.M unit nat := Eff.ret (index + rows)%nat.

Definition index_search (index : nat) (query : nat) (top_k : Z) : Eff.M unit (list (Q * Z)) :=
  Eff.ret (map (fun i => (1%Q, Z.of_nat i)) (seq 0 (Nat.min index (Z.to_nat top_k)))
           ++ repeat ((-1)%Q, -1) (Z.to_nat top_k - index)).

Definition client_generate (prompt : text) : Eff.M unit text :=
  Eff.ret (txt "Based on the provided document context, the grace period is 30 days").

Definition search_similar_chunks :=
  EmbeddingService.search_similar_chunks model_encode index_search.

Definition process_queries :=
  QueryProcessor.process_queries process_document
    (EmbeddingService.create_embeddings model_encode O index_add)
    search_similar_chunks
    (LLMService.generate_answer client_generate).

Definition idle : QueryProcessor.state nat :=
  QueryProcessor.mk_state None (EmbeddingService.mk_state None []).

End Pipeline.

(** ** Retrieval optimizer *)

(** [a] may stand before [b]: its score is not lower. *)
Definition before (a b : ClauseMatch.t) : Prop :=
  (ClauseMatch.similarity_score b <= ClauseMatch.similarity_score a)%Q.

(** *** The selection as the specification words it *)

(** The Jaccard similarity of two word sets; [0] when both are empty. *)
Definition jaccard (a b : gset text) : Q :=
  if bool_decide (a ∪ b = ∅) then 0%Q
  else (Z.of_nat (size (a ∩ b)) # Pos.of_nat (size (a ∪ b)))%Q.

(** The lowercase whitespace-tokenized words of a match. *)
Definition words (m : ClauseMatch.t) : gset text :=
  list_to_set (PyStr.split (PyStr.lower (ClauseMatch.content m))).

(** [c] is admissible next to [selected]: its similarity with every selected
    match is at most 0.8. *)
Definition admissible (c : ClauseMatch.t) (selected : list ClauseMatch.t) : bool :=
  forallb (fun s => Qle_bool (jaccard (words c) (words s)) (8 # 10)) selected.

(** Go through the candidates in order, stop once 5 are selected, take a
    candidate exactly when it is [admissible]. *)
Fixpoint greedy_diverse (selected candidates : list ClauseMatch.t) : list ClauseMatch.t :=
  if (5 <=? length selected)%nat then selected
  else match candidates with
       | [] => selected
       | c :: candidates' =>
           if admissible c selected then greedy_diverse (selected ++ [c]) candidates'
           else greedy_diverse selected candidates'
       end.

(** Every selected match is diverse from all selected before it. *)
Definition pairwise_diverse (l : list ClauseMatch.t) : Prop :=
  forall (i j : nat) (a b : ClauseMatch.t),
    (i < j)%nat -> l !! i = Some a -> l !! j = Some b ->
    (jaccard (words b) (words a) <= 8 # 10)%Q.

(** [a] is a near-duplicate of [b]: their word overlap is above 0.8. *)
Definition near_duplicate (a b : ClauseMatch.t) : Prop :=
  (8 # 10 < jaccard (words a) (words b))%Q.

(** ** Chunker *)

(** A chunk that carries a copy of [md] with [chunk_number] added, below
    [bound], and the page number of [md]. *)
Definition numbered (md : gmap text value) (bound : Z) (c : DocumentChunk.t) : Prop :=
  exists n, 0 <= n < bound
    /\ DocumentChunk.metadata c = <[txt "chunk_number" := VInt n]> md
    /\ DocumentChunk.page_number c = DocumentProcessor.get_page_number md.

(** The loop invariant: [chunk_num] counts the iterations, the chunks are
    numbered below it, their identifiers are the draws made, in order. *)
Definition loop_inv (uuid4 : nat -> text) (md : gmap text value) (k : nat)
    (st : DocumentProcessor.loop_state) : Prop :=
  0 <= DocumentProcessor.chunk_num st
  /\ Forall (numbered md (DocumentProcessor.chunk_num st)) (DocumentProcessor.chunks st)
  /\ (k <= DocumentProcessor.drawn st)%nat
  /\ map DocumentChunk.chunk_id (DocumentProcessor.chunks st)
     = map uuid4 (seq k (DocumentProcessor.drawn st - k)).

(** A text with a paragraph break and no full stop. *)
Definition two_paragraphs : text :=
  txt "First paragraph" ++ ["010"%char] ++ txt "Second paragraph continues here".

(** ** Regular expressions and the cleaning pass *)

Section CleaningNotions.

Import Re LLMService.


(** Every run of characters of class [c] replaced by one [r]; [in_run]
    tells that the run has already been replaced. *)
Fixpoint squeeze (c : ascii -> bool) (r : ascii) (in_run : bool) (s : text) : text :=
  match s with
  | [] => []
  | x :: s' =>
      if c x then (if in_run then squeeze c r true s' else r :: squeeze c r true s')
      else x :: squeeze c r false s'
  end.

(** The length of the run of [c] at the head of [s]. *)
Definition run (c : ascii -> bool) (s : text) : nat :=
  (length s - length (PyStr.lstrip_by c s))%nat.

(** No two neighbours of [s] are both of class [c]. *)
Fixpoint no_adj (c : ascii -> bool) (s : text) : bool :=
  match s with
  | [] => true
  | x :: s' =>
      match s' with
      | y :: _ => negb (c x && c y)
      | [] => true
      end && no_adj c s'
  end.

(** The final steps of the pass, from the whitespace collapse on. *)
Definition finish (t : text) : text :=
  terminate (capitalize
    (PyStr.strip_chars (txt " .,")
       (sub false [Plus (chr ".")] (txt ".")
          (PyStr.strip (sub false [Plus space] (txt " ") t))))).

(** White space is single blanks. *)
Definition blanks_single (s : text) : Prop :=
  Forall (fun c => PyStr.isspace c = true -> c = " "%char) s
  /\ no_adj PyStr.isspace s = true.

(** The text before the final punctuation is added: not empty, single
    blanks, single full stops, no blank, full stop or comma at either end,
    in front a character that is its own upper-case form. *)
Definition core (y : text) : Prop :=
  y <> []
  /\ blanks_single y
  /\ no_adj (chr ".") y = true
  /\ (forall c, head y = Some c ->
        PyStr.char_in (txt " .,") c = false /\ PyStr.upper [c] = [c])
  /\ (forall c, last y = Some c -> PyStr.char_in (txt " .,") c = false).

(** The steps of the pass that take something away. *)
Definition removals (t : text) : text :=
  let cleaned := fold_left (fun cleaned pattern => sub_at_start true pattern [] cleaned)
                   verbose_patterns t in
  let cleaned := fold_left (fun cleaned pattern => sub true pattern [] cleaned)
                   chunk_patterns cleaned in
  let cleaned := _convert_bullets_to_text cleaned in
  let cleaned := sub true as_per_section [] cleaned in
  sub true under_section [] cleaned.


End CleaningNotions.

(** ** Chunker: what a chunk is cut from *)

(** [piece] is a contiguous part of [t]. *)
Definition part_of (piece t : text) : Prop :=
  exists before_ after_, t = before_ ++ piece ++ after_.

(** The character at index [i] of [t] is in one of the chunks: the content
    of the chunk is the piece of [t] that starts at index [length before_]
    and [i] lies inside it. *)
Definition covered (t : text) (chunks : list DocumentChunk.t) (i : nat) : Prop :=
  exists c before_ after_,
    c ∈ chunks
    /\ t = before_ ++ DocumentChunk.content c ++ after_
    /\ (length before_ <= i < length before_ + length (DocumentChunk.content c))%nat.

(** No white space at either end. *)
Definition trimmed (s : text) : Prop :=
  (forall y, head s = Some y -> PyStr.isspace y = false)
  /\ (forall y, last s = Some y -> PyStr.isspace y = false).

(** A chunk is a piece of the text, not empty, with no white space at
    either end, and no longer than the window. *)
Definition well_cut (chunk_size : Z) (t : text) (c : DocumentChunk.t) : Prop :=
  part_of (DocumentChunk.content c) t
  /\ DocumentChunk.content c <> []
  /\ trimmed (DocumentChunk.content c)
  /\ PyStr.len (DocumentChunk.content c) <= chunk_size.

(** A chunk that carries the metadata it was cut with: the page number,
    and every entry but, perhaps, [chunk_number]. *)
Definition kept_metadata (md : gmap text value) (c : DocumentChunk.t) : Prop :=
  DocumentChunk.page_number c = DocumentProcessor.get_page_number md
  /\ forall key, key <> txt "chunk_number" -> DocumentChunk.metadata c !! key = md !! key.

(** ** Document loader *)

(** A small web for examples: the pages of a PDF are given by their texts,
    the paragraphs of a DOCX by theirs. *)
Module LoaderDemo.

Definition requests_get (url : text) : Eff.M unit (DocumentLoader.response (list text)) :=
  if bool_decide (url = txt "http://host/blank.pdf")
  then Eff.ret (DocumentLoader.mk_response (Some (txt "application/pdf")) [txt " "; []] [])
  else if bool_decide (url = txt "http://host/two.pdf")
  then Eff.ret (DocumentLoader.mk_response (Some (txt "application/pdf"))
                  [txt "The grace period is 30 days."; txt " ";
                   txt "Claims must be filed within 90 days."] [])
  else if bool_decide (url = txt "http://host/blank.txt")
  then Eff.ret (DocumentLoader.mk_response (Some (txt "text/plain")) [] (txt "   "))
  else Eff.raise (ExternalError (txt "404 Client Error")).

Definition process_document : text -> Eff.M (nat * unit) (list DocumentChunk.t) :=
  DocumentLoader.process_document Pipeline.uuid4 1000 200 requests_get (fun _ => None)
    inr inr inr (fun _ => Eff.ret []).

End LoaderDemo.

(** * Properties *)

(** ** The effect monad *)

Lemma catch_reraise {S A} (c : Eff.M S A) (s : S) :
  Eff.catch c (fun e => Eff.raise e) s = c s.
Proof. unfold Eff.catch, Eff.raise. by destruct (c s) as [[e|a] s']. Qed.

Lemma bind_ok {S A B} (c : Eff.M S A) (k : A -> Eff.M S B) (s s' : S) (a : A) :
  c s = (inr a, s') -> Eff.bind c k s = k a s'.
Proof. intros H. unfold Eff.bind. by rewrite H. Qed.

Lemma bind_raise {S A B} (c : Eff.M S A) (k : A -> Eff.M S B) (s s' : S) (e : exn) :
  c s = (inl e, s') -> Eff.bind c k s = (inl e, s').
Proof. intros H. unfold Eff.bind. by rewrite H. Qed.

Lemma on_snd_run {S W A} (c : Eff.M W A) (s : S) (w w' : W) (r : result A) :
  c w = (r, w') -> Eff.on_snd c (s, w) = (r, (s, w')).
Proof. intros H. unfold Eff.on_snd. cbn. by rewrite H. Qed.

(** ** Retrieval optimizer: the result cache *)

Section CacheFacts.

Variable hash : text -> Z.

Lemma Qlt_bool_iff (a b : Q) : QueryOptimizer.Qlt_bool a b = true <-> (a < b)%Q.
Proof.
  unfold QueryOptimizer.Qlt_bool. rewrite Qlt_alt.
  destruct (a ?= b)%Q; split; congruence.
Qed.

Lemma Qlt_bool_false_iff (a b : Q) : QueryOptimizer.Qlt_bool a b = false <-> (b <= a)%Q.
Proof.
  rewrite <- not_true_iff_false, Qlt_bool_iff. split.
  - apply Qnot_lt_le.
  - apply Qle_not_lt.
Qed.

(** *** Float comparisons *)

Import PrimFloat.

(** A finite reading subtracted from itself leaves zero. *)
Lemma float_sub_self (w : float) : is_finite w = true -> (w - w <? 3600)%float = true.
Proof.
  intros H. rewrite FloatAxioms.ltb_spec, FloatAxioms.sub_spec.
  unfold is_finite, is_nan, is_infinity in H.
  rewrite !FloatAxioms.eqb_spec, FloatAxioms.abs_spec in H.
  destruct (FloatOps.Prim2SF w) as [s| s| |s m e] eqn:E.
  - by destruct s.
  - by destruct s.
  - done.
  - unfold FloatAxioms.SF64sub, SpecFloat.SFsub. rewrite Z.min_id, Z.sub_diag. reflexivity.
Qed.

Lemma SFcompare_antisym (x y : SpecFloat.spec_float) :
  SpecFloat.SFcompare y x = option_map CompOpp (SpecFloat.SFcompare x y).
Proof.
  destruct x as [sx|sx| |sx mx ex], y as [sy|sy| |sy my ey];
    cbn [SpecFloat.SFcompare option_map];
    try reflexivity; try (by destruct sx); try (by destruct sy); try (by destruct sx, sy).
  f_equal. rewrite (Z.compare_antisym ex ey), !Pos.compare_cont_spec.
  cbn [Pos.switch_Eq]. rewrite (Pos.compare_antisym mx my).
  destruct sx, sy; try reflexivity; destruct (ex ?= ey); cbn [CompOpp]; try reflexivity;
    destruct (mx ?= my)%positive; reflexivity.
Qed.

(** [a <= b] excludes [b < a]. *)
Lemma float_leb_not_ltb (a b : float) : (a <=? b)%float = true -> (b <? a)%float = false.
Proof.
  rewrite FloatAxioms.leb_spec, FloatAxioms.ltb_spec. unfold SpecFloat.SFleb, SpecFloat.SFltb.
  rewrite (SFcompare_antisym (FloatOps.Prim2SF a)).
  by destruct (SpecFloat.SFcompare (FloatOps.Prim2SF a) (FloatOps.Prim2SF b)) as [[]|].
Qed.

(** C3.  [should_use_cache] is true exactly when the cache holds an entry
    under the key [<document_url>:<hash(question)>] and the clock reading
    minus the timestamp of the entry, as the float subtraction gives it, is
    less than 3600.  [cache_result] writes the entry under that key with the
    reading of the clock.  Right after the write, at the same reading, the
    answer is true; at a later reading it is the comparison of the difference
    with 3600, so it is false once the difference is 3600 or more. *)
Theorem should_use_cache_ttl (query document_url res : text) (written now : float)
    (query_cache : gmap text QueryOptimizer.cache_entry) :
  let key := document_url ++ txt ":" ++ txt (pretty (hash query)) in
  (QueryOptimizer.should_use_cache hash query document_url now query_cache = true
   <-> exists entry,
         query_cache !! key = Some entry
         /\ (now - QueryOptimizer.timestamp entry <? 3600)%float = true)
  /\ QueryOptimizer.cache_result hash query document_url res written query_cache
     = <[key := QueryOptimizer.mk_entry res written]> query_cache
  /\ (is_finite written = true ->
      QueryOptimizer.should_use_cache hash query document_url written
        (QueryOptimizer.cache_result hash query document_url res written query_cache) = true)
  /\ QueryOptimizer.should_use_cache hash query document_url now
       (QueryOptimizer.cache_result hash query document_url res written query_cache)
     = (now - written <? 3600)%float
  /\ ((3600 <=? now - written)%float = true ->
      QueryOptimizer.should_use_cache hash query document_url now
        (QueryOptimizer.cache_result hash query document_url res written query_cache) = false).
Proof.
  intros key.
  assert (forall at_,
            QueryOptimizer.should_use_cache hash query document_url at_
              (QueryOptimizer.cache_result hash query document_url res written query_cache)
            = (at_ - written <? 3600)%float) as Hafter.
  { intros at_. unfold QueryOptimizer.should_use_cache, QueryOptimizer.cache_result.
    by rewrite lookup_insert_eq. }
  split; [|split; [reflexivity|split; [|split]]].
  - unfold QueryOptimizer.should_use_cache. fold key. split.
    + change (QueryOptimizer.cache_key hash query document_url) with key.
      destruct (query_cache !! key) as [entry|] eqn:E; [|discriminate].
      intros H. by exists entry.
    + intros (entry & Hentry & H).
      change (QueryOptimizer.cache_key hash query document_url) with key.
      by rewrite Hentry.
  - intros Hfin. rewrite Hafter. by apply float_sub_self.
  - apply Hafter.
  - intros Hold. rewrite Hafter. by apply float_leb_not_ltb.
Qed.

End CacheFacts.

Section CacheExamples.

Import PrimFloat.

Lemma should_use_cache_ttl_witness :
  let hash := fun _ : text => 42 in
  let cache := QueryOptimizer.cache_result hash (txt "What is the grace period?")
                 (txt "https://example.org/policy.pdf") (txt "30 days.") 1700000000%float ∅ in
  QueryOptimizer.should_use_cache hash (txt "What is the grace period?")
    (txt "https://example.org/policy.pdf") 1700000000%float cache = true
  /\ QueryOptimizer.should_use_cache hash (txt "What is the grace period?")
       (txt "https://example.org/policy.pdf") 1700003600.5%float cache = false.
Proof.
  intros hash cache.
  pose proof (should_use_cache_ttl hash (txt "What is the grace period?")
                (txt "https://example.org/policy.pdf") (txt "30 days.")
                1700000000%float 1700003600.5%float ∅)
    as (_ & _ & Hnow & _ & Hstale).
  split.
  - apply Hnow. vm_compute. reflexivity.
  - apply Hstale. vm_compute. reflexivity.
Defined.

(** The difference is the rounded one: between the readings nearest to
    0.1 and 3600.1 it is 3600, not less, and the entry is not used. *)
Example should_use_cache_rounds :
  let hash := fun _ : text => 42 in
  QueryOptimizer.should_use_cache hash (txt "q") (txt "u") 0x1.c203333333333p+11%float
    (QueryOptimizer.cache_result hash (txt "q") (txt "u") (txt "r")
       0x1.999999999999ap-4%float ∅)
  = false
  /\ (0x1.c203333333333p+11 - 0x1.999999999999ap-4 =? 3600)%float = true.
Proof. split; vm_compute; reflexivity. Qed.

End CacheExamples.

(** ** Vector index: loading *)

Section LoadIndexFacts.

Variables World Index : Type.
Variable path_exists : text -> World -> bool.
Variable read_index : text -> Eff.M World Index.
Variable load_chunks : text -> Eff.M World (list DocumentChunk.t).

Let load_index := EmbeddingService.load_index path_exists read_index load_chunks.

(** [load_index] never raises: it answers with a boolean. *)
Lemma load_index_returns (path : text) (sw : EmbeddingService.state Index * World) :
  exists ok sw', load_index path sw = (inr ok, sw').
Proof.
  unfold load_index, EmbeddingService.load_index, Eff.catch.
  match goal with |- context [match ?c sw with _ => _ end] => destruct (c sw) as [[e|ok] sw'] end;
    eauto.
Qed.

(** A missing file: [False], nothing written. *)
Lemma load_index_missing (path : text) (st : EmbeddingService.state Index) (w : World) :
  path_exists (path ++ txt ".faiss") w && path_exists (path ++ txt ".chunks") w = false ->
  load_index path (st, w) = (inr false, (st, w)).
Proof.
  intros H. unfold load_index, EmbeddingService.load_index, Eff.catch, Eff.bind, Eff.get.
  cbn. by rewrite H.
Qed.

(** An index file that cannot be read: [False], the fields as before. *)
Lemma load_index_unreadable_index (path : text) (st : EmbeddingService.state Index)
    (w w1 : World) (e : exn) :
  path_exists (path ++ txt ".faiss") w && path_exists (path ++ txt ".chunks") w = true ->
  read_index (path ++ txt ".faiss") w = (inl e, w1) ->
  load_index path (st, w) = (inr false, (st, w1)).
Proof.
  intros H R. unfold load_index, EmbeddingService.load_index, Eff.catch, Eff.bind, Eff.get,
    Eff.on_snd.
  cbn. rewrite H. cbn. by rewrite R.
Qed.

(** Both files read: [True], both fields replaced. *)
Lemma load_index_loaded (path : text) (st : EmbeddingService.state Index)
    (w w1 w2 : World) (loaded : Index) (cs : list DocumentChunk.t) :
  path_exists (path ++ txt ".faiss") w && path_exists (path ++ txt ".chunks") w = true ->
  read_index (path ++ txt ".faiss") w = (inr loaded, w1) ->
  load_chunks (path ++ txt ".chunks") w1 = (inr cs, w2) ->
  load_index path (st, w) = (inr true, (EmbeddingService.mk_state (Some loaded) cs, w2)).
Proof.
  intros H R L. unfold load_index, EmbeddingService.load_index, Eff.catch, Eff.bind, Eff.get,
    Eff.on_snd, EmbeddingService.set_index, EmbeddingService.set_chunks, Eff.ret.
  cbn. rewrite H. cbn. rewrite R. cbn. by rewrite L.
Qed.

(** C4.  When both files exist, the index file is read and the chunk file
    then fails to load, [load_index] returns [False] after it has replaced
    [self.index] by the index read, while [self.chunks] is still the old
    list: the failed load has overwritten half of the state. *)
Theorem load_index_partial_overwrite (path : text) (st : EmbeddingService.state Index)
    (w w1 w2 : World) (loaded : Index) (e : exn) :
  path_exists (path ++ txt ".faiss") w && path_exists (path ++ txt ".chunks") w = true ->
  read_index (path ++ txt ".faiss") w = (inr loaded, w1) ->
  load_chunks (path ++ txt ".chunks") w1 = (inl e, w2) ->
  load_index path (st, w)
  = (inr false,
     (EmbeddingService.mk_state (Some loaded) (EmbeddingService.chunks st), w2)).
Proof.
  intros H R L. unfold load_index, EmbeddingService.load_index, Eff.catch, Eff.bind, Eff.get,
    Eff.on_snd, EmbeddingService.set_index, EmbeddingService.set_chunks, Eff.ret.
  cbn. rewrite H. cbn. rewrite R. cbn. by rewrite L.
Qed.

End LoadIndexFacts.

Lemma load_index_partial_overwrite_witness :
  let path_exists := fun (_ : text) (_ : unit) => true in
  let read_index := fun (_ : text) (w : unit) => (inr (A:=exn) 2%nat, w) in
  let load_chunks := fun (_ : text) (w : unit) =>
    (inl (B:=list DocumentChunk.t) (ExternalError (txt "pickle data was truncated")), w) in
  let old_chunk := DocumentChunk.mk (txt "The grace period is 30 days.") ∅ (txt "id-0") None in
  EmbeddingService.load_index path_exists read_index load_chunks (txt "./data/faiss_index")
    (EmbeddingService.mk_state (Some 1%nat) [old_chunk], tt)
  = (inr false, (EmbeddingService.mk_state (Some 2%nat) [old_chunk], tt)).
Proof.
  intros path_exists read_index load_chunks old_chunk.
  apply (load_index_partial_overwrite unit nat path_exists read_index load_chunks
           (txt "./data/faiss_index") (EmbeddingService.mk_state (Some 1%nat) [old_chunk])
           tt tt tt 2%nat (ExternalError (txt "pickle data was truncated")));
    reflexivity.
Defined.

(** ** Vector index: search *)

Lemma collect_matches_hits (cs : list DocumentChunk.t) (hits : list (Q * Z))
    (ms acc : list ClauseMatch.t) :
  Forall2 (hit_of cs) hits ms ->
  EmbeddingService.collect_matches cs acc hits = inr (acc ++ ms).
Proof.
  intros H. revert acc. induction H as [|[score idx] m hits ms (Hge & chunk & Hc & ->) _ IH];
    intros acc; cbn.
  - by rewrite app_nil_r.
  - cbn in Hge, Hc. apply lookup_lt_Some in Hc as Hlt.
    unfold PyStr.py_index.
    replace (idx <? Z.of_nat (length cs)) with true by (symmetry; apply Z.ltb_lt; lia).
    replace (0 <=? idx) with true by (symmetry; apply Z.leb_le; lia).
    cbn. rewrite Hc. rewrite IH. by rewrite <- app_assoc.
Qed.

Lemma collect_matches_padding (cs : list DocumentChunk.t) (last_chunk : DocumentChunk.t)
    (pads : list (Q * Z)) (acc : list ClauseMatch.t) :
  last cs = Some last_chunk ->
  Forall (fun pad => pad.2 = -1) pads ->
  EmbeddingService.collect_matches cs acc pads
  = inr (acc ++ map (fun pad => match_of last_chunk pad.1) pads).
Proof.
  intros Hlast H. revert acc. induction H as [|[score idx] pads Hidx _ IH]; intros acc; cbn.
  - by rewrite app_nil_r.
  - cbn in Hidx. subst idx.
    assert (length cs <> 0%nat) as Hne by (by destruct cs).
    unfold PyStr.py_index.
    replace (-1 <? Z.of_nat (length cs)) with true by (symmetry; apply Z.ltb_lt; lia).
    replace (0 <=? -1) with false by reflexivity.
    replace (- Z.of_nat (length cs) <=? -1) with true by (symmetry; apply Z.leb_le; lia).
    cbn [andb]. replace (-1 <? 0) with true by reflexivity.
    replace (Z.to_nat (Z.of_nat (length cs) + -1)) with (pred (length cs)) by lia.
    rewrite <- last_lookup, Hlast. rewrite IH. by rewrite <- app_assoc.
Qed.

Lemma collect_matches_app (cs : list DocumentChunk.t) (hits1 hits2 : list (Q * Z))
    (acc : list ClauseMatch.t) :
  EmbeddingService.collect_matches cs acc (hits1 ++ hits2)
  = match EmbeddingService.collect_matches cs acc hits1 with
    | inl e => inl e
    | inr ms => EmbeddingService.collect_matches cs ms hits2
    end.
Proof.
  revert acc. induction hits1 as [|hit hits1 IH]; intros acc; [done|].
  cbn. destruct (EmbeddingService.add_match cs acc hit); [done|]. apply IH.
Qed.

Section SearchFacts.

Variables World Index Emb : Type.
Variable model_encode : list text -> Eff.M World Emb.
Variable index_search : Index -> Emb -> Z -> Eff.M World (list (Q * Z)).

(** C10.  When [top_k] exceeds the number of indexed chunks and the FAISS
    search answers with one hit per chunk followed by padding entries whose
    index is [-1], [search_similar_chunks] does not drop the padding: the
    guard [idx < len(self.chunks)] lets [-1] through, [self.chunks[-1]] is
    the last chunk, and the result holds, after the real matches, one match
    built from the last chunk for every padding entry; it has [top_k]
    elements, more than there are chunks. *)
Theorem search_padding_yields_last_chunk (query : text) (top_k : Z)
    (st : EmbeddingService.state Index) (w w1 w2 : World) (idx : Index) (emb : Emb)
    (real pads : list (Q * Z)) (real_matches : list ClauseMatch.t)
    (last_chunk : DocumentChunk.t) :
  EmbeddingService.index st = Some idx ->
  model_encode [query] w = (inr emb, w1) ->
  index_search idx emb top_k w1 = (inr (real ++ pads), w2) ->
  Z.of_nat (length (EmbeddingService.chunks st)) < top_k ->
  length real = length (EmbeddingService.chunks st) ->
  Z.of_nat (length (real ++ pads)) = top_k ->
  Forall2 (hit_of (EmbeddingService.chunks st)) real real_matches ->
  Forall (fun pad => pad.2 = -1) pads ->
  last (EmbeddingService.chunks st) = Some last_chunk ->
  exists matches,
    EmbeddingService.search_similar_chunks model_encode index_search query (Some top_k) (st, w)
    = (inr matches, (st, w2))
    /\ matches = real_matches ++ map (fun pad => match_of last_chunk pad.1) pads
    /\ pads <> []
    /\ Z.of_nat (length matches) = top_k
    /\ (length (EmbeddingService.chunks st) < length matches)%nat.
Proof.
  intros Hidx Henc Hsearch Hk Hreal Hlen Hhits Hpads Hlast.
  eexists. split; [|split; [reflexivity|]].
  - unfold EmbeddingService.search_similar_chunks, Eff.bind, Eff.get, Eff.catch, Eff.on_snd,
      Eff.ret, Eff.raise.
    cbn [fst snd]. rewrite Hidx. cbn [fst snd]. rewrite Henc. cbn [fst snd]. rewrite Hsearch.
    rewrite collect_matches_app, (collect_matches_hits _ _ _ _ Hhits).
    rewrite (collect_matches_padding _ _ _ _ Hlast Hpads). destruct st; reflexivity.
  - apply Forall2_length in Hhits.
    rewrite length_app in Hlen. rewrite length_app, length_map.
    split; [|split; [lia|lia]].
    intros ->. cbn in Hlen. lia.
Qed.

End SearchFacts.

Lemma search_padding_yields_last_chunk_witness :
  let c0 := DocumentChunk.mk (txt "The grace period is 30 days.") ∅ (txt "id-0") None in
  let c1 := DocumentChunk.mk (txt "Claims must be filed within 90 days.") ∅ (txt "id-1") None in
  let model_encode := fun (_ : list text) (w : unit) => (inr (A:=exn) tt, w) in
  let index_search := fun (_ : unit) (_ : unit) (_ : Z) (w : unit) =>
    (inr (A:=exn) [((9 # 10)%Q, 0); ((4 # 10)%Q, 1); ((-1 # 1)%Q, -1); ((-1 # 1)%Q, -1); ((-1 # 1)%Q, -1)], w) in
  exists matches,
    EmbeddingService.search_similar_chunks model_encode index_search
      (txt "What is the grace period?") (Some 5)
      (EmbeddingService.mk_state (Some tt) [c0; c1], tt)
    = (inr matches, (EmbeddingService.mk_state (Some tt) [c0; c1], tt))
    /\ map ClauseMatch.content matches
       = [txt "The grace period is 30 days."; txt "Claims must be filed within 90 days.";
          txt "Claims must be filed within 90 days."; txt "Claims must be filed within 90 days.";
          txt "Claims must be filed within 90 days."].
Proof.
  intros c0 c1 model_encode index_search.
  assert (Forall2 (hit_of [c0; c1]) [((9 # 10)%Q, 0); ((4 # 10)%Q, 1)]
            [match_of c0 (9 # 10)%Q; match_of c1 (4 # 10)%Q]) as Hreal.
  { constructor; [|constructor; [|constructor]].
    - split; [cbn; lia|]. exists c0. split; reflexivity.
    - split; [cbn; lia|]. exists c1. split; reflexivity. }
  assert (Forall (fun pad : Q * Z => pad.2 = -1)
            [((-1 # 1)%Q, -1); ((-1 # 1)%Q, -1); ((-1 # 1)%Q, -1)]) as Hpads.
  { repeat constructor. }
  destruct (search_padding_yields_last_chunk unit unit unit model_encode index_search
              (txt "What is the grace period?") 5
              (EmbeddingService.mk_state (Some tt) [c0; c1]) tt tt tt tt tt
              [((9 # 10)%Q, 0); ((4 # 10)%Q, 1)]
              [((-1 # 1)%Q, -1); ((-1 # 1)%Q, -1); ((-1 # 1)%Q, -1)]
              [match_of c0 (9 # 10)%Q; match_of c1 (4 # 10)%Q] c1
              eq_refl eq_refl eq_refl eq_refl eq_refl eq_refl Hreal Hpads eq_refl)
    as (matches & Hrun & Hms & _).
  exists matches. split; [exact Hrun|]. rewrite Hms. reflexivity.
Defined.

(** ** Query orchestrator *)

Section ProcessorFacts.

Variables World Index : Type.
Variable process_document : text -> Eff.M World (list DocumentChunk.t).
Variable create_embeddings :
  list DocumentChunk.t -> Eff.M (EmbeddingService.state Index * World) unit.
Variable search_similar_chunks :
  text -> option Z -> Eff.M (EmbeddingService.state Index * World) (list ClauseMatch.t).
Variable generate_answer : text -> list ClauseMatch.t -> Eff.M World text.

Abbreviation store := (QueryProcessor.state Index * World)%type.

Let _process_document :=
  QueryProcessor._process_document process_document create_embeddings.
Let _process_single_query :=
  QueryProcessor._process_single_query search_similar_chunks generate_answer.
Let answer_all :=
  QueryProcessor.answer_all search_similar_chunks generate_answer.
Let process_queries :=
  QueryProcessor.process_queries process_document create_embeddings
    search_similar_chunks generate_answer.
Let answered := answered search_similar_chunks generate_answer.

Lemma answered_length (s s' : store) (questions answers : list text) :
  answered s questions answers s' -> length answers = length questions.
Proof. induction 1; cbn; congruence. Qed.

(** Position by position: the [i]-th answer renders the outcome of
    processing the [i]-th question. *)
Lemma answered_lookup (s s' : store) (questions answers : list text) (i : nat)
    (question : text) :
  answered s questions answers s' ->
  questions !! i = Some question ->
  exists si si' r,
    _process_single_query question si = (r, si') /\ answers !! i = Some (render r).
Proof.
  intros H. revert i. induction H as [|s s1 s' q qs r answers Hq _ IH]; intros i Hi.
  - by destruct i.
  - destruct i as [|i]; cbn in Hi.
    + injection Hi as ->. by exists s, s1, r.
    + by apply IH.
Qed.

Lemma answer_all_answered (questions acc : list text) (s : store) :
  exists answers s',
    answer_all acc questions s = (inr (acc ++ answers), s')
    /\ answered s questions answers s'.
Proof.
  revert acc s. induction questions as [|q qs IH]; intros acc s.
  - exists [], s. rewrite app_nil_r. split; [done|constructor].
  - destruct (_process_single_query q s) as [r s1] eqn:Hq.
    destruct (IH (acc ++ [render r]) s1) as (answers & s' & Hrun & Hans).
    exists (render r :: answers), s'. split; [|by econstructor].
    rewrite <- app_assoc in Hrun. cbn in Hrun. rewrite <- Hrun.
    assert (QueryProcessor.answer_question search_similar_chunks generate_answer acc q s
            = (inr (acc ++ [render r]), s1)) as Hstep.
    { unfold QueryProcessor.answer_question, Eff.catch, Eff.bind, Eff.ret.
      fold _process_single_query. rewrite Hq. by destruct r. }
    unfold answer_all. cbn [QueryProcessor.answer_all].
    by rewrite (bind_ok _ _ _ _ _ Hstep).
Qed.

(** A failed download or parse aborts [_process_document] with the same
    exception; the embedding service is not reached. *)
Lemma _process_document_acquisition_failure (url : text) (st : QueryProcessor.state Index)
    (w w' : World) (e : exn) :
  process_document url w = (inl e, w') ->
  _process_document url (st, w) = (inl e, (st, w')).
Proof.
  intros H. unfold _process_document, QueryProcessor._process_document.
  rewrite catch_reraise. apply bind_raise. by apply on_snd_run.
Qed.

(** A document without chunks aborts [_process_document] with a
    [ValueError]. *)
Lemma _process_document_no_chunks (url : text) (st : QueryProcessor.state Index)
    (w w' : World) :
  process_document url w = (inr [], w') ->
  _process_document url (st, w)
  = (inl (ValueError (txt "No content extracted from document")), (st, w')).
Proof.
  intros H. unfold _process_document, QueryProcessor._process_document.
  rewrite catch_reraise. erewrite bind_ok; [|by apply on_snd_run]. reflexivity.
Qed.

Lemma process_queries_unfold (url : text) (questions : list text) (s : store) :
  process_queries url questions s
  = if bool_decide (QueryProcessor._current_document_url s.1 = Some url)
    then answer_all [] questions s
    else match _process_document url s with
         | (inl e, s') => (inl e, s')
         | (inr _, s') =>
             answer_all [] questions
               (QueryProcessor.mk_state (Some url) (QueryProcessor.embedding_service s'.1),
                s'.2)
         end.
Proof.
  unfold process_queries, QueryProcessor.process_queries. rewrite catch_reraise.
  unfold Eff.bind at 1. unfold Eff.get.
  case_bool_decide.
  - reflexivity.
  - fold _process_document. unfold Eff.bind.
    destruct (_process_document url s) as [[e|[]] s']; reflexivity.
Qed.

(** C1.  [process_queries] either returns or raises.  When it returns, the
    answer list has the length of the question list and its entries are, in
    order, what [_process_single_query] returned for the question or, where
    it raised, the error entry for that exception; the questions after a
    failed one are still processed.  It raises only when the document had to
    be processed and [_process_document] raised, with that exception; this is
    what happens when the download or the parsing fails and when no chunk is
    extracted. *)
Theorem process_queries_contract (url : text) (questions : list text)
    (st : QueryProcessor.state Index) (w : World) :
  match process_queries url questions (st, w) with
  | (inr answers, s') =>
      length answers = length questions
      /\ ((QueryProcessor._current_document_url st = Some url
           /\ answered (st, w) questions answers s')
          \/ (QueryProcessor._current_document_url st <> Some url
              /\ exists s1,
                   _process_document url (st, w) = (inr tt, s1)
                   /\ answered
                        (QueryProcessor.mk_state (Some url)
                           (QueryProcessor.embedding_service s1.1), s1.2)
                        questions answers s'))
  | (inl e, s') =>
      QueryProcessor._current_document_url st <> Some url
      /\ _process_document url (st, w) = (inl e, s')
  end
  /\ (forall e w',
        QueryProcessor._current_document_url st <> Some url ->
        process_document url w = (inl e, w') ->
        process_queries url questions (st, w) = (inl e, (st, w')))
  /\ (forall w',
        QueryProcessor._current_document_url st <> Some url ->
        process_document url w = (inr [], w') ->
        process_queries url questions (st, w)
        = (inl (ValueError (txt "No content extracted from document")), (st, w'))).
Proof.
  rewrite process_queries_unfold. cbn [fst]. split; [|split].
  - case_bool_decide as Hcur.
    + destruct (answer_all_answered questions [] (st, w)) as (answers & s' & -> & Hans).
      cbn. split; [by eapply answered_length|]. by left.
    + destruct (_process_document url (st, w)) as [[e|[]] s1] eqn:Hdoc; [done|].
      match goal with |- context [answer_all [] questions ?s] =>
        destruct (answer_all_answered questions [] s) as (answers & s' & -> & Hans) end.
      cbn. split; [by eapply answered_length|]. right. split; [done|]. by exists s1.
  - intros e w' Hcur Hdoc. rewrite bool_decide_eq_false_2 by done.
    by rewrite (_process_document_acquisition_failure _ _ _ _ _ Hdoc).
  - intros w' Hcur Hdoc. rewrite bool_decide_eq_false_2 by done.
    by rewrite (_process_document_no_chunks _ _ _ _ Hdoc).
Qed.

End ProcessorFacts.

Lemma process_queries_contract_witness :
  Demo.process_queries (txt "missing") [txt "q1"; txt "q2"] (Demo.idle, tt)
  = (inl (ExternalError (txt "404 Client Error")), (Demo.idle, tt))
  /\ Demo.process_queries (txt "empty") [txt "q1"; txt "q2"] (Demo.idle, tt)
     = (inl (ValueError (txt "No content extracted from document")), (Demo.idle, tt)).
Proof.
  split.
  - apply (process_queries_contract unit unit Demo.process_document Demo.create_embeddings
             Demo.search_similar_chunks Demo.generate_answer (txt "missing")
             [txt "q1"; txt "q2"] Demo.idle tt); [discriminate|reflexivity].
  - apply (process_queries_contract unit unit Demo.process_document Demo.create_embeddings
             Demo.search_similar_chunks Demo.generate_answer (txt "empty")
             [txt "q1"; txt "q2"] Demo.idle tt); [discriminate|reflexivity].
Defined.

(** Per-question isolation: of three questions the second fails in
    retrieval; three entries come back, the second an error entry. *)
Example process_queries_isolation :
  fst (Demo.process_queries (txt "ok") [txt "q1"; txt "q2"; txt "q3"] (Demo.idle, tt))
  = inr [txt "Answer to q1."; txt "Error processing question: encoder failed";
         txt "Answer to q3."].
Proof. reflexivity. Qed.

(** End to end: one question about the two-sentence document. *)
Example pipeline_end_to_end :
  (Pipeline.process_queries (txt "https://example.org/policy.txt")
     [txt "What is the grace period?"] (Pipeline.idle, tt)).1
  = inr [txt "The grace period is 30 days."].
Proof. vm_compute. reflexivity. Qed.

(** The document is one chunk and [TOP_K_RESULTS] is 5: the search of the
    orchestrator hands five copies of that chunk to the answer generator. *)
Example pipeline_search_pads :
  match (Pipeline.search_similar_chunks (txt "What is the grace period?")
           (Some EmbeddingService.TOP_K_RESULTS)
           (EmbeddingService.mk_state (Some 1%nat)
              [DocumentChunk.mk Pipeline.document ∅ (txt "id-0") None], tt)).1 with
  | inr matches => map ClauseMatch.content matches = repeat Pipeline.document 5
  | inl _ => False
  end.
Proof. vm_compute. reflexivity. Qed.

(** ** Retrieval optimizer: diversity-aware selection *)

Section SelectionFacts.

Import QueryOptimizer.

Abbreviation score := ClauseMatch.similarity_score.

(** [sorted_desc] is a stable sort by descending score. *)
Lemma insert_desc_perm (x : ClauseMatch.t) (l : list ClauseMatch.t) :
  insert_desc x l ≡ₚ x :: l.
Proof.
  induction l as [|y l IH]; cbn; [done|].
  destruct (Qlt_bool _ _); [|done]. rewrite IH. apply Permutation_swap.
Qed.

Lemma sorted_desc_perm (l : list ClauseMatch.t) : sorted_desc l ≡ₚ l.
Proof.
  induction l as [|x l IH]; cbn; [done|].
  by rewrite insert_desc_perm, IH.
Qed.

Lemma sorted_desc_length (l : list ClauseMatch.t) : length (sorted_desc l) = length l.
Proof. apply Permutation_length, sorted_desc_perm. Qed.

Lemma insert_desc_sorted (x : ClauseMatch.t) (l : list ClauseMatch.t) :
  StronglySorted before l -> StronglySorted before (insert_desc x l).
Proof.
  induction 1 as [|y l Hl IH Hy]; cbn.
  - repeat constructor.
  - destruct (Qlt_bool (score x) (score y)) eqn:E.
    + apply Qlt_bool_iff in E. constructor; [done|].
      rewrite insert_desc_perm. constructor; [|done].
      unfold before. by apply Qlt_le_weak.
    + apply Qlt_bool_false_iff in E. constructor; [by constructor|].
      constructor; [done|].
      eapply Forall_impl; [exact Hy|]. intros z Hz. unfold before in *.
      by eapply Qle_trans.
Qed.

Lemma sorted_desc_sorted (l : list ClauseMatch.t) : StronglySorted before (sorted_desc l).
Proof.
  induction l as [|x l IH]; cbn; [constructor|]. by apply insert_desc_sorted.
Qed.

(** Stability: matches of equal score keep their input order. *)
Lemma insert_desc_stable (q : Q) (x : ClauseMatch.t) (l : list ClauseMatch.t) :
  filter (fun m => Qeq_bool (score m) q = true) (insert_desc x l)
  = filter (fun m => Qeq_bool (score m) q = true) (x :: l).
Proof.
  induction l as [|y l IH]; cbn; [done|].
  destruct (Qlt_bool (score x) (score y)) eqn:E; [|done].
  apply Qlt_bool_iff in E.
  rewrite (filter_cons _ y), IH, !filter_cons.
  destruct (decide (Qeq_bool (score x) q = true)) as [Hx|Hx];
    destruct (decide (Qeq_bool (score y) q = true)) as [Hy|Hy]; try done.
  apply Qeq_bool_iff in Hx, Hy. rewrite Hx, Hy in E. by apply Qlt_irrefl in E.
Qed.

Lemma sorted_desc_stable (q : Q) (l : list ClauseMatch.t) :
  filter (fun m => Qeq_bool (score m) q = true) (sorted_desc l)
  = filter (fun m => Qeq_bool (score m) q = true) l.
Proof.
  induction l as [|x l IH]; cbn [sorted_desc foldr]; [done|].
  fold (sorted_desc l). by rewrite insert_desc_stable, !filter_cons, IH.
Qed.

Lemma Qlt_bool_negb_Qle_bool (a b : Q) : Qlt_bool a b = negb (Qle_bool b a).
Proof.
  destruct (Qle_bool b a) eqn:E; cbn.
  - apply Qle_bool_iff in E. by apply Qlt_bool_false_iff.
  - apply Qlt_bool_iff. apply Qnot_le_lt. intros H. apply Qle_bool_iff in H. congruence.
Qed.

Lemma is_diverse_admissible (c : ClauseMatch.t) (selected : list ClauseMatch.t) :
  is_diverse c selected = admissible c selected.
Proof.
  induction selected as [|s selected IH]; cbn; [done|].
  rewrite Qlt_bool_negb_Qle_bool.
  change (_calculate_text_similarity (ClauseMatch.content c) (ClauseMatch.content s))
    with (jaccard (words c) (words s)).
  by destruct (Qle_bool _ _).
Qed.

Lemma greedy_diverse_full (selected candidates : list ClauseMatch.t) :
  (5 <= length selected)%nat -> greedy_diverse selected candidates = selected.
Proof.
  intros H. apply Nat.leb_le in H. destruct candidates; cbn [greedy_diverse]; by rewrite H.
Qed.

Lemma select_loop_greedy (selected rest : list ClauseMatch.t) :
  (length selected < 5)%nat -> select_loop selected rest = greedy_diverse selected rest.
Proof.
  revert selected. induction rest as [|c rest IH]; intros selected Hlen;
    apply Nat.leb_gt in Hlen as Hgo; cbn [greedy_diverse select_loop]; rewrite Hgo; [done|].
  rewrite is_diverse_admissible. destruct (admissible c selected).
  - destruct (5 <=? length (selected ++ [c]))%nat eqn:E.
    + apply Nat.leb_le in E. by rewrite greedy_diverse_full.
    + apply Nat.leb_gt in E. by apply IH.
  - rewrite Hgo. by apply IH.
Qed.

(** What the greedy pass returns: at most 5 matches (when it starts with
    fewer), beginning with those it started from. *)
Lemma greedy_diverse_length (selected candidates : list ClauseMatch.t) :
  (length selected <= 5)%nat -> (length (greedy_diverse selected candidates) <= 5)%nat.
Proof.
  revert selected. induction candidates as [|c cs IH]; intros selected H; cbn [greedy_diverse].
  - by destruct (5 <=? length selected)%nat.
  - destruct (5 <=? length selected)%nat eqn:E; [done|]. apply Nat.leb_gt in E.
    destruct (admissible c selected); apply IH; [|lia].
    rewrite length_app. cbn. lia.
Qed.

Lemma greedy_diverse_prefix (selected candidates : list ClauseMatch.t) :
  selected `prefix_of` greedy_diverse selected candidates.
Proof.
  revert selected. induction candidates as [|c cs IH]; intros selected; cbn [greedy_diverse].
  - by destruct (5 <=? length selected)%nat.
  - destruct (5 <=? length selected)%nat; [done|].
    destruct (admissible c selected); [|apply IH].
    etrans; [|apply IH]. by apply prefix_app_r.
Qed.

(** The selected matches stay in candidate order. *)
Lemma greedy_diverse_sublist (selected candidates : list ClauseMatch.t) :
  greedy_diverse selected candidates `sublist_of` selected ++ candidates.
Proof.
  revert selected. induction candidates as [|c cs IH]; intros selected; cbn [greedy_diverse].
  - rewrite app_nil_r. by destruct (5 <=? length selected)%nat.
  - destruct (5 <=? length selected)%nat; [by apply sublist_inserts_r|].
    destruct (admissible c selected).
    + specialize (IH (selected ++ [c])). by rewrite <- app_assoc in IH.
    + etrans; [apply IH|]. apply sublist_app; [done|]. by apply sublist_cons.
Qed.

Lemma pairwise_diverse_snoc (l : list ClauseMatch.t) (c : ClauseMatch.t) :
  pairwise_diverse l -> admissible c l = true -> pairwise_diverse (l ++ [c]).
Proof.
  intros Hl Hc i j a b Hij Ha Hb.
  apply lookup_lt_Some in Hb as Hj. rewrite length_app in Hj. cbn in Hj.
  destruct (decide (j < length l)%nat) as [Hjl|Hjl].
  - rewrite lookup_app_l in Ha, Hb by lia. exact (Hl i j a b Hij Ha Hb).
  - assert (j = length l) as -> by lia.
    rewrite lookup_app_l in Ha by lia.
    rewrite lookup_app_r, Nat.sub_diag in Hb by lia. injection Hb as <-.
    unfold admissible in Hc. rewrite forallb_forall in Hc.
    apply Qle_bool_iff, Hc. apply list_elem_of_In. by eapply list_elem_of_lookup_2.
Qed.

Lemma greedy_diverse_pairwise (selected candidates : list ClauseMatch.t) :
  pairwise_diverse selected -> pairwise_diverse (greedy_diverse selected candidates).
Proof.
  revert selected. induction candidates as [|c cs IH]; intros selected H; cbn [greedy_diverse].
  - by destruct (5 <=? length selected)%nat.
  - destruct (5 <=? length selected)%nat; [done|].
    destruct (admissible c selected) eqn:E; apply IH; [|done].
    by apply pairwise_diverse_snoc.
Qed.

Lemma admissible_single (c s : ClauseMatch.t) :
  admissible c [s] = negb (Qlt_bool (8 # 10) (jaccard (words c) (words s))).
Proof.
  unfold admissible. cbn. rewrite andb_true_r, Qlt_bool_negb_Qle_bool.
  by rewrite negb_involutive.
Qed.

Lemma admissible_near_duplicate (c s : ClauseMatch.t) :
  near_duplicate c s -> admissible c [s] = false.
Proof.
  intros H. rewrite admissible_single. apply Qlt_bool_iff in H. by rewrite H.
Qed.

Lemma admissible_distinct (c s : ClauseMatch.t) :
  ~ near_duplicate c s -> admissible c [s] = true.
Proof.
  intros H. rewrite admissible_single.
  destruct (Qlt_bool _ _) eqn:E; [|done]. by apply Qlt_bool_iff in E.
Qed.

(** C2.  A list of at most 3 matches is returned as it is.  A longer one is
    sorted by descending score; the result is the greedy diverse selection
    from the sorted list: it starts with the top-scored match, goes through
    the others in score order, takes a match exactly when its Jaccard
    similarity with every match selected so far is at most 0.8, and stops at
    5 selected matches.  With 5 matches of which the second to fourth are
    near-duplicates of the first and the fifth is not, it is the first and
    the fifth. *)
Theorem optimize_chunk_selection_spec (chunks : list ClauseMatch.t) (query : text) :
  ((length chunks <= 3)%nat -> optimize_chunk_selection chunks query = chunks)
  /\ ((3 < length chunks)%nat ->
      exists best rest,
        sorted_desc chunks = best :: rest
        /\ best :: rest ≡ₚ chunks
        /\ StronglySorted before (best :: rest)
        /\ optimize_chunk_selection chunks query = greedy_diverse [best] rest
        /\ head (optimize_chunk_selection chunks query) = Some best
        /\ (length (optimize_chunk_selection chunks query) <= 5)%nat
        /\ optimize_chunk_selection chunks query `sublist_of` best :: rest
        /\ pairwise_diverse (optimize_chunk_selection chunks query))
  /\ (forall m1 m2 m3 m4 m5,
        sorted_desc chunks = [m1; m2; m3; m4; m5] ->
        near_duplicate m2 m1 -> near_duplicate m3 m1 -> near_duplicate m4 m1 ->
        ~ near_duplicate m5 m1 ->
        optimize_chunk_selection chunks query = [m1; m5]).
Proof.
  assert (forall best rest, (3 < length chunks)%nat -> sorted_desc chunks = best :: rest ->
            optimize_chunk_selection chunks query = greedy_diverse [best] rest) as Hopt.
  { intros best rest Hlen Hs. unfold optimize_chunk_selection.
    apply Nat.leb_gt in Hlen. rewrite Hlen, Hs.
    apply select_loop_greedy. cbn. lia. }
  split; [|split].
  - intros H. unfold optimize_chunk_selection. apply Nat.leb_le in H. by rewrite H.
  - intros Hlen. destruct (sorted_desc chunks) as [|best rest] eqn:Hs.
    { apply (f_equal length) in Hs. rewrite sorted_desc_length in Hs. cbn in Hs. lia. }
    exists best, rest. rewrite (Hopt best rest Hlen eq_refl).
    clear Hopt. split; [done|]. split; [rewrite <- Hs; apply sorted_desc_perm|].
    split; [rewrite <- Hs; apply sorted_desc_sorted|]. split; [done|].
    split; [|split; [|split]].
    + destruct (greedy_diverse_prefix [best] rest) as [k ->]. done.
    + apply greedy_diverse_length. cbn. lia.
    + apply (greedy_diverse_sublist [best] rest).
    + apply greedy_diverse_pairwise. intros i j a b Hij Ha Hb.
      apply lookup_lt_Some in Hb. cbn in Hb. lia.
  - intros m1 m2 m3 m4 m5 Hs H2 H3 H4 H5.
    assert (3 < length chunks)%nat as Hlen.
    { rewrite <- sorted_desc_length, Hs. cbn. lia. }
    rewrite (Hopt _ _ Hlen Hs). cbn [greedy_diverse length Nat.leb].
    rewrite (admissible_near_duplicate _ _ H2), (admissible_near_duplicate _ _ H3),
      (admissible_near_duplicate _ _ H4), (admissible_distinct _ _ H5).
    reflexivity.
Qed.

End SelectionFacts.

Lemma optimize_chunk_selection_spec_witness :
  let m1 := ClauseMatch.mk (txt "The grace period is thirty days from the due date.")
              (9 # 10) ∅ (txt "Chunk a") in
  let m2 := ClauseMatch.mk (txt "the GRACE period is thirty days from the due date.")
              (8 # 10) ∅ (txt "Chunk b") in
  let m3 := ClauseMatch.mk (txt "The grace period is thirty days from the due date. Yes")
              (7 # 10) ∅ (txt "Chunk c") in
  let m4 := ClauseMatch.mk (txt "The  grace period is thirty days   from the due date.")
              (6 # 10) ∅ (txt "Chunk d") in
  let m5 := ClauseMatch.mk (txt "Claims must be filed within ninety days.")
              (5 # 10) ∅ (txt "Chunk e") in
  QueryOptimizer.optimize_chunk_selection [m3; m5; m1; m4; m2] (txt "grace period?")
  = [m1; m5].
Proof.
  intros m1 m2 m3 m4 m5.
  destruct (optimize_chunk_selection_spec [m3; m5; m1; m4; m2] (txt "grace period?"))
    as (_ & _ & Hscenario).
  apply (Hscenario m1 m2 m3 m4 m5).
  - reflexivity.
  - vm_compute. reflexivity.
  - vm_compute. reflexivity.
  - vm_compute. reflexivity.
  - vm_compute. discriminate.
Defined.

(** ** Regular expressions: what a match consumes *)

Section ReFacts.

Import Re.

(** With nothing left to match, the greedy star takes the whole run. *)
Lemma star_greedy_done (ic : bool) (c : ascii -> bool) (s : text) :
  star_greedy ic c (fun r => Some r) s = Some (PyStr.lstrip_by (cmatch ic c) s).
Proof.
  induction s as [|x s IH]; cbn; [done|].
  destruct (cmatch ic c x); [|done]. by rewrite IH.
Qed.

Lemma lstrip_by_length (p : ascii -> bool) (s : text) :
  (length (PyStr.lstrip_by p s) <= length s)%nat.
Proof.
  induction s as [|x s IH]; cbn; [done|]. destruct (p x); cbn; lia.
Qed.

(** What [lstrip] and [rstrip] take away. *)
Lemma lstrip_by_decomp (p : ascii -> bool) (s : text) :
  exists pre, s = pre ++ PyStr.lstrip_by p s
    /\ Forall (fun x => p x = true) pre
    /\ forall y, head (PyStr.lstrip_by p s) = Some y -> p y = false.
Proof.
  induction s as [|x s (pre & Hs & Hpre & Hhead)]; [by exists []|].
  cbn [PyStr.lstrip_by]. destruct (p x) eqn:E.
  - exists (x :: pre). split; [cbn; congruence|]. split; [by constructor|done].
  - exists []. split; [done|]. split; [constructor|]. by intros ? [= <-].
Qed.

Lemma rstrip_by_decomp (p : ascii -> bool) (s : text) :
  exists post, s = PyStr.rstrip_by p s ++ post
    /\ Forall (fun x => p x = true) post
    /\ forall y, last (PyStr.rstrip_by p s) = Some y -> p y = false.
Proof.
  unfold PyStr.rstrip_by.
  destruct (lstrip_by_decomp p (reverse s)) as (pre & Hs & Hpre & Hhead).
  exists (reverse pre). split; [|split].
  - rewrite <- reverse_app, <- Hs. by rewrite reverse_involutive.
  - by apply Forall_reverse.
  - intros y. rewrite last_reverse. apply Hhead.
Qed.

Lemma lstrip_by_id (p : ascii -> bool) (s : text) :
  (forall y, head s = Some y -> p y = false) -> PyStr.lstrip_by p s = s.
Proof. destruct s as [|x s]; [done|]. intros H. cbn. by rewrite (H x eq_refl). Qed.

Lemma rstrip_by_id (p : ascii -> bool) (s : text) :
  (forall y, last s = Some y -> p y = false) -> PyStr.rstrip_by p s = s.
Proof.
  intros H. unfold PyStr.rstrip_by. rewrite lstrip_by_id; [apply reverse_involutive|].
  intros y. rewrite head_reverse. apply H.
Qed.


Lemma lstrip_by_Forall (P : ascii -> Prop) (p : ascii -> bool) (s : text) :
  Forall P s -> Forall P (PyStr.lstrip_by p s).
Proof.
  destruct (lstrip_by_decomp p s) as (pre & Hs & _). rewrite Hs at 1.
  rewrite Forall_app. tauto.
Qed.

Lemma rstrip_by_Forall (P : ascii -> Prop) (p : ascii -> bool) (s : text) :
  Forall P s -> Forall P (PyStr.rstrip_by p s).
Proof.
  destruct (rstrip_by_decomp p s) as (post & Hs & _). rewrite Hs at 1.
  rewrite Forall_app. tauto.
Qed.

Lemma strip_by_Forall (P : ascii -> Prop) (p : ascii -> bool) (s : text) :
  Forall P s -> Forall P (PyStr.strip_by p s).
Proof. intros H. unfold PyStr.strip_by. by apply rstrip_by_Forall, lstrip_by_Forall. Qed.

(** A stripped text begins and ends outside the stripped class. *)
Lemma strip_by_ends (p : ascii -> bool) (s : text) :
  (forall y, head (PyStr.strip_by p s) = Some y -> p y = false)
  /\ (forall y, last (PyStr.strip_by p s) = Some y -> p y = false).
Proof.
  unfold PyStr.strip_by.
  destruct (lstrip_by_decomp p s) as (pre & _ & _ & Hhead).
  destruct (rstrip_by_decomp p (PyStr.lstrip_by p s)) as (post & Hs & Hpost & Hlast).
  split; [|done]. intros y Hy. apply Hhead. rewrite Hs, head_app, Hy. done.
Qed.

Lemma strip_by_id (p : ascii -> bool) (s : text) :
  (forall y, head s = Some y -> p y = false) ->
  (forall y, last s = Some y -> p y = false) ->
  PyStr.strip_by p s = s.
Proof.
  intros Hh Hl. unfold PyStr.strip_by. rewrite lstrip_by_id by done. by apply rstrip_by_id.
Qed.

(** What a match leaves is part of what it started from. *)
Lemma lit_here_length (ic : bool) (l s r : text) :
  lit_here ic l s = Some r -> length s = (length l + length r)%nat.
Proof.
  revert s. induction l as [|a l IH]; intros s H; cbn in H; [by injection H as ->|].
  destruct s as [|x s]; [done|]. destruct (cmatch ic (chr a) x); [|done].
  cbn. by rewrite (IH _ H).
Qed.

Lemma star_greedy_inv (ic : bool) (c : ascii -> bool) (k : text -> option text) (s r : text) :
  star_greedy ic c k s = Some r ->
  exists s', (length s' <= length s)%nat /\ k s' = Some r.
Proof.
  induction s as [|x s IH]; cbn; [by exists []|].
  destruct (cmatch ic c x); [|by exists (x :: s)].
  destruct (star_greedy ic c k s) as [r'|] eqn:E.
  - intros [= ->]. destruct (IH eq_refl) as (s' & Hlen & Hk). exists s'. split; [lia|done].
  - by exists (x :: s).
Qed.

Lemma star_lazy_inv (ic : bool) (c : ascii -> bool) (k : text -> option text) (s r : text) :
  star_lazy ic c k s = Some r ->
  exists s', (length s' <= length s)%nat /\ k s' = Some r.
Proof.
  induction s as [|x s IH]; cbn.
  - destruct (k []) eqn:E; [|done]. intros [= ->]. by exists [].
  - destruct (k (x :: s)) eqn:E; [intros [= ->]; by exists (x :: s)|].
    destruct (cmatch ic c x); [|done].
    intros H. destruct (IH H) as (s' & Hlen & Hk). exists s'. split; [lia|done].
Qed.

Lemma alt_lit_inv (ic : bool) (ls : list text) (k : text -> option text) (s r : text) :
  alt_lit ic ls k s = Some r ->
  exists l s', l ∈ ls /\ lit_here ic l s = Some s' /\ k s' = Some r.
Proof.
  induction ls as [|l ls IH]; cbn; [done|].
  destruct (lit_here ic l s) as [s'|] eqn:El.
  - destruct (k s') eqn:Ek.
    + intros [= ->]. exists l, s'. split; [by left|done].
    + intros H. destruct (IH H) as (l' & s'' & Hin & H'). exists l', s''. split; [by right|done].
  - intros H. destruct (IH H) as (l' & s'' & Hin & H'). exists l', s''. split; [by right|done].
Qed.

Lemma match_here_length (ic : bool) (p : list atom) (s r : text) :
  match_here ic p s = Some r ->
  (length r + (if existsb mandatory p then 1 else 0) <= length s)%nat.
Proof.
  revert s. induction p as [|a p IH]; intros s H; [injection H as ->; cbn; lia|].
  cbn [existsb]. destruct a as [c|l|c|c|c|c|ls]; cbn [match_here mandatory orb] in *.
  - destruct s as [|x s]; [done|]. destruct (cmatch ic c x); [|done].
    apply IH in H. cbn. destruct (existsb mandatory p); lia.
  - destruct (lit_here ic l s) as [s'|] eqn:El; [|done].
    apply lit_here_length in El. apply IH in H. rewrite El.
    destruct l; cbn; destruct (existsb mandatory p); cbn; lia.
  - destruct s as [|x s]; [by apply IH|].
    destruct (cmatch ic c x); [|by apply IH].
    destruct (match_here ic p s) as [r'|] eqn:E; [|by apply IH].
    injection H as ->. apply IH in E. cbn. destruct (existsb mandatory p); lia.
  - apply star_greedy_inv in H as (s' & Hlen & H). apply IH in H.
    destruct (existsb mandatory p); lia.
  - destruct s as [|x s]; [done|]. destruct (cmatch ic c x); [|done].
    apply star_greedy_inv in H as (s' & Hlen & H). apply IH in H. cbn.
    destruct (existsb mandatory p); lia.
  - apply star_lazy_inv in H as (s' & Hlen & H). apply IH in H.
    destruct (existsb mandatory p); lia.
  - apply alt_lit_inv in H as (l & s' & Hin & El & H).
    apply lit_here_length in El. apply IH in H. rewrite El.
    destruct (forallb _ ls) eqn:Els.
    + rewrite forallb_forall in Els. apply list_elem_of_In, Els in Hin.
      destruct l; [done|]. cbn. destruct (existsb mandatory p); lia.
    + cbn. destruct (existsb mandatory p); lia.
Qed.

(** A pattern with a mandatory atom never matches the empty string. *)
Lemma match_here_consumes (ic : bool) (p : list atom) (s r : text) :
  existsb mandatory p = true -> match_here ic p s = Some r ->
  (length r < length s)%nat.
Proof. intros Hp H. apply match_here_length in H. rewrite Hp in H. lia. Qed.

(** [\s+] replaced by one blank: the only white space left is the blank. *)
Lemma sub_spaces_chars (skip : nat) (s : text) :
  Forall (fun c => PyStr.isspace c = true -> c = " "%char)
    (sub_scan false [Plus space] (txt " ") skip s).
Proof.
  revert skip. induction s as [|x s IH]; intros skip; cbn [sub_scan]; [constructor|].
  destruct skip as [|skip]; [|apply IH].
  cbn [match_here cmatch]. destruct (space x) eqn:Hx.
  - rewrite star_greedy_done.
    pose proof (lstrip_by_length (cmatch false space) s) as Hlen.
    replace (length (PyStr.lstrip_by (cmatch false space) s) <? length (x :: s))%nat
      with true by (symmetry; apply Nat.ltb_lt; cbn; lia).
    constructor; [done|apply IH].
  - constructor; [|apply IH]. unfold space in Hx. congruence.
Qed.

End ReFacts.

(** ** Chunker *)

Section ChunkerFacts.

Import DocumentProcessor.

Variable uuid4 : nat -> text.
Variable chunk_size chunk_overlap : Z.

(** The normalized text has no white space but the blank; in particular no
    newline. *)
Lemma normalize_chars (raw : text) :
  Forall (fun c => PyStr.isspace c = true -> c = " "%char) (normalize raw).
Proof.
  unfold normalize, PyStr.strip. apply strip_by_Forall, sub_spaces_chars.
Qed.

Lemma normalize_no_newline (raw : text) : "010"%char ∉ normalize raw.
Proof.
  intros H. pose proof (normalize_chars raw) as Hall.
  rewrite Forall_forall in Hall. by specialize (Hall _ H eq_refl).
Qed.

Lemma rindex_absent (c : ascii) (s : text) : c ∉ s -> PyStr.rindex c s = None.
Proof.
  induction s as [|x s IH]; intros H; cbn; [done|].
  rewrite IH by (intros ?; apply H; by right).
  destruct (Ascii.eqb x c) eqn:E; [|done].
  apply Ascii.eqb_eq in E. subst. exfalso. apply H. by left.
Qed.

Lemma rfind_absent (c : ascii) (s : text) (lo hi : Z) :
  c ∉ s -> PyStr.rfind s c lo hi = -1.
Proof.
  intros H. unfold PyStr.rfind. destruct (_ <? 1); [done|].
  rewrite rindex_absent; [done|].
  intros Hin. apply H.
  eapply elem_of_sublist; [exact Hin|].
  etrans; [apply sublist_take|apply sublist_drop].
Qed.

Lemma chunk_step_start (t : text) (md : gmap text value) (st : loop_state) :
  start (chunk_step uuid4 chunk_size chunk_overlap t md st)
  = Z.max (start st + 1) (window_end chunk_size t (start st) - chunk_overlap).
Proof. unfold chunk_step. by destruct (bool_decide _). Qed.

Lemma chunk_step_advances (t : text) (md : gmap text value) (st : loop_state) :
  start st < start (chunk_step uuid4 chunk_size chunk_overlap t md st).
Proof. rewrite chunk_step_start. lia. Qed.

(** The loop is over after at most [len(text) - start] further iterations. *)
Lemma chunk_loop_finishes (fuel : nat) (t : text) (md : gmap text value) (st : loop_state) :
  (Z.to_nat (PyStr.len t - start st) < fuel)%nat ->
  exists st', chunk_loop uuid4 chunk_size chunk_overlap fuel t md st = Some st'
              /\ PyStr.len t <= start st'.
Proof.
  revert st. induction fuel as [|fuel IH]; intros st Hfuel; [lia|].
  cbn [chunk_loop]. destruct (start st <? PyStr.len t) eqn:E.
  - apply Z.ltb_lt in E. apply IH.
    pose proof (chunk_step_advances t md st). lia.
  - apply Z.ltb_ge in E. by exists st.
Qed.

(** More fuel does not change the outcome. *)
Lemma chunk_loop_fuel_mono (fuel fuel' : nat) (t : text) (md : gmap text value)
    (st st' : loop_state) :
  chunk_loop uuid4 chunk_size chunk_overlap fuel t md st = Some st' ->
  (fuel <= fuel')%nat ->
  chunk_loop uuid4 chunk_size chunk_overlap fuel' t md st = Some st'.
Proof.
  revert fuel' st. induction fuel as [|fuel IH]; intros fuel' st H Hle; [done|].
  destruct fuel' as [|fuel']; [lia|]. cbn [chunk_loop] in *.
  destruct (start st <? PyStr.len t); [|done]. apply IH; [done|lia].
Qed.

(** C9.  Whatever [chunk_size] and [chunk_overlap] are, an iteration of the
    chunking loop strictly increases [start]; hence the loop is over after at
    most [len(text) - start] further iterations, and [_chunk_text] returns. *)
Theorem chunking_terminates :
  (forall t md st,
     start st < start (chunk_step uuid4 chunk_size chunk_overlap t md st)
     /\ start (chunk_step uuid4 chunk_size chunk_overlap t md st)
        = Z.max (start st + 1) (window_end chunk_size t (start st) - chunk_overlap))
  /\ (forall t md st extra,
        exists st',
          chunk_loop uuid4 chunk_size chunk_overlap
            (S (Z.to_nat (PyStr.len t - start st)) + extra) t md st = Some st'
          /\ PyStr.len t <= start st')
  /\ (forall raw md k,
        exists chunks k',
          _chunk_text uuid4 chunk_size chunk_overlap raw md k = Some (chunks, k')).
Proof.
  split; [|split].
  - intros t md st. split; [apply chunk_step_advances|apply chunk_step_start].
  - intros t md st extra. apply chunk_loop_finishes. lia.
  - intros raw md k. unfold _chunk_text.
    destruct (PyStr.len (normalize raw) <=? chunk_size); [by eexists _, _|].
    destruct (chunk_loop_finishes (S (length (normalize raw))) (normalize raw) md
                (mk_loop 0 0 [] k)) as (st' & -> & _).
    { cbn [start]. unfold PyStr.len. lia. }
    by eexists _, _.
Qed.

(** C7.  When the normalized text is no longer than [chunk_size], the single
    chunk carries the metadata mapping it was given, as it is: no
    [chunk_number] key is added (the chunks cut by the loop get one, see
    [loop_chunks_numbered]). *)
Theorem short_text_chunk_lacks_chunk_number (raw : text) (md : gmap text value) (k : nat) :
  PyStr.len (normalize raw) <= chunk_size ->
  md !! txt "chunk_number" = None ->
  exists chunk,
    _chunk_text uuid4 chunk_size chunk_overlap raw md k = Some ([chunk], S k)
    /\ DocumentChunk.content chunk = normalize raw
    /\ DocumentChunk.chunk_id chunk = uuid4 k
    /\ DocumentChunk.page_number chunk = get_page_number md
    /\ DocumentChunk.metadata chunk = md
    /\ DocumentChunk.metadata chunk !! txt "chunk_number" = None.
Proof.
  intros Hlen Hmd. unfold _chunk_text. apply Z.leb_le in Hlen. rewrite Hlen.
  eexists. split; [reflexivity|]. by cbn.
Qed.

(** *** The chunks cut by the loop *)

Lemma numbered_mono (md : gmap text value) (b b' : Z) (c : DocumentChunk.t) :
  b <= b' -> numbered md b c -> numbered md b' c.
Proof. intros Hb (n & Hn & H). exists n. split; [lia|done]. Qed.

Lemma chunk_step_inv (t : text) (md : gmap text value) (k : nat) (st : loop_state) :
  loop_inv uuid4 md k st -> loop_inv uuid4 md k (chunk_step uuid4 chunk_size chunk_overlap t md st).
Proof.
  intros (Hnum & Hall & Hk & Hids). unfold chunk_step, loop_inv.
  destruct (bool_decide _); cbn [chunk_num chunks drawn generate_chunk_id].
  - split; [lia|]. split; [|done].
    eapply Forall_impl; [exact Hall|]. intros c. apply numbered_mono. lia.
  - split; [lia|]. split; [|split; [lia|]].
    + apply Forall_app. split.
      * eapply Forall_impl; [exact Hall|]. intros c. apply numbered_mono. lia.
      * constructor; [|constructor]. exists (chunk_num st). split; [lia|done].
    + rewrite map_app, Hids. cbn [map DocumentChunk.chunk_id].
      replace (S (drawn st) - k)%nat with ((drawn st - k) + 1)%nat by lia.
      rewrite seq_app, map_app. cbn. do 3 f_equal. lia.
Qed.

Lemma chunk_loop_inv (fuel : nat) (t : text) (md : gmap text value) (k : nat)
    (st st' : loop_state) :
  chunk_loop uuid4 chunk_size chunk_overlap fuel t md st = Some st' ->
  loop_inv uuid4 md k st -> loop_inv uuid4 md k st'.
Proof.
  revert st. induction fuel as [|fuel IH]; intros st H Hinv; [done|].
  cbn [chunk_loop] in H. destruct (start st <? PyStr.len t).
  - eapply IH; [exact H|]. by apply chunk_step_inv.
  - by injection H as <-.
Qed.

(** The long-text path: every chunk has its [chunk_number] and page number,
    and the identifiers are consecutive draws of the generator, so pairwise
    distinct when the generator does not repeat itself. *)
Lemma loop_chunks_numbered (raw : text) (md : gmap text value) (k k' : nat)
    (cs : list DocumentChunk.t) :
  chunk_size < PyStr.len (normalize raw) ->
  _chunk_text uuid4 chunk_size chunk_overlap raw md k = Some (cs, k') ->
  Forall (fun c => exists n, DocumentChunk.metadata c = <[txt "chunk_number" := VInt n]> md
                             /\ DocumentChunk.page_number c = get_page_number md) cs
  /\ map DocumentChunk.chunk_id cs = map uuid4 (seq k (k' - k))
  /\ (Inj eq eq uuid4 -> NoDup (map DocumentChunk.chunk_id cs)).
Proof.
  intros Hlen H. unfold _chunk_text in H. apply Z.leb_gt in Hlen. rewrite Hlen in H.
  destruct (chunk_loop _ _ _ _ _ _ _) as [st'|] eqn:Hloop; [|done].
  injection H as <- <-.
  apply (chunk_loop_inv _ _ _ k) in Hloop as (_ & Hall & Hk & Hids).
  - split; [|split; [done|]].
    + eapply Forall_impl; [exact Hall|]. intros c (n & _ & Hc). by exists n.
    + intros Hinj. rewrite Hids. apply NoDup_fmap_2; [done|]. apply NoDup_seq.
  - unfold loop_inv. cbn. rewrite Nat.sub_diag. split; [lia|]. split; [constructor|done].
Qed.

End ChunkerFacts.

Lemma short_text_chunk_lacks_chunk_number_witness :
  let uuid4 := fun k : nat => txt "id-" ++ txt (pretty k) in
  let md : gmap text value := {[ txt "document_type" := VStr (txt "text") ]} in
  exists chunk,
    DocumentProcessor._chunk_text uuid4 1000 200 (txt "The grace period is 30 days.") md 0
    = Some ([chunk], 1%nat)
    /\ DocumentChunk.metadata chunk = md
    /\ DocumentChunk.metadata chunk !! txt "chunk_number" = None.
Proof.
  intros uuid4 md.
  destruct (short_text_chunk_lacks_chunk_number uuid4 1000 200
              (txt "The grace period is 30 days.") md 0)
    as (chunk & Hrun & _ & _ & _ & Hmd & Hnone).
  - vm_compute. discriminate.
  - reflexivity.
  - by exists chunk.
Defined.

(** The same text one character over the window: the first chunk cut by the
    loop has its [chunk_number]. *)
Example long_text_first_chunk_numbered :
  let uuid4 := fun k : nat => txt "id-" ++ txt (pretty k) in
  let md : gmap text value := {[ txt "document_type" := VStr (txt "text") ]} in
  ((fun r => map (fun c => DocumentChunk.metadata c !! txt "chunk_number") r.1)
     <$> DocumentProcessor._chunk_text uuid4 27 5 (txt "The grace period is 30 days.") md 0)
  = Some [Some (VInt 0); Some (VInt 1)].
Proof. vm_compute. reflexivity. Qed.

(** C8.  The window end is trimmed to the last full stop after the window
    start, when there is one; it is never trimmed to a paragraph break: the
    text the loop works on is the normalized text, in which every newline has
    become a blank, so the search for the newline finds nothing.  On
    [two_paragraphs] with windows of 20 characters, the first window holds the
    paragraph break of the input at index 15 and no full stop, and the first
    chunk ends at index 20, inside a word, not at the break. *)
Theorem paragraph_break_never_trims :
  (forall (chunk_size : Z) (raw : text) (position : nat),
     let t := DocumentProcessor.normalize raw in
     let start := Z.of_nat position in
     let end_ := start + chunk_size in
     PyStr.rfind t "010" start end_ = -1
     /\ DocumentProcessor.window_end chunk_size t start
        = if end_ <? PyStr.len t
          then if start <? PyStr.rfind t "." start end_
               then PyStr.rfind t "." start end_ + 1
               else end_
          else end_)
  /\ two_paragraphs !! 15%nat = Some "010"%char
  /\ ("."%char ∉ two_paragraphs)
  /\ DocumentProcessor.window_end 20 (DocumentProcessor.normalize two_paragraphs) 0 = 20
  /\ ((fun r => map DocumentChunk.content r.1)
        <$> DocumentProcessor._chunk_text (fun _ => txt "id") 20 0 two_paragraphs ∅ 0)
     = Some [txt "First paragraph Seco"; txt "nd paragraph continu"; txt "es here"].
Proof.
  split; [|split; [|split; [|split]]].
  - intros chunk_size raw position t start end_.
    assert (PyStr.rfind t "010" start end_ = -1) as Hnl
      by apply rfind_absent, normalize_no_newline.
    split; [done|]. unfold DocumentProcessor.window_end. fold end_. rewrite Hnl.
    destruct (end_ <? PyStr.len t); [|done].
    destruct (start <? PyStr.rfind t "." start end_); [done|].
    by replace (start <? -1) with false by (symmetry; apply Z.ltb_ge; lia).
  - reflexivity.
  - intros H. apply list_elem_of_In in H. vm_compute in H. intuition discriminate.
  - vm_compute. reflexivity.
  - vm_compute. reflexivity.
Qed.

(** The part of the boundary rule that holds: with a full stop at index 3 and
    the paragraph break of the input at index 14, both inside the first
    window of 20 characters, the first chunk ends after the full stop. *)
Example sentence_break_preferred :
  let raw := txt "One. Two three" ++ ["010"%char] ++ txt "four five six seven" in
  DocumentProcessor.window_end 20 (DocumentProcessor.normalize raw) 0 = 4
  /\ head <$> ((fun r => map DocumentChunk.content r.1)
                 <$> DocumentProcessor._chunk_text (fun _ => txt "id") 20 0 raw ∅ 0)
     = Some (Some (txt "One.")).
Proof. split; vm_compute; reflexivity. Qed.

(** ** Answer generator: the cleaning pass *)

(** *** Substitution where nothing matches, and of runs of one class *)

Section SubFacts.

Import Re.



Lemma run_cons (c : ascii -> bool) (x : ascii) (s : text) :
  run c (x :: s) = if c x then S (run c s) else O.
Proof.
  unfold run. cbn. destruct (c x); cbn; [|lia].
  pose proof (lstrip_by_length c s). lia.
Qed.

(** [re.sub(c+, r, s)] is [squeeze]. *)
Lemma sub_scan_squeeze (c : ascii -> bool) (r : ascii) (s : text) :
  sub_scan false [Plus c] [r] O s = squeeze c r false s
  /\ sub_scan false [Plus c] [r] (run c s) s = squeeze c r true s.
Proof.
  induction s as [|x s [IH0 IHrun]]; [done|].
  assert (sub_scan false [Plus c] [r] O (x :: s) = squeeze c r false (x :: s)) as H0.
  { cbn [sub_scan match_here cmatch squeeze]. destruct (c x) eqn:Hx.
    - rewrite star_greedy_done.
      pose proof (lstrip_by_length (cmatch false c) s) as Hlen.
      replace (length (PyStr.lstrip_by (cmatch false c) s) <? length (x :: s))%nat
        with true by (symmetry; apply Nat.ltb_lt; cbn; lia).
      cbn [app]. f_equal. exact IHrun.
    - by rewrite IH0. }
  split; [exact H0|].
  rewrite run_cons. destruct (c x) eqn:Hx.
  - cbn [sub_scan squeeze]. by rewrite Hx.
  - rewrite H0. cbn [squeeze]. by rewrite Hx.
Qed.

Lemma sub_plus_squeeze (c : ascii -> bool) (r : ascii) (s : text) :
  sub false [Plus c] [r] s = squeeze c r false s.
Proof. apply sub_scan_squeeze. Qed.

Lemma no_adj_cons (c : ascii -> bool) (x : ascii) (s : text) :
  no_adj c (x :: s) = true
  <-> (forall y, head s = Some y -> c x && c y = false) /\ no_adj c s = true.
Proof.
  cbn [no_adj]. rewrite andb_true_iff. destruct s as [|y s]; cbn [head].
  - split; [intros [_ H]; split; [done|exact H]|intros [_ H]; split; [done|exact H]].
  - rewrite negb_true_iff. split.
    + intros [H1 H2]. split; [|done]. intros ? [= <-]. done.
    + intros [H1 H2]. split; [by apply H1|done].
Qed.

Lemma no_adj_app (c : ascii -> bool) (l1 l2 : text) :
  no_adj c (l1 ++ l2) = true
  <-> no_adj c l1 = true /\ no_adj c l2 = true
      /\ (forall x y, last l1 = Some x -> head l2 = Some y -> c x && c y = false).
Proof.
  induction l1 as [|x l1 IH].
  - cbn [app]. split; [intros H; repeat split; [done|done]|tauto].
  - change ((x :: l1) ++ l2) with (x :: (l1 ++ l2)).
    rewrite !no_adj_cons, IH. destruct l1 as [|z l1].
    + cbn [app head last]. split.
      * intros (H1 & _ & H2 & _). repeat split; try done.
        intros ? y [= <-] Hy. by apply H1.
      * intros ((_ & _) & H2 & H3). repeat split; try done.
        intros y Hy. by apply H3.
    + change (last (x :: z :: l1)) with (last (z :: l1)).
      change (head ((z :: l1) ++ l2)) with (Some z). cbn [head]. tauto.
Qed.

(** [squeeze] leaves alone a text whose runs of [c] are single [r]s. *)
Lemma squeeze_fixed (c : ascii -> bool) (r : ascii) (in_run : bool) (s : text) :
  Forall (fun x => c x = true -> x = r) s ->
  no_adj c s = true ->
  (in_run = true -> forall y, head s = Some y -> c y = false) ->
  squeeze c r in_run s = s.
Proof.
  intros Hall. revert in_run. induction Hall as [|x s Hx Hall IH]; intros in_run Hadj Hrun; [done|].
  apply no_adj_cons in Hadj as [Hhead Hadj]. cbn [squeeze].
  destruct (c x) eqn:Ecx.
  - destruct in_run; [by rewrite (Hrun eq_refl x eq_refl) in Ecx|].
    rewrite Hx by done. f_equal. apply IH; [done|].
    intros _ y Hy. exact (Hhead y Hy).
  - f_equal. apply IH; [done|]. done.
Qed.

Lemma squeeze_head (c : ascii -> bool) (r : ascii) (s : text) :
  head (squeeze c r false s)
  = (fun y => if c y then r else y) <$> head s.
Proof. destruct s as [|y s]; cbn; [done|]. by destruct (c y). Qed.

Lemma squeeze_head_in_run (c : ascii -> bool) (r : ascii) (s : text) (y : ascii) :
  head (squeeze c r true s) = Some y -> c y = false.
Proof.
  induction s as [|x s IH]; cbn [squeeze]; [done|].
  destruct (c x) eqn:E; [done|]. by intros [= <-].
Qed.

(** Its result has single [r]s for the runs of [c]. *)
Lemma squeeze_shape (c : ascii -> bool) (r : ascii) (in_run : bool) (s : text) :
  c r = true ->
  Forall (fun x => c x = true -> x = r) (squeeze c r in_run s)
  /\ no_adj c (squeeze c r in_run s) = true.
Proof.
  intros Hr. revert in_run. induction s as [|x s IH]; intros in_run; [done|].
  cbn [squeeze]. destruct (c x) eqn:E.
  - destruct in_run; [apply IH|].
    destruct (IH true) as [H1 H2]. split; [by constructor|].
    apply no_adj_cons. split; [|done].
    intros y Hy. apply squeeze_head_in_run in Hy. rewrite Hy. apply andb_false_r.
  - destruct (IH false) as [H1 H2]. split; [constructor; [congruence|done]|].
    apply no_adj_cons. split; [|done]. intros y _. by rewrite E.
Qed.

Lemma squeeze_Forall (P : ascii -> Prop) (c : ascii -> bool) (r : ascii) (in_run : bool)
    (s : text) :
  P r -> Forall P s -> Forall P (squeeze c r in_run s).
Proof.
  intros Hr Hall. revert in_run. induction Hall as [|x s Hx Hall IH]; intros in_run; [done|].
  cbn [squeeze]. destruct (c x); [destruct in_run|]; try constructor; auto.
Qed.

(** It creates no neighbours of another class [d] that [r] is not in. *)
Lemma squeeze_no_adj_other (c d : ascii -> bool) (r : ascii) (in_run : bool) (s : text) :
  d r = false ->
  no_adj d s = true -> no_adj d (squeeze c r in_run s) = true.
Proof.
  intros Hr. revert in_run. induction s as [|x s IH]; intros in_run Hadj; [done|].
  apply no_adj_cons in Hadj as [Hhead Hadj]. cbn [squeeze].
  destruct (c x) eqn:E.
  - destruct in_run; [by apply IH|].
    apply no_adj_cons. split; [|by apply IH]. intros y _. by rewrite Hr.
  - apply no_adj_cons. split; [|by apply IH].
    intros y Hy. rewrite squeeze_head in Hy.
    destruct (head s) as [z|] eqn:Hz; [|done]. cbn in Hy. injection Hy as <-.
    destruct (c z); [by rewrite Hr, andb_false_r|by apply Hhead].
Qed.

End SubFacts.

(** Every pattern the services substitute has a mandatory atom. *)
Example patterns_consume :
  forallb (existsb Re.mandatory)
    (LLMService.verbose_patterns ++ LLMService.chunk_patterns
     ++ [LLMService.bullet_marker; LLMService.number_marker; LLMService.as_per_section;
         LLMService.under_section; [Re.Plus Re.space]; [Re.Plus (Re.chr ".")]])
  = true.
Proof. reflexivity. Qed.

(** *** The final normalization and its fixed points *)

Section CleanFacts.

Import Re LLMService.

Ltac each_char c :=
  destruct c as [[] [] [] [] [] [] [] []]; vm_compute; try done; auto.

(** The upper-case form of a character that is neither white space nor a
    full stop or comma: [SS], or one character of the same kind that is its
    own upper-case form. *)
Lemma upper_one (c : ascii) :
  PyStr.isspace c = false -> PyStr.char_in (txt " .,") c = false ->
  PyStr.upper [c] = ["S"; "S"]%char
  \/ (PyStr.upper [c] = [PyStr.upper_char c]
      /\ PyStr.isspace (PyStr.upper_char c) = false
      /\ PyStr.char_in (txt " .,") (PyStr.upper_char c) = false
      /\ PyStr.upper [PyStr.upper_char c] = [PyStr.upper_char c]).
Proof.
  destruct c as [[] [] [] [] [] [] [] []]; vm_compute;
    first [discriminate | intros _ **; discriminate
          | intros _ _; left; reflexivity
          | intros _ _; right; repeat split; reflexivity].
Qed.

Lemma isupper_upper (c : ascii) : PyStr.isupper c = true -> PyStr.upper [c] = [c].
Proof. each_char c. Qed.

Lemma blank_or_stop (c : ascii) :
  PyStr.char_in (txt " .,") c = false -> c <> " "%char /\ chr "." c = false.
Proof. each_char c. Qed.

Lemma blanks_single_app (l1 l2 : text) :
  blanks_single (l1 ++ l2) -> blanks_single l1 /\ blanks_single l2.
Proof.
  unfold blanks_single. rewrite Forall_app, no_adj_app. tauto.
Qed.

Lemma strip_by_blanks_single (p : ascii -> bool) (s : text) :
  blanks_single s -> blanks_single (PyStr.strip_by p s).
Proof.
  unfold PyStr.strip_by. intros H.
  destruct (lstrip_by_decomp p s) as (pre & Hs & _). rewrite Hs in H.
  apply blanks_single_app in H as [_ H].
  destruct (rstrip_by_decomp p (PyStr.lstrip_by p s)) as (post & Hs' & _). rewrite Hs' in H.
  by apply blanks_single_app in H as [H _].
Qed.

Lemma strip_by_no_adj (c p : ascii -> bool) (s : text) :
  no_adj c s = true -> no_adj c (PyStr.strip_by p s) = true.
Proof.
  unfold PyStr.strip_by. intros H.
  destruct (lstrip_by_decomp p s) as (pre & Hs & _). rewrite Hs in H.
  apply no_adj_app in H as (_ & H & _).
  destruct (rstrip_by_decomp p (PyStr.lstrip_by p s)) as (post & Hs' & _). rewrite Hs' in H.
  by apply no_adj_app in H as (H & _).
Qed.

Lemma capitalize_core (t : text) :
  blanks_single t -> no_adj (chr ".") t = true ->
  (forall c, head t = Some c -> PyStr.char_in (txt " .,") c = false) ->
  (forall c, last t = Some c -> PyStr.char_in (txt " .,") c = false) ->
  t = [] \/ core (capitalize t).
Proof.
  intros [Hall Hadj] Hdots Hhead Hlast. destruct t as [|c t]; [by left|]. right.
  specialize (Hhead c eq_refl).
  apply Forall_cons in Hall as [Hc Hall].
  apply no_adj_cons in Hadj as [Hadj1 Hadj], Hdots as [Hdots1 Hdots].
  assert (PyStr.isspace c = false) as Hspc.
  { destruct (PyStr.isspace c) eqn:E; [|done]. rewrite (Hc eq_refl) in Hhead. done. }
  cbn [capitalize]. destruct (PyStr.isupper c) eqn:Eup.
  - split; [done|]. split; [split; [by constructor|by apply no_adj_cons]|].
    split; [by apply no_adj_cons|]. split; [|done].
    intros ? [= <-]. split; [done|by apply isupper_upper].
  - destruct (upper_one c Hspc Hhead) as [->|(-> & Hsp & Htrim & Hup)].
    2: set (u := PyStr.upper_char c) in *.
    + cbn [app]. split; [done|]. split; [split|].
      * by repeat constructor.
      * apply no_adj_cons. split; [by intros y [= <-]|].
        apply no_adj_cons. split; [by intros y _|done].
      * split.
        { apply no_adj_cons. split; [by intros y [= <-]|].
          apply no_adj_cons. split; [by intros y _|done]. }
        split; [by intros ? [= <-]|].
        intros x Hx. destruct t as [|z t]; [by injection Hx as <-|].
        apply Hlast. by rewrite !last_cons_cons in *.
    + destruct (blank_or_stop _ Htrim) as [_ Hstop]. cbn [app].
      split; [done|]. split; [split|].
      * constructor; [congruence|done].
      * apply no_adj_cons. split; [|done]. intros y _. by rewrite Hsp.
      * split; [apply no_adj_cons; split; [|done]; intros y _; by rewrite Hstop|].
        split; [by intros ? [= <-]|].
        intros x Hx. destruct t as [|z t]; [by injection Hx as <-|].
        apply Hlast. by rewrite last_cons_cons in *.
Qed.

(** The pass ends in the empty text or in a [core] with its punctuation. *)
Lemma finish_shape (t : text) : finish t = [] \/ exists y, core y /\ finish t = terminate y.
Proof.
  unfold finish. change (txt " ") with [" "%char]. change (txt ".") with ["."%char].
  rewrite !sub_plus_squeeze.
  set (t2 := PyStr.strip _). set (t3 := squeeze _ _ _ t2). set (t4 := PyStr.strip_chars _ t3).
  assert (blanks_single t2) as H2.
  { apply strip_by_blanks_single. by apply squeeze_shape. }
  assert (blanks_single t3 /\ no_adj (chr ".") t3 = true) as [H3 H3'].
  { destruct H2 as [Hall Hadj]. split; [split|].
    - by apply squeeze_Forall.
    - by apply squeeze_no_adj_other.
    - by apply squeeze_shape. }
  destruct (strip_by_ends (PyStr.char_in (txt " .,")) t3) as [Hhead Hlast].
  destruct (capitalize_core t4) as [->|Hcore]; try done.
  - by apply strip_by_blanks_single.
  - by apply strip_by_no_adj.
  - by left.
  - right. by eexists.
Qed.

Lemma terminate_cases (y : text) :
  y <> [] ->
  (terminate y = y /\ exists c, last y = Some c /\ PyStr.char_in (txt ".!?") c = true)
  \/ (terminate y = y ++ ["."%char]
      /\ forall c, last y = Some c -> PyStr.char_in (txt ".!?") c = false).
Proof.
  intros Hy. unfold terminate, PyStr.ends_with_any. destruct y as [|x y]; [done|].
  destruct (last (x :: y)) as [c|] eqn:E; [|by apply last_None in E].
  destruct (PyStr.char_in (txt ".!?") c) eqn:Ec.
  - left. split; [done|]. by exists c.
  - right. split; [done|]. by intros ? [= <-].
Qed.


Lemma core_blanks_single (y : text) : core y -> blanks_single (terminate y).
Proof.
  intros (Hne & [Hall Hadj] & _).
  destruct (terminate_cases y Hne) as [[-> _]|[-> _]]; [done|]. split.
  - apply Forall_app. split; [done|]. by repeat constructor.
  - apply no_adj_app. repeat split; try done. intros x z _ [= <-]. apply andb_false_r.
Qed.

(** What is left is empty or ends with [.], [!] or [?]. *)
Lemma terminate_ends (t : text) :
  terminate t = [] \/ PyStr.ends_with_any (txt ".!?") (terminate t) = true.
Proof.
  destruct t as [|x t]; [by left|]. right. unfold terminate.
  destruct (PyStr.ends_with_any _ (x :: t)) eqn:E; [done|].
  unfold PyStr.ends_with_any. change (txt ".") with ["."%char]. by rewrite last_snoc.
Qed.

Lemma clean_finish_removals (t : text) :
  _clean_chunk_references t = finish (removals t).
Proof. reflexivity. Qed.




End CleanFacts.



(** A second way to the same failure: a verbose opening that only comes to
    the front once another one has been removed. *)
Example clean_not_idempotent_opening :
  LLMService._clean_chunk_references
    (txt "According to the document, based on the provided document context, fees apply")
  = txt "Based on the provided document context, fees apply."
  /\ LLMService._clean_chunk_references
       (txt "Based on the provided document context, fees apply.")
     = txt "Fees apply.".
Proof. split; vm_compute; reflexivity. Qed.

(** ** Answer generator: [generate_answer] *)

Section GenerateFacts.

Variable World : Type.
Variable client_generate : text -> Eff.M World text.

(** C6, as the code has it.  When the model call returns, [generate_answer]
    returns the cleaned text of the stripped response, whatever it is: a text
    that ends with [.], [!] or [?], or the empty text; it raises exactly when
    the model call raises, with the same exception. *)
Theorem generate_answer_returns_cleaned (question : text) (context_chunks : list ClauseMatch.t)
    (w : World) :
  let prompt :=
    LLMService._create_answer_prompt question (LLMService._prepare_context context_chunks) in
  match client_generate prompt w with
  | (inr response, w') =>
      let cleaned := LLMService._clean_chunk_references (PyStr.strip response) in
      LLMService.generate_answer client_generate question context_chunks w = (inr cleaned, w')
      /\ (cleaned = [] \/ PyStr.ends_with_any (txt ".!?") cleaned = true)
  | (inl e, w') =>
      LLMService.generate_answer client_generate question context_chunks w = (inl e, w')
  end.
Proof.
  intros prompt. unfold LLMService.generate_answer. rewrite catch_reraise.
  unfold Eff.bind. fold prompt.
  destruct (client_generate prompt w) as [[e|response] w']; [done|].
  split; [done|]. apply terminate_ends.
Qed.

End GenerateFacts.

(** C6, as the specification has it, fails: a response that consists of a
    verbose opening is cleaned to nothing, and the empty text is returned. *)
Lemma generate_answer_empty :
  LLMService.generate_answer
    (fun (_ : text) (w : unit) => (inr (txt "Based on the provided document context."), w))
    (txt "What is the grace period?") [] tt
  = (inr [], tt).
Proof. vm_compute. reflexivity. Qed.

(** * Further properties of the services *)

(** ** Slices and searches *)

Lemma adjust_range (n i : Z) : 0 <= n -> 0 <= PyStr.adjust n i <= n.
Proof. intros Hn. unfold PyStr.adjust. destruct (i <? 0) eqn:E; lia. Qed.

Lemma slice_length (t : text) (a b : Z) :
  0 <= a -> a <= b -> (length (PyStr.slice t a b) <= Z.to_nat (b - a))%nat.
Proof.
  intros Ha Hab. unfold PyStr.slice. rewrite length_take.
  unfold PyStr.adjust, PyStr.len.
  replace (a <? 0) with false by (symmetry; apply Z.ltb_ge; lia).
  replace (b <? 0) with false by (symmetry; apply Z.ltb_ge; lia). lia.
Qed.

Lemma slice_lookup (t : text) (a b i : Z) (x : ascii) :
  0 <= a <= i -> i < b -> t !! Z.to_nat i = Some x ->
  PyStr.slice t a b !! Z.to_nat (i - a) = Some x.
Proof.
  intros Ha Hb Hx. apply lookup_lt_Some in Hx as Hlt.
  unfold PyStr.slice, PyStr.adjust, PyStr.len.
  replace (a <? 0) with false by (symmetry; apply Z.ltb_ge; lia).
  replace (b <? 0) with false by (symmetry; apply Z.ltb_ge; lia).
  rewrite lookup_take_lt by lia. rewrite lookup_drop.
  replace (Z.to_nat (a `min` Z.of_nat (length t)) + Z.to_nat (i - a))%nat
    with (Z.to_nat i) by lia.
  done.
Qed.

Lemma slice_part_of (t : text) (a b : Z) : part_of (PyStr.slice t a b) t.
Proof.
  unfold PyStr.slice. set (i := Z.to_nat _). set (k := Z.to_nat _).
  exists (take k t), (drop i (drop k t)).
  by rewrite take_drop, take_drop.
Qed.

Lemma strip_by_part_of (p : ascii -> bool) (s : text) : part_of (PyStr.strip_by p s) s.
Proof.
  unfold PyStr.strip_by.
  destruct (lstrip_by_decomp p s) as (pre & Hs & _).
  destruct (rstrip_by_decomp p (PyStr.lstrip_by p s)) as (post & Hs' & _).
  exists pre, post. by rewrite <- Hs'.
Qed.

Lemma part_of_trans (a b c : text) : part_of a b -> part_of b c -> part_of a c.
Proof.
  intros (l1 & r1 & ->) (l2 & r2 & ->). exists (l2 ++ l1), (r1 ++ r2).
  by rewrite <- !app_assoc.
Qed.

Lemma part_of_length (a b : text) : part_of a b -> (length a <= length b)%nat.
Proof. intros (l & r & ->). rewrite !length_app. lia. Qed.

Lemma part_of_elem (a b : text) (x : ascii) : part_of a b -> x ∈ a -> x ∈ b.
Proof. intros (l & r & ->) H. rewrite !elem_of_app. auto. Qed.

(** Stripping to nothing: everything was in the stripped class. *)
Lemma strip_by_nil (p : ascii -> bool) (s : text) :
  PyStr.strip_by p s = [] -> Forall (fun x => p x = true) s.
Proof.
  unfold PyStr.strip_by. intros H.
  destruct (lstrip_by_decomp p s) as (pre & Hs & Hpre & _).
  destruct (rstrip_by_decomp p (PyStr.lstrip_by p s)) as (post & Hs' & Hpost & _).
  rewrite H in Hs'. rewrite Hs, Hs'. by apply Forall_app.
Qed.

Lemma rindex_lt (c : ascii) (s : text) (i : nat) :
  PyStr.rindex c s = Some i -> (i < length s)%nat /\ s !! i = Some c.
Proof.
  revert i. induction s as [|x s IH]; intros i; cbn; [done|].
  destruct (PyStr.rindex c s) as [j|].
  - intros [= <-]. destruct (IH j eq_refl). split; [lia|done].
  - destruct (Ascii.eqb x c) eqn:E; [|done]. intros [= <-].
    apply Ascii.eqb_eq in E. subst. split; [lia|done].
Qed.

(** [rfind] answers [-1] or a position inside the searched range that holds
    the character. *)
Lemma rfind_range (s : text) (c : ascii) (lo hi : Z) :
  0 <= lo -> 0 <= hi ->
  PyStr.rfind s c lo hi = -1
  \/ (lo <= PyStr.rfind s c lo hi < hi
      /\ s !! Z.to_nat (PyStr.rfind s c lo hi) = Some c).
Proof.
  intros Hlo Hhi. unfold PyStr.rfind.
  replace (lo <? 0) with false by (symmetry; apply Z.ltb_ge; lia).
  destruct (_ <? 1) eqn:E; [by left|]. apply Z.ltb_ge in E.
  destruct (PyStr.rindex _ _) as [i|] eqn:Hi; [|by left]. right.
  apply rindex_lt in Hi as [Hlt Hc]. rewrite length_take in Hlt.
  rewrite lookup_take_lt, lookup_drop in Hc by lia.
  unfold PyStr.adjust, PyStr.len in *.
  replace (hi <? 0) with false in * by (symmetry; apply Z.ltb_ge; lia).
  split; [lia|]. by replace (Z.to_nat (lo + Z.of_nat i)) with (Z.to_nat lo + i)%nat by lia.
Qed.

(** ** Chunker: what the chunks hold *)

Lemma lstrip_by_all (p : ascii -> bool) (s : text) :
  Forall (fun x => p x = true) s -> PyStr.lstrip_by p s = [].
Proof. induction 1 as [|x s Hx _ IH]; cbn; [done|]. by rewrite Hx. Qed.

Lemma strip_by_all (p : ascii -> bool) (s : text) :
  Forall (fun x => p x = true) s -> PyStr.strip_by p s = [].
Proof. intros H. unfold PyStr.strip_by. by rewrite lstrip_by_all. Qed.

Lemma squeeze_all (c : ascii -> bool) (r : ascii) (in_run : bool) (s : text) :
  Forall (fun x => c x = true) (squeeze c r in_run s) -> Forall (fun x => c x = true) s.
Proof.
  revert in_run. induction s as [|x s IH]; intros in_run H; [done|].
  cbn in H. destruct (c x) eqn:E.
  - constructor; [done|]. destruct in_run; [by eapply IH|].
    inversion H; subst. by eapply IH.
  - inversion H; subst. congruence.
Qed.

(** A position of [s] that holds a character outside the stripped class
    lies in what stripping keeps. *)
Lemma strip_by_keeps (p : ascii -> bool) (s : text) (j : nat) (x : ascii) :
  s !! j = Some x -> p x = false ->
  exists pre post,
    s = pre ++ PyStr.strip_by p s ++ post
    /\ (length pre <= j < length pre + length (PyStr.strip_by p s))%nat.
Proof.
  intros Hj Hx. unfold PyStr.strip_by.
  destruct (lstrip_by_decomp p s) as (pre & Hs & Hpre & _).
  destruct (rstrip_by_decomp p (PyStr.lstrip_by p s)) as (post & Hs' & Hpost & _).
  exists pre, post. split; [by rewrite <- Hs'|].
  set (mid := PyStr.rstrip_by p (PyStr.lstrip_by p s)) in *.
  rewrite Hs' in Hs. rewrite Hs in Hj.
  rewrite Forall_lookup in Hpre. rewrite Forall_lookup in Hpost.
  destruct (decide (j < length pre)%nat) as [Hlt|Hge].
  { rewrite lookup_app_l in Hj by done. specialize (Hpre _ _ Hj). congruence. }
  split; [lia|].
  destruct (decide (j < length pre + length mid)%nat) as [|Hge']; [done|].
  rewrite lookup_app_r in Hj by lia. rewrite lookup_app_r in Hj by lia.
  specialize (Hpost _ _ Hj). congruence.
Qed.

Section ChunkContents.

Import DocumentProcessor.

Variable uuid4 : nat -> text.
Variable chunk_size chunk_overlap : Z.

Let chunk_step := chunk_step uuid4 chunk_size chunk_overlap.
Let chunk_loop := chunk_loop uuid4 chunk_size chunk_overlap.
Let _chunk_text := _chunk_text uuid4 chunk_size chunk_overlap.

(** What holds before the loop and is kept by every iteration entered holds
    when the loop is left. *)
Lemma chunk_loop_invariant (P : loop_state -> Prop) (fuel : nat) (t : text)
    (md : gmap text value) (st st' : loop_state) :
  (forall s, P s -> start s < PyStr.len t -> P (chunk_step t md s)) ->
  chunk_loop fuel t md st = Some st' ->
  P st -> P st' /\ PyStr.len t <= start st'.
Proof.
  intros Hstep. revert st. induction fuel as [|fuel IH]; intros st H HP; [done|].
  cbn in H. destruct (start st <? PyStr.len t) eqn:E.
  - apply Z.ltb_lt in E. eapply IH; [exact H|]. by apply Hstep.
  - apply Z.ltb_ge in E. by injection H as <-.
Qed.

Lemma normalize_shape (raw : text) :
  blanks_single (normalize raw) /\ trimmed (normalize raw).
Proof.
  unfold normalize, PyStr.strip. split; [|apply strip_by_ends].
  apply strip_by_blanks_single. change (txt " ") with [" "%char].
  rewrite sub_plus_squeeze. apply squeeze_shape. reflexivity.
Qed.

Lemma normalize_fixed (t : text) :
  blanks_single t -> trimmed t -> normalize t = t.
Proof.
  intros [Hall Hadj] [Hhd Hlast]. unfold normalize, PyStr.strip.
  change (txt " ") with [" "%char]. rewrite sub_plus_squeeze.
  rewrite squeeze_fixed; [by apply strip_by_id|done|done|done].
Qed.

Lemma normalize_blank (raw : text) :
  normalize raw = [] <-> Forall (fun x => PyStr.isspace x = true) raw.
Proof.
  unfold normalize, PyStr.strip. change (txt " ") with [" "%char].
  rewrite sub_plus_squeeze. split.
  - intros H. apply strip_by_nil in H. by apply squeeze_all in H.
  - intros H. apply strip_by_all. by apply squeeze_Forall.
Qed.

Lemma window_end_bounds (t : text) (s : Z) :
  0 <= s -> 0 <= chunk_size ->
  s <= window_end chunk_size t s <= s + chunk_size.
Proof.
  intros Hs Hcs. unfold window_end.
  destruct (_ <? PyStr.len t); [|lia].
  pose proof (rfind_range t "." s (s + chunk_size) Hs ltac:(lia)) as Hdot.
  pose proof (rfind_range t "010" s (s + chunk_size) Hs ltac:(lia)) as Hnl.
  destruct (s <? PyStr.rfind t "." _ _) eqn:E; [apply Z.ltb_lt in E; lia|].
  destruct (s <? PyStr.rfind t "010" _ _) eqn:E'; [apply Z.ltb_lt in E'; lia|]. lia.
Qed.

Lemma window_end_advances (t : text) (s : Z) :
  1 <= chunk_size -> s < window_end chunk_size t s.
Proof.
  intros Hcs. unfold window_end. destruct (_ <? PyStr.len t); [|lia].
  destruct (s <? PyStr.rfind t "." _ _) eqn:E; [apply Z.ltb_lt in E; lia|].
  destruct (s <? PyStr.rfind t "010" _ _) eqn:E'; [apply Z.ltb_lt in E'; lia|]. lia.
Qed.

Lemma chunk_step_well_cut (t : text) (md : gmap text value) (st : loop_state) :
  0 <= chunk_size ->
  0 <= start st /\ Forall (well_cut chunk_size t) (chunks st) ->
  0 <= start (chunk_step t md st) /\ Forall (well_cut chunk_size t) (chunks (chunk_step t md st)).
Proof.
  intros Hcs [Hs Hall]. split.
  { pose proof (chunk_step_advances uuid4 chunk_size chunk_overlap t md st).
    unfold chunk_step. lia. }
  unfold chunk_step, DocumentProcessor.chunk_step.
  destruct (bool_decide _) eqn:E; cbn [chunks generate_chunk_id]; [done|].
  apply bool_decide_eq_false in E.
  apply Forall_app. split; [done|]. constructor; [|constructor].
  unfold well_cut. cbn [DocumentChunk.content].
  split; [|split; [done|split; [apply strip_by_ends|]]].
  - eapply part_of_trans; [apply strip_by_part_of|apply slice_part_of].
  - pose proof (window_end_bounds t (start st) Hs Hcs) as Hb.
    pose proof (part_of_length _ _ (strip_by_part_of PyStr.isspace
                  (PyStr.slice t (start st) (window_end chunk_size t (start st))))) as H1.
    pose proof (slice_length t (start st) (window_end chunk_size t (start st)) Hs
                  ltac:(lia)) as H2.
    unfold PyStr.strip, PyStr.len. lia.
Qed.

Lemma covered_mono (t : text) (l l' : list DocumentChunk.t) (i : nat) :
  covered t l i -> covered t (l ++ l') i.
Proof.
  intros (c & pre & post & Hc & H). exists c, pre, post.
  split; [|done]. apply elem_of_app. by left.
Qed.

(** The chunk cut from the window [[a, b)] holds every character of the
    window that is not white space. *)
Lemma slice_strip_covers (t : text) (a b : Z) (i : nat) (x : ascii) :
  0 <= a <= Z.of_nat i -> Z.of_nat i < b ->
  t !! i = Some x -> PyStr.isspace x = false ->
  exists pre post,
    t = pre ++ PyStr.strip (PyStr.slice t a b) ++ post
    /\ (length pre <= i < length pre + length (PyStr.strip (PyStr.slice t a b)))%nat.
Proof.
  intros Ha Hb Hi Hx.
  assert (PyStr.slice t a b !! Z.to_nat (Z.of_nat i - a) = Some x) as Hj.
  { apply slice_lookup; [lia|lia|]. by rewrite Nat2Z.id. }
  destruct (strip_by_keeps _ _ _ _ Hj Hx) as (pre & post & Hsl & Hrange).
  fold (PyStr.strip (PyStr.slice t a b)) in *.
  apply lookup_lt_Some in Hi as Hlt.
  assert (t = take (Z.to_nat a) t ++ PyStr.slice t a b
                ++ drop (Z.to_nat (PyStr.adjust (PyStr.len t) b - a)) (drop (Z.to_nat a) t))
    as Ht.
  { unfold PyStr.slice.
    replace (PyStr.adjust (PyStr.len t) a) with a
      by (unfold PyStr.adjust, PyStr.len;
          replace (a <? 0) with false by (symmetry; apply Z.ltb_ge; lia); lia).
    by rewrite take_drop, take_drop. }
  exists (take (Z.to_nat a) t ++ pre), (post ++ drop (Z.to_nat (PyStr.adjust (PyStr.len t) b - a)) (drop (Z.to_nat a) t)).
  split.
  - rewrite Ht at 1. rewrite Hsl at 1. by rewrite <- !app_assoc.
  - rewrite length_app, length_take. lia.
Qed.

Lemma chunk_step_covers (t : text) (md : gmap text value) (st : loop_state) :
  1 <= chunk_size -> 0 <= chunk_overlap ->
  let inv s :=
    0 <= start s
    /\ forall (i : nat) x, t !! i = Some x -> PyStr.isspace x = false ->
         Z.of_nat i < start s -> covered t (chunks s) i in
  inv st -> inv (chunk_step t md st).
Proof.
  intros Hcs Hov inv [Hs Hcov].
  pose proof (window_end_advances t (start st) Hcs) as Hadv.
  assert (start (chunk_step t md st) <= window_end chunk_size t (start st)) as Hnext.
  { unfold chunk_step. rewrite chunk_step_start. lia. }
  split.
  { pose proof (chunk_step_advances uuid4 chunk_size chunk_overlap t md st).
    unfold chunk_step. lia. }
  intros i x Hi Hx Hlt.
  destruct (decide (Z.of_nat i < start st)) as [Hold|Hnew].
  { specialize (Hcov i x Hi Hx Hold).
    unfold chunk_step, DocumentProcessor.chunk_step.
    destruct (bool_decide _); cbn [chunks generate_chunk_id]; [done|].
    by apply covered_mono. }
  destruct (slice_strip_covers t (start st) (window_end chunk_size t (start st)) i x)
    as (pre & post & Ht & Hrange); [lia|lia|done|done|].
  unfold chunk_step, DocumentProcessor.chunk_step.
  destruct (bool_decide _) eqn:E; cbn [chunks generate_chunk_id].
  - apply bool_decide_eq_true in E. rewrite E in Hrange. cbn in Hrange. lia.
  - eexists _, pre, post. split; [apply elem_of_app; right; apply list_elem_of_singleton; reflexivity|].
    cbn [DocumentChunk.content]. done.
Qed.

Lemma chunk_text_well_cut_aux (raw : text) (md : gmap text value) (k k' : nat)
    (cs : list DocumentChunk.t) :
  0 <= chunk_size ->
  _chunk_text raw md k = Some (cs, k') ->
  Forall (fun c => part_of (DocumentChunk.content c) (normalize raw)
                   /\ trimmed (DocumentChunk.content c)
                   /\ PyStr.len (DocumentChunk.content c) <= chunk_size) cs
  /\ (chunk_size < PyStr.len (normalize raw) ->
      Forall (fun c => DocumentChunk.content c <> []) cs).
Proof.
  intros Hcs H. unfold _chunk_text, DocumentProcessor._chunk_text in H.
  destruct (PyStr.len (normalize raw) <=? chunk_size) eqn:E.
  - apply Z.leb_le in E. injection H as <- <-. split; [|lia].
    constructor; [|constructor]. cbn [DocumentChunk.content].
    split; [by exists [], []; rewrite app_nil_r|].
    split; [apply normalize_shape|done].
  - destruct (DocumentProcessor.chunk_loop _ _ _ _ _ _ _) as [st'|] eqn:Hloop; [|done].
    injection H as <- <-.
    apply (chunk_loop_invariant
             (fun s => 0 <= start s /\ Forall (well_cut chunk_size (normalize raw)) (chunks s)))
      in Hloop as [[_ Hall] _].
    + split; [|intros _]; (eapply Forall_impl; [exact Hall|]);
        intros c (? & ? & ? & ?); done.
    + intros s Hs _. by apply chunk_step_well_cut.
    + by cbn.
Qed.

(** X1.  With a window of at least zero characters, every chunk that
    [_chunk_text] returns holds a contiguous piece of the normalized text,
    with no white space at either end and at most [chunk_size] characters;
    the chunks cut by the loop (text longer than the window) are not empty. *)
Theorem chunk_text_chunks_well_cut (raw : text) (md : gmap text value) (k k' : nat)
    (cs : list DocumentChunk.t) :
  0 <= chunk_size ->
  _chunk_text raw md k = Some (cs, k') ->
  Forall (fun c => part_of (DocumentChunk.content c) (normalize raw)
                   /\ trimmed (DocumentChunk.content c)
                   /\ PyStr.len (DocumentChunk.content c) <= chunk_size) cs
  /\ (chunk_size < PyStr.len (normalize raw) ->
      Forall (fun c => DocumentChunk.content c <> []) cs).
Proof.
  apply chunk_text_well_cut_aux.
Qed.

Lemma chunk_text_covers_aux (raw : text) (md : gmap text value) (k k' : nat)
    (cs : list DocumentChunk.t) (i : nat) (x : ascii) :
  1 <= chunk_size -> 0 <= chunk_overlap ->
  _chunk_text raw md k = Some (cs, k') ->
  normalize raw !! i = Some x -> PyStr.isspace x = false ->
  covered (normalize raw) cs i.
Proof.
  intros Hcs Hov H Hi Hx. unfold _chunk_text, DocumentProcessor._chunk_text in H.
  destruct (PyStr.len (normalize raw) <=? chunk_size) eqn:E.
  - injection H as <- <-. eexists _, [], [].
    split; [apply list_elem_of_singleton; reflexivity|].
    cbn [DocumentChunk.content]. split; [by rewrite app_nil_r|].
    apply lookup_lt_Some in Hi. cbn. lia.
  - destruct (DocumentProcessor.chunk_loop _ _ _ _ _ _ _) as [st'|] eqn:Hloop; [|done].
    injection H as <- <-.
    apply (chunk_loop_invariant
             (fun s => 0 <= start s
                       /\ forall (i : nat) x, normalize raw !! i = Some x ->
                            PyStr.isspace x = false ->
                            Z.of_nat i < start s -> covered (normalize raw) (chunks s) i))
      in Hloop as [[_ Hall] Hend].
    + apply (Hall i x Hi Hx). apply lookup_lt_Some in Hi. unfold PyStr.len in Hend. lia.
    + intros s Hs _. by apply chunk_step_covers.
    + cbn. split; [lia|]. intros; lia.
Qed.

(** X2.  With a window of at least one character and an overlap that is
    not negative, nothing but white space is lost: every character of the
    normalized text that is not white space lies in one of the chunks, at
    its place. *)
Theorem chunk_text_covers (raw : text) (md : gmap text value) (k k' : nat)
    (cs : list DocumentChunk.t) (i : nat) (x : ascii) :
  1 <= chunk_size -> 0 <= chunk_overlap ->
  _chunk_text raw md k = Some (cs, k') ->
  normalize raw !! i = Some x -> PyStr.isspace x = false ->
  covered (normalize raw) cs i.
Proof.
  apply chunk_text_covers_aux.
Qed.

(** X3.  With a window of at least one character and an overlap that is
    not negative, [_chunk_text] returns at least one chunk; a chunk with an
    empty content is returned exactly when the input is white space
    throughout (the empty text included), and it is then the only chunk. *)
Theorem chunk_text_never_empty (raw : text) (md : gmap text value) (k k' : nat)
    (cs : list DocumentChunk.t) :
  1 <= chunk_size -> 0 <= chunk_overlap ->
  _chunk_text raw md k = Some (cs, k') ->
  cs <> []
  /\ ((exists c, c ∈ cs /\ DocumentChunk.content c = [])
      <-> Forall (fun x => PyStr.isspace x = true) raw)
  /\ (Forall (fun x => PyStr.isspace x = true) raw ->
      cs = [DocumentChunk.mk [] md (uuid4 k) (get_page_number md)] /\ k' = S k).
Proof.
  intros Hcs Hov H.
  assert (Forall (fun x => PyStr.isspace x = true) raw ->
          cs = [DocumentChunk.mk [] md (uuid4 k) (get_page_number md)] /\ k' = S k) as Hblank.
  { intros Hb. apply normalize_blank in Hb.
    unfold _chunk_text, DocumentProcessor._chunk_text in H. rewrite Hb in H.
    change (PyStr.len []) with 0 in H.
    replace (0 <=? chunk_size) with true in H by (symmetry; apply Z.leb_le; lia).
    by injection H as <- <-. }
  split; [|split; [split|done]].
  - destruct (normalize raw) as [|x t] eqn:Ht.
    + apply normalize_blank in Ht. by destruct (Hblank Ht) as [-> _].
    + destruct (normalize_shape raw) as [_ [Hhd _]]. rewrite Ht in Hhd.
      destruct (chunk_text_covers_aux raw md k k' cs 0 x Hcs Hov H) as (c & _ & _ & Hc & _).
      * by rewrite Ht.
      * by apply Hhd.
      * intros ->. by apply elem_of_nil in Hc.
  - intros (c & Hc & Hempty). apply normalize_blank.
    pose proof H as H'. unfold _chunk_text, DocumentProcessor._chunk_text in H'.
    destruct (PyStr.len (normalize raw) <=? chunk_size) eqn:E.
    + injection H' as <- <-. apply list_elem_of_singleton in Hc. by subst c.
    + apply Z.leb_gt in E.
      destruct (chunk_text_well_cut_aux raw md k k' cs ltac:(lia) H) as [_ Hne].
      rewrite Forall_forall in Hne. by destruct (Hne E c Hc).
  - intros Hb. destruct (Hblank Hb) as [-> _]. eexists. split; [by left|done].
Qed.

Lemma chunk_ids_aux (raw : text) (md : gmap text value) (k k' : nat)
    (cs : list DocumentChunk.t) :
  _chunk_text raw md k = Some (cs, k') ->
  k' = (k + length cs)%nat
  /\ map DocumentChunk.chunk_id cs = map uuid4 (seq k (length cs))
  /\ (Inj eq eq uuid4 -> NoDup (map DocumentChunk.chunk_id cs)).
Proof.
  intros H.
  assert (k' = (k + length cs)%nat
          /\ map DocumentChunk.chunk_id cs = map uuid4 (seq k (length cs))) as [Hk Hids].
  { unfold _chunk_text, DocumentProcessor._chunk_text in H.
    destruct (PyStr.len (normalize raw) <=? chunk_size).
    - injection H as <- <-. cbn. split; [lia|done].
    - destruct (DocumentProcessor.chunk_loop _ _ _ _ _ _ _) as [st'|] eqn:Hloop; [|done].
      injection H as <- <-.
      apply (chunk_loop_inv _ _ _ _ _ _ k) in Hloop as (_ & _ & Hk & Hids).
      + assert (length (chunks st') = (drawn st' - k)%nat) as Hlen.
        { rewrite <- (length_map DocumentChunk.chunk_id), Hids.
          by rewrite length_map, length_seq. }
        rewrite Hlen. split; [lia|done].
      + unfold loop_inv. cbn. rewrite Nat.sub_diag.
        split; [lia|]. split; [constructor|done]. }
  split; [done|]. split; [done|].
  intros Hinj. rewrite Hids. apply NoDup_fmap_2; [done|]. apply NoDup_seq.
Qed.

(** X4.  A call of [_chunk_text] draws one identifier for each chunk it
    returns and no other: the identifiers of the chunks are the draws [k],
    [k+1], ... in the order of the chunks, so they are pairwise distinct
    when the generator does not repeat itself. *)
Theorem chunk_ids_are_draws (raw : text) (md : gmap text value) (k k' : nat)
    (cs : list DocumentChunk.t) :
  _chunk_text raw md k = Some (cs, k') ->
  k' = (k + length cs)%nat
  /\ map DocumentChunk.chunk_id cs = map uuid4 (seq k (length cs))
  /\ (Inj eq eq uuid4 -> NoDup (map DocumentChunk.chunk_id cs)).
Proof.
  apply chunk_ids_aux.
Qed.

(** X5.  Normalizing is idempotent, and the texts it leaves as they are are
    those whose white space is single blanks, none at either end. *)
Theorem normalize_idempotent :
  (forall raw, normalize (normalize raw) = normalize raw)
  /\ (forall t, normalize t = t <-> blanks_single t /\ trimmed t).
Proof.
  split.
  - intros raw. apply normalize_fixed; apply normalize_shape.
  - intros t. split.
    + intros <-. apply normalize_shape.
    + intros [? ?]. by apply normalize_fixed.
Qed.

End ChunkContents.

Lemma chunk_text_chunks_well_cut_witness :
  let uuid4 := fun k : nat => txt "id-" ++ txt (pretty k) in
  let raw := txt "The grace period is 30 days." in
  exists cs k',
    DocumentProcessor._chunk_text uuid4 27 5 raw ∅ 0 = Some (cs, k')
    /\ Forall (fun c => part_of (DocumentChunk.content c) (DocumentProcessor.normalize raw)
                        /\ trimmed (DocumentChunk.content c)
                        /\ PyStr.len (DocumentChunk.content c) <= 27) cs.
Proof.
  intros uuid4 raw. eexists _, _. split; [vm_compute; reflexivity|].
  refine (proj1 (chunk_text_chunks_well_cut uuid4 27 5 raw ∅ 0 _ _ _ _));
    [lia|vm_compute; reflexivity].
Defined.

Lemma chunk_text_covers_witness :
  let uuid4 := fun k : nat => txt "id-" ++ txt (pretty k) in
  let raw := txt "The grace period is 30 days." in
  exists cs k',
    DocumentProcessor._chunk_text uuid4 27 5 raw ∅ 0 = Some (cs, k')
    /\ covered (DocumentProcessor.normalize raw) cs 27.
Proof.
  intros uuid4 raw. eexists _, _. split; [vm_compute; reflexivity|].
  eapply (chunk_text_covers uuid4 27 5 raw ∅ 0 _ _ 27 "."%char);
    [lia|lia|vm_compute; reflexivity|vm_compute; reflexivity|reflexivity].
Defined.

Lemma chunk_text_never_empty_witness :
  let uuid4 := fun k : nat => txt "id-" ++ txt (pretty k) in
  let raw := txt "The grace period is 30 days." in
  exists cs k',
    DocumentProcessor._chunk_text uuid4 27 5 raw ∅ 0 = Some (cs, k') /\ cs <> [].
Proof.
  intros uuid4 raw. eexists _, _. split; [vm_compute; reflexivity|].
  refine (proj1 (chunk_text_never_empty uuid4 27 5 raw ∅ 0 _ _ _ _ _));
    [lia|lia|vm_compute; reflexivity].
Defined.

Lemma chunk_ids_are_draws_witness :
  let uuid4 := fun k : nat => txt "id-" ++ txt (pretty k) in
  let raw := txt "The grace period is 30 days." in
  exists cs k',
    DocumentProcessor._chunk_text uuid4 27 5 raw ∅ 7 = Some (cs, k')
    /\ k' = (7 + length cs)%nat
    /\ map DocumentChunk.chunk_id cs = map uuid4 (seq 7 (length cs)).
Proof.
  intros uuid4 raw. eexists _, _. split; [vm_compute; reflexivity|].
  split.
  - refine (proj1 (chunk_ids_are_draws uuid4 27 5 raw ∅ 7 _ _ _)). vm_compute; reflexivity.
  - reflexivity.
Defined.

(** ** Vector index: building and searching *)

Lemma py_index_elem {A} (l : list A) (i : Z) (x : A) :
  PyStr.py_index l i = Some x -> x ∈ l.
Proof.
  unfold PyStr.py_index. intros H.
  destruct (_ && _); [by eapply list_elem_of_lookup_2|].
  destruct (_ && _); [by eapply list_elem_of_lookup_2|done].
Qed.

Lemma collect_matches_from (P : ClauseMatch.t -> Prop) (cs : list DocumentChunk.t)
    (hits : list (Q * Z)) (acc ms : list ClauseMatch.t) :
  (forall chunk score, chunk ∈ cs -> P (match_of chunk score)) ->
  Forall P acc ->
  EmbeddingService.collect_matches cs acc hits = inr ms ->
  Forall P ms /\ (length ms <= length acc + length hits)%nat.
Proof.
  intros HP. revert acc. induction hits as [|[score idx] hits IH]; intros acc Hacc H.
  - cbn in H. injection H as <-. split; [done|lia].
  - cbn [EmbeddingService.collect_matches EmbeddingService.add_match] in H.
    destruct (idx <? _).
    + destruct (PyStr.py_index cs idx) as [chunk|] eqn:Hidx; [|done].
      apply IH in H as [H Hlen].
      * split; [done|]. rewrite length_app in Hlen. cbn in *. lia.
      * apply Forall_app. split; [done|]. constructor; [|constructor].
        apply (HP chunk score). by eapply py_index_elem.
    + apply IH in H as [H Hlen]; [|done]. split; [done|]. cbn. lia.
Qed.

Lemma collect_matches_raises (cs : list DocumentChunk.t) (hits : list (Q * Z))
    (acc : list ClauseMatch.t) :
  match EmbeddingService.collect_matches cs acc hits with
  | inl e =>
      e = IndexError (txt "list index out of range")
      /\ exists hit, hit ∈ hits /\ hit.2 < - Z.of_nat (length cs)
  | inr _ => Forall (fun hit => - Z.of_nat (length cs) <= hit.2) hits
  end.
Proof.
  revert acc. induction hits as [|[score idx] hits IH]; intros acc; [by cbn|].
  cbn [EmbeddingService.collect_matches EmbeddingService.add_match].
  destruct (idx <? _) eqn:E.
  - apply Z.ltb_lt in E. unfold PyStr.py_index.
    destruct (decide (0 <= idx)) as [Hpos|Hneg].
    + replace ((0 <=? idx) && (idx <? Z.of_nat (length cs))) with true
        by (symmetry; apply andb_true_iff; split; [apply Z.leb_le|apply Z.ltb_lt]; lia).
      destruct (lookup_lt_is_Some_2 cs (Z.to_nat idx) ltac:(lia)) as [chunk ->].
      specialize (IH (acc ++ [ClauseMatch.mk (DocumentChunk.content chunk) score
                                 (DocumentChunk.metadata chunk)
                                 (txt "Chunk " ++ DocumentChunk.chunk_id chunk)])).
      destruct (EmbeddingService.collect_matches _ _ hits).
      * destruct IH as (-> & hit & Hin & Hlt). split; [done|]. exists hit. split; [by right|done].
      * constructor; [cbn; lia|done].
    + replace ((0 <=? idx) && (idx <? Z.of_nat (length cs))) with false
        by (symmetry; apply andb_false_iff; left; apply Z.leb_gt; lia).
      destruct (decide (- Z.of_nat (length cs) <= idx)) as [Hin|Hout].
      * replace ((- Z.of_nat (length cs) <=? idx) && (idx <? 0)) with true
          by (symmetry; apply andb_true_iff; split; [apply Z.leb_le|apply Z.ltb_lt]; lia).
        destruct (lookup_lt_is_Some_2 cs (Z.to_nat (Z.of_nat (length cs) + idx)) ltac:(lia))
          as [chunk ->].
        specialize (IH (acc ++ [ClauseMatch.mk (DocumentChunk.content chunk) score
                                   (DocumentChunk.metadata chunk)
                                   (txt "Chunk " ++ DocumentChunk.chunk_id chunk)])).
        destruct (EmbeddingService.collect_matches _ _ hits).
        -- destruct IH as (-> & hit & Hin' & Hlt). split; [done|].
           exists hit. split; [by right|done].
        -- constructor; [cbn; lia|done].
      * replace ((- Z.of_nat (length cs) <=? idx) && (idx <? 0)) with false
          by (symmetry; apply andb_false_iff; left; apply Z.leb_gt; lia).
        split; [done|]. exists (score, idx). split; [by left|cbn; lia].
  - apply Z.ltb_ge in E. specialize (IH acc).
    destruct (EmbeddingService.collect_matches _ _ hits).
    + destruct IH as (-> & hit & Hin & Hlt). split; [done|]. exists hit. split; [by right|done].
    + constructor; [cbn; lia|done].
Qed.

Section SearchMore.

Variables World Index Emb : Type.
Variable model_encode : list text -> Eff.M World Emb.
Variable index_search : Index -> Emb -> Z -> Eff.M World (list (Q * Z)).

Let search_similar_chunks :=
  EmbeddingService.search_similar_chunks model_encode index_search.

(** X6.  [search_similar_chunks] only reads the service: whatever the
    outcome, [index] and [chunks] are as before.  Without an index it raises
    the [ValueError] before any library call.  Every match it returns is
    built from a chunk of the stored list, with the reference
    [Chunk <chunk_id>], and there are at most as many matches as the index
    search gave hits.  When the index search gives a hit whose index is
    below [-len(chunks)] (any negative index when no chunk is stored), the
    search raises [IndexError]. *)
Theorem search_similar_chunks_reads_only (query : text) (top_k : option Z)
    (st : EmbeddingService.state Index) (w : World)
    (r : result (list ClauseMatch.t)) (sw' : EmbeddingService.state Index * World) :
  search_similar_chunks query top_k (st, w) = (r, sw') ->
  sw'.1 = st
  /\ (EmbeddingService.index st = None ->
      r = inl (ValueError (txt "No embeddings index available. Create embeddings first."))
      /\ sw'.2 = w)
  /\ (forall matches, r = inr matches ->
        Forall (fun m => exists chunk score,
                  chunk ∈ EmbeddingService.chunks st /\ m = match_of chunk score) matches)
  /\ (forall idx emb w1 hits w2,
        EmbeddingService.index st = Some idx ->
        model_encode [query] w = (inr emb, w1) ->
        index_search idx emb (default EmbeddingService.TOP_K_RESULTS top_k) w1
        = (inr hits, w2) ->
        match r with
        | inr matches =>
            (length matches <= length hits)%nat
            /\ Forall (fun hit => - Z.of_nat (length (EmbeddingService.chunks st)) <= hit.2) hits
        | inl e =>
            e = IndexError (txt "list index out of range")
            /\ exists hit, hit ∈ hits
                 /\ hit.2 < - Z.of_nat (length (EmbeddingService.chunks st))
        end).
Proof.
  unfold search_similar_chunks, EmbeddingService.search_similar_chunks.
  unfold Eff.bind at 1. unfold Eff.get. cbn [fst snd].
  destruct (EmbeddingService.index st) as [idx|] eqn:Hidx.
  2:{ intros [= <- <-]. by repeat split. }
  rewrite catch_reraise. intros H.
  assert (default EmbeddingService.TOP_K_RESULTS top_k
          = match top_k with None => EmbeddingService.TOP_K_RESULTS | Some k => k end) as Hk
    by by destruct top_k.
  rewrite <- Hk in H. clear Hk.
  destruct (model_encode [query] w) as [[e|emb] w1] eqn:Henc.
  { rewrite (bind_raise _ _ _ _ _ (on_snd_run _ st _ _ _ Henc)) in H.
    injection H as <- <-. split; [done|]. split; [done|]. split; [done|].
    intros idx' emb' w1' hits' w2' _ Henc'. congruence. }
  rewrite (bind_ok _ _ _ _ _ (on_snd_run _ st _ _ _ Henc)) in H.
  destruct (index_search idx emb (default EmbeddingService.TOP_K_RESULTS top_k) w1)
    as [[e|hits] w2] eqn:Hs.
  { rewrite (bind_raise _ _ _ _ _ (on_snd_run _ st _ _ _ Hs)) in H.
    injection H as <- <-. split; [done|]. split; [done|]. split; [done|].
    intros idx' emb' w1' hits' w2' [= <-] [= <- <-]. congruence. }
  rewrite (bind_ok _ _ _ _ _ (on_snd_run _ st _ _ _ Hs)) in H.
  pose proof (collect_matches_raises (EmbeddingService.chunks st) hits []) as Hraise.
  destruct (EmbeddingService.collect_matches (EmbeddingService.chunks st) [] hits)
    as [e|ms] eqn:Hc; injection H as <- <-.
  - split; [done|]. split; [done|]. split; [done|].
    intros idx' emb' w1' hits' w2' [= <-] [= <- <-]. rewrite Hs. by intros [= <- <-].
  - split; [done|]. split; [done|]. split.
    + intros matches [= <-].
      refine (proj1 (collect_matches_from _ _ _ _ _ _ _ Hc));
        [by intros chunk score ?; exists chunk, score|constructor].
    + intros idx' emb' w1' hits' w2' [= <-] [= <- <-]. rewrite Hs. intros [= <- <-].
      split; [|done].
      refine (proj2 (collect_matches_from (fun _ => True) _ _ _ _ _ _ Hc)); [done|constructor].
Qed.

End SearchMore.

Lemma search_similar_chunks_reads_only_witness :
  let st := EmbeddingService.mk_state (Some 1%nat) [Demo.chunk0] in
  exists r sw',
    Pipeline.search_similar_chunks (txt "grace period") None (st, tt) = (r, sw')
    /\ sw'.1 = st.
Proof.
  intros st. eexists _, _. split; [reflexivity|].
  refine (proj1 (search_similar_chunks_reads_only _ _ _ Pipeline.model_encode
                   Pipeline.index_search (txt "grace period") None st tt _ _ _)).
  reflexivity.
Defined.

(** ** Orchestrator: the state it keeps *)

Section ProcessorState.

Variables World Index Emb : Type.
Variable process_document : text -> Eff.M World (list DocumentChunk.t).
Variable model_encode : list text -> Eff.M World Emb.
Variable IndexFlatIP : Index.
Variable index_add : Index -> Emb -> Eff.M World Index.
Variable search_similar_chunks :
  text -> option Z -> Eff.M (EmbeddingService.state Index * World) (list ClauseMatch.t).
Variable generate_answer : text -> list ClauseMatch.t -> Eff.M World text.

Let create_embeddings := EmbeddingService.create_embeddings model_encode IndexFlatIP index_add.
Let _process_document :=
  QueryProcessor._process_document process_document create_embeddings.
Let answer_all := QueryProcessor.answer_all search_similar_chunks generate_answer.
Let process_queries :=
  QueryProcessor.process_queries process_document create_embeddings
    search_similar_chunks generate_answer.

(** The three ways [create_embeddings] ends. *)
Lemma create_embeddings_run (cs : list DocumentChunk.t)
    (st : EmbeddingService.state Index) (w : World) :
  create_embeddings cs (st, w)
  = match model_encode (map DocumentChunk.content cs) w with
    | (inl e, w1) => (inl e, (st, w1))
    | (inr emb, w1) =>
        match index_add IndexFlatIP emb w1 with
        | (inl e, w2) =>
            (inl e, (EmbeddingService.mk_state (Some IndexFlatIP) (EmbeddingService.chunks st), w2))
        | (inr filled, w2) => (inr tt, (EmbeddingService.mk_state (Some filled) cs, w2))
        end
    end.
Proof.
  unfold create_embeddings, EmbeddingService.create_embeddings. rewrite catch_reraise.
  unfold Eff.bind, Eff.on_snd, EmbeddingService.set_index, EmbeddingService.set_chunks.
  cbn [fst snd].
  destruct (model_encode _ w) as [[e|emb] w1]; [done|]. cbn [fst snd].
  destruct (index_add IndexFlatIP emb w1) as [[e|filled] w2]; done.
Qed.

Lemma _process_document_run (url : text) (st : QueryProcessor.state Index) (w : World) :
  _process_document url (st, w)
  = match process_document url w with
    | (inl e, w1) => (inl e, (st, w1))
    | (inr [], w1) => (inl (ValueError (txt "No content extracted from document")), (st, w1))
    | (inr cs, w1) =>
        match create_embeddings cs (QueryProcessor.embedding_service st, w1) with
        | (r, (es, w2)) =>
            (r, (QueryProcessor.mk_state (QueryProcessor._current_document_url st) es, w2))
        end
    end.
Proof.
  unfold _process_document, QueryProcessor._process_document. rewrite catch_reraise.
  unfold Eff.bind, Eff.on_snd. cbn [fst snd].
  destruct (process_document url w) as [[e|cs] w1]; [done|].
  destruct cs as [|c cs]; [done|]. rewrite bool_decide_eq_false_2 by done.
  unfold QueryProcessor.in_embedding_service, Eff.on_fst. cbn [fst snd]. reflexivity.
Qed.

(** X7.  A document that yields chunks but whose index cannot be built:
    when the encoder fails, [process_queries] raises with the processor as it
    was; when filling the index fails, it raises with the current document
    URL and the chunk list as they were but the index replaced by a new,
    empty one; when both succeed, the questions are answered with the new
    URL, index and chunks. *)
Theorem process_queries_failed_build (url : text) (questions : list text)
    (st : QueryProcessor.state Index) (w w1 : World) (cs : list DocumentChunk.t) :
  QueryProcessor._current_document_url st <> Some url ->
  process_document url w = (inr cs, w1) -> cs <> [] ->
  match model_encode (map DocumentChunk.content cs) w1 with
  | (inl e, w2) => process_queries url questions (st, w) = (inl e, (st, w2))
  | (inr emb, w2) =>
      match index_add IndexFlatIP emb w2 with
      | (inl e, w3) =>
          process_queries url questions (st, w)
          = (inl e,
             (QueryProcessor.mk_state (QueryProcessor._current_document_url st)
                (EmbeddingService.mk_state (Some IndexFlatIP)
                   (EmbeddingService.chunks (QueryProcessor.embedding_service st))), w3))
      | (inr filled, w3) =>
          process_queries url questions (st, w)
          = answer_all [] questions
              (QueryProcessor.mk_state (Some url) (EmbeddingService.mk_state (Some filled) cs),
               w3)
      end
  end.
Proof.
  intros Hurl Hdoc Hcs. unfold process_queries.
  rewrite process_queries_unfold. cbn [fst]. rewrite bool_decide_eq_false_2 by done.
  fold create_embeddings. fold _process_document.
  rewrite _process_document_run, Hdoc. destruct cs as [|c cs]; [done|].
  rewrite create_embeddings_run.
  destruct (model_encode _ w1) as [[e|emb] w2]; [by destruct st|].
  destruct (index_add IndexFlatIP emb w2) as [[e|filled] w3]; reflexivity.
Qed.

Lemma single_query_keeps_url (question : text) (s : QueryProcessor.state Index * World) :
  QueryProcessor._current_document_url
    (QueryProcessor._process_single_query search_similar_chunks generate_answer question s).2.1
  = QueryProcessor._current_document_url s.1.
Proof.
  unfold QueryProcessor._process_single_query. rewrite catch_reraise.
  unfold Eff.bind, QueryProcessor.in_embedding_service, Eff.on_fst.
  destruct (search_similar_chunks _ _ _) as [[e|ms] [es w1]]; [done|].
  case_bool_decide; [done|]. unfold Eff.on_snd. cbn [fst snd].
  by destruct (generate_answer _ _ _).
Qed.

Lemma answer_all_keeps_url (questions acc : list text) (s : QueryProcessor.state Index * World) :
  QueryProcessor._current_document_url (answer_all acc questions s).2.1
  = QueryProcessor._current_document_url s.1.
Proof.
  revert acc s. induction questions as [|q qs IH]; intros acc s; [done|].
  unfold answer_all. cbn [QueryProcessor.answer_all].
  unfold Eff.bind at 1. unfold QueryProcessor.answer_question, Eff.catch, Eff.bind, Eff.ret.
  pose proof (single_query_keeps_url q s) as Hq.
  destruct (QueryProcessor._process_single_query _ _ q s) as [[e|a] s1];
    cbn [fst snd] in *; rewrite <- Hq; apply IH.
Qed.

Lemma _process_document_keeps_url (url : text) (s : QueryProcessor.state Index * World) :
  QueryProcessor._current_document_url (_process_document url s).2.1
  = QueryProcessor._current_document_url s.1.
Proof.
  destruct s as [st w]. rewrite _process_document_run.
  destruct (process_document url w) as [[e|[|c cs]] w1]; [done|done|].
  by destruct (create_embeddings _ _) as [r [es w2]].
Qed.

(** X8.  After [process_queries] returned, the processor's current
    document is the requested URL; after it raised, the current document is
    the one from before.  A later call for the URL it returned for answers
    the questions from the stored index alone: it is the same whatever the
    document loader and the index builder would do. *)
Theorem process_queries_current_document (url : text) (questions : list text)
    (s s' : QueryProcessor.state Index * World) (r : result (list text)) :
  process_queries url questions s = (r, s') ->
  match r with
  | inr _ =>
      QueryProcessor._current_document_url s'.1 = Some url
      /\ forall process_document' create_embeddings' questions',
           QueryProcessor.process_queries process_document' create_embeddings'
             search_similar_chunks generate_answer url questions' s'
           = answer_all [] questions' s'
  | inl _ =>
      QueryProcessor._current_document_url s'.1 = QueryProcessor._current_document_url s.1
  end.
Proof.
  intros H.
  assert (forall s0, QueryProcessor._current_document_url s0.1 = Some url ->
            forall process_document' create_embeddings' questions',
              QueryProcessor.process_queries process_document' create_embeddings'
                search_similar_chunks generate_answer url questions' s0
              = answer_all [] questions' s0) as Hagain.
  { intros s0 Hs0 pd ce qs. rewrite process_queries_unfold.
    by rewrite bool_decide_eq_true_2. }
  unfold process_queries in H. rewrite process_queries_unfold in H.
  fold answer_all in H. fold create_embeddings in H. fold _process_document in H.
  case_bool_decide as Hcur.
  - destruct (answer_all_answered _ _ search_similar_chunks generate_answer questions [] s)
      as (answers & s1 & Hrun & _).
    fold answer_all in Hrun. rewrite Hrun in H. injection H as <- <-.
    assert (QueryProcessor._current_document_url s1.1 = Some url) as Hs1.
    { pose proof (answer_all_keeps_url questions [] s) as Hk. rewrite Hrun in Hk.
      cbn in Hk. by rewrite Hk. }
    split; [done|]. by apply Hagain.
  - pose proof (_process_document_keeps_url url s) as Hk.
    destruct (_process_document url s) as [[e|[]] s1].
    + injection H as <- <-. done.
    + set (s2 := (QueryProcessor.mk_state (Some url) (QueryProcessor.embedding_service s1.1),
                  s1.2)) in *.
      destruct (answer_all_answered _ _ search_similar_chunks generate_answer questions [] s2)
        as (answers & s3 & Hrun & _).
      fold answer_all in Hrun. rewrite Hrun in H. injection H as <- <-.
      assert (QueryProcessor._current_document_url s3.1 = Some url) as Hs3.
      { pose proof (answer_all_keeps_url questions [] s2) as Hk'. rewrite Hrun in Hk'.
        cbn in Hk'. by rewrite Hk'. }
      split; [done|]. by apply Hagain.
Qed.

End ProcessorState.

Lemma process_queries_failed_build_witness :
  let index_add := fun (_ _ : nat) => Eff.raise (S := unit) (A := nat)
                                        (ExternalError (txt "out of memory")) in
  QueryProcessor.process_queries Demo.process_document
    (EmbeddingService.create_embeddings Pipeline.model_encode O index_add)
    Pipeline.search_similar_chunks (LLMService.generate_answer Pipeline.client_generate)
    (txt "ok") [txt "q1"] (Pipeline.idle, tt)
  = (inl (ExternalError (txt "out of memory")),
     (QueryProcessor.mk_state None (EmbeddingService.mk_state (Some O) []), tt)).
Proof.
  intros index_add.
  refine (process_queries_failed_build unit nat nat Demo.process_document
            Pipeline.model_encode O index_add Pipeline.search_similar_chunks
            (LLMService.generate_answer Pipeline.client_generate)
            (txt "ok") [txt "q1"] Pipeline.idle tt tt [Demo.chunk0] _ _ _);
    [discriminate|reflexivity|discriminate].
Defined.

Lemma process_queries_current_document_witness :
  exists r s',
    Pipeline.process_queries (txt "https://example.org/policy.txt")
      [txt "What is the grace period?"] (Pipeline.idle, tt) = (r, s')
    /\ QueryProcessor._current_document_url s'.1 = Some (txt "https://example.org/policy.txt").
Proof.
  eexists _, _. split; [vm_compute; reflexivity|].
  refine (proj1 (process_queries_current_document unit nat nat Pipeline.process_document
                   Pipeline.model_encode O Pipeline.index_add Pipeline.search_similar_chunks
                   (LLMService.generate_answer Pipeline.client_generate)
                   (txt "https://example.org/policy.txt") [txt "What is the grace period?"]
                   (Pipeline.idle, tt) _ (inr _) _)).
  vm_compute; reflexivity.
Defined.

(** ** Cleaning pass: what the result looks like *)

Section CleanShape.

Import Re LLMService.

Ltac by_char c :=
  destruct c as [[] [] [] [] [] [] [] []]; vm_compute; try done; auto.

(** What [re.sub] gives is made of characters of the text and of the
    replacement. *)
Lemma sub_scan_Forall (P : ascii -> Prop) (ic : bool) (p : list atom) (repl : text)
    (skip : nat) (s : text) :
  Forall P repl -> Forall P s -> Forall P (sub_scan ic p repl skip s).
Proof.
  intros Hrepl Hs. revert skip.
  induction Hs as [|x s Hx Hs IH]; intros skip; cbn [sub_scan]; [constructor|].
  destruct skip as [|skip]; [|apply IH].
  destruct (match_here ic p (x :: s)) as [rest|]; [|by constructor].
  destruct (_ <? _)%nat; [|by constructor].
  apply Forall_app. split; [done|apply IH].
Qed.

Lemma sub_Forall (P : ascii -> Prop) (ic : bool) (p : list atom) (repl s : text) :
  Forall P repl -> Forall P s -> Forall P (sub ic p repl s).
Proof. apply sub_scan_Forall. Qed.

Lemma capitalize_Forall (P : ascii -> Prop) (s : text) :
  (forall c, P c -> Forall P (PyStr.upper [c])) -> Forall P s -> Forall P (capitalize s).
Proof.
  intros Hup Hs. destruct Hs as [|c s Hc Hs]; cbn [capitalize]; [constructor|].
  destruct (PyStr.isupper c); [by constructor|].
  apply Forall_app. split; [by apply Hup|done].
Qed.

Lemma terminate_Forall (P : ascii -> Prop) (s : text) :
  P "."%char -> Forall P s -> Forall P (terminate s).
Proof.
  intros Hdot Hs. unfold terminate. destruct s as [|c s]; [constructor|].
  destruct (PyStr.ends_with_any _ _); [done|].
  apply Forall_app. split; [done|]. by constructor.
Qed.

(** Neither a hyphen nor an asterisk. *)
Let plain (c : ascii) : Prop := oneof "*-" c = false.

Lemma bullet_found (x : ascii) (s : text) :
  oneof "*-" x = true ->
  match_here false bullet_marker (x :: s)
  = Some (PyStr.lstrip_by (cmatch false space) s).
Proof.
  intros Hx.
  assert (x = "*"%char \/ x = "-"%char) as [-> | ->] by (revert Hx; by_char x).
  - cbn. apply star_greedy_done.
  - cbn. apply star_greedy_done.
Qed.

Lemma sub_bullets_plain (skip : nat) (s : text) :
  Forall plain (sub_scan false bullet_marker (txt " ") skip s).
Proof.
  revert skip. induction s as [|x s IH]; intros skip; cbn [sub_scan]; [constructor|].
  destruct skip as [|skip]; [|apply IH].
  destruct (oneof "*-" x) eqn:Hx.
  - rewrite (bullet_found x s Hx).
    pose proof (lstrip_by_length (cmatch false space) s) as Hlen.
    replace (length (PyStr.lstrip_by (cmatch false space) s) <? length (x :: s))%nat
      with true by (symmetry; apply Nat.ltb_lt; cbn; lia).
    apply Forall_app. split; [by repeat constructor|apply IH].
  - destruct (match_here false bullet_marker (x :: s)) as [rest|]; [|by constructor].
    destruct (_ <? _)%nat; [|by constructor].
    apply Forall_app. split; [by repeat constructor|apply IH].
Qed.

(** X9.  The cleaned text holds neither a hyphen nor an asterisk: every
    one of them is taken for a bullet marker, wherever it stands, and
    replaced by a blank. *)
Theorem clean_has_no_hyphen_or_asterisk (t : text) :
  Forall (fun c => c <> "-"%char /\ c <> "*"%char) (_clean_chunk_references t).
Proof.
  assert (Forall plain (_clean_chunk_references t)) as H.
  { unfold _clean_chunk_references, _convert_bullets_to_text.
    apply terminate_Forall; [done|].
    apply capitalize_Forall.
    { intros c; unfold plain; destruct c as [[] [] [] [] [] [] [] []]; vm_compute;
        try done; intros _; by repeat constructor. }
    apply strip_by_Forall. apply sub_Forall; [by repeat constructor|].
    apply strip_by_Forall. apply sub_Forall; [by repeat constructor|].
    apply sub_Forall; [constructor|]. apply sub_Forall; [constructor|].
    apply sub_Forall; [by repeat constructor|].
    apply sub_Forall; [by repeat constructor|].
    apply sub_bullets_plain. }
  eapply Forall_impl; [exact H|]. intros c Hc. unfold plain in Hc.
  split; intros ->; discriminate.
Qed.

Lemma lit_here_Forall (P : ascii -> Prop) (ic : bool) (l s r : text) :
  Forall P s -> lit_here ic l s = Some r -> Forall P r.
Proof.
  revert s. induction l as [|a l IH]; intros s Hs H; cbn in H; [by injection H as <-|].
  destruct Hs as [|x s Hx Hs]; [done|]. destruct (cmatch ic (chr a) x); [|done].
  by eapply IH.
Qed.

Lemma star_greedy_Forall (P : ascii -> Prop) (ic : bool) (c : ascii -> bool)
    (k : text -> option text) (s r : text) :
  (forall s', Forall P s' -> k s' = Some r -> Forall P r) ->
  Forall P s -> star_greedy ic c k s = Some r -> Forall P r.
Proof.
  intros Hk Hs. induction Hs as [|x s Hx Hs IH]; cbn; [by apply Hk|].
  destruct (cmatch ic c x); [|by apply Hk; constructor].
  destruct (star_greedy ic c k s) as [r'|].
  - intros [= ->]. by apply IH.
  - by apply Hk; constructor.
Qed.

Lemma star_lazy_Forall (P : ascii -> Prop) (ic : bool) (c : ascii -> bool)
    (k : text -> option text) (s r : text) :
  (forall s', Forall P s' -> k s' = Some r -> Forall P r) ->
  Forall P s -> star_lazy ic c k s = Some r -> Forall P r.
Proof.
  intros Hk Hs. induction Hs as [|x s Hx Hs IH]; cbn.
  - destruct (k []) eqn:E; [|done]. intros [= ->]. by eapply Hk.
  - destruct (k (x :: s)) eqn:E; [intros [= ->]; eapply Hk; [|exact E]; by constructor|].
    destruct (cmatch ic c x); [|done]. exact IH.
Qed.

Lemma alt_lit_Forall (P : ascii -> Prop) (ic : bool) (ls : list text)
    (k : text -> option text) (s r : text) :
  (forall s', Forall P s' -> k s' = Some r -> Forall P r) ->
  Forall P s -> alt_lit ic ls k s = Some r -> Forall P r.
Proof.
  intros Hk Hs H. apply alt_lit_inv in H as (l & s' & _ & Hl & Hks).
  eapply Hk; [|exact Hks]. by eapply lit_here_Forall.
Qed.

(** What is left after a match is made of characters of the text. *)
Lemma match_here_Forall (P : ascii -> Prop) (ic : bool) (p : list atom) (s r : text) :
  Forall P s -> match_here ic p s = Some r -> Forall P r.
Proof.
  revert s. induction p as [|a p IH]; intros s Hs H; [by injection H as <-|].
  destruct a as [c|l|c|c|c|c|ls]; cbn [match_here] in H.
  - destruct Hs as [|x s Hx Hs]; [done|]. destruct (cmatch ic c x); [|done]. by eapply IH.
  - destruct (lit_here ic l s) as [s'|] eqn:El; [|done].
    eapply IH; [|exact H]. by eapply lit_here_Forall.
  - destruct Hs as [|x s Hx Hs]; [by eapply IH|].
    destruct (cmatch ic c x); [|by eapply IH; [constructor|]].
    destruct (match_here ic p s) as [r'|] eqn:E.
    + injection H as ->. by eapply IH.
    + by eapply IH; [constructor|].
  - eapply star_greedy_Forall; [|exact Hs|exact H]. intros s' Hs' Hr. by eapply IH.
  - destruct Hs as [|x s Hx Hs]; [done|]. destruct (cmatch ic c x); [|done].
    eapply star_greedy_Forall; [|exact Hs|exact H]. intros s' Hs' Hr. by eapply IH.
  - eapply star_lazy_Forall; [|exact Hs|exact H]. intros s' Hs' Hr. by eapply IH.
  - eapply alt_lit_Forall; [|exact Hs|exact H]. intros s' Hs' Hr. by eapply IH.
Qed.

Lemma sub_at_start_Forall (P : ascii -> Prop) (ic : bool) (p : list atom) (repl s : text) :
  Forall P repl -> Forall P s -> Forall P (sub_at_start ic p repl s).
Proof.
  intros Hrepl Hs. unfold sub_at_start.
  destruct (match_here ic p s) as [rest|] eqn:E; [|done].
  apply Forall_app. split; [done|]. by eapply match_here_Forall.
Qed.

Lemma removals_Forall (P : ascii -> Prop) (t : text) :
  P " "%char -> Forall P t -> Forall P (removals t).
Proof.
  intros Hblank Ht. unfold removals, _convert_bullets_to_text.
  apply sub_Forall; [constructor|]. apply sub_Forall; [constructor|].
  apply sub_Forall; [by repeat constructor|].
  apply sub_Forall; [by repeat constructor|].
  apply sub_Forall; [by repeat constructor|].
  assert (forall ps s, Forall P s ->
            Forall P (fold_left (fun cleaned pattern => sub true pattern [] cleaned) ps s))
    as Hchunk.
  { induction ps as [|q ps IH]; intros s0 Hs0; [done|]. cbn. apply IH.
    apply sub_Forall; [constructor|done]. }
  apply Hchunk.
  assert (forall ps s, Forall P s ->
            Forall P (fold_left (fun cleaned pattern => sub_at_start true pattern [] cleaned)
                        ps s))
    as Hverbose.
  { induction ps as [|q ps IH]; intros s0 Hs0; [done|]. cbn. apply IH.
    apply sub_at_start_Forall; [constructor|done]. }
  by apply Hverbose.
Qed.

(** In the domain of [PyStr.upper]: neither U+00B5 nor U+00FF. *)
Let in_domain (c : ascii) : Prop := c <> "181"%char /\ c <> "255"%char.

Lemma clean_in_domain (t : text) :
  Forall in_domain t -> Forall in_domain (_clean_chunk_references t).
Proof.
  intros Ht. rewrite clean_finish_removals. unfold finish.
  apply terminate_Forall; [by split|].
  apply capitalize_Forall.
  { intros c [H1 H2]. revert H1 H2. unfold in_domain.
    destruct c as [[] [] [] [] [] [] [] []]; vm_compute; intros H1 H2;
      try (by destruct H1); try (by destruct H2);
      repeat constructor; discriminate. }
  apply strip_by_Forall. apply sub_Forall; [by repeat constructor|].
  apply strip_by_Forall. apply sub_Forall; [by repeat constructor|].
  by apply removals_Forall.
Qed.

(** X10.  For a text without U+00B5 and U+00FF, the two characters whose
    upper-case forms are not 8-bit characters, the cleaned text has neither
    of them, and it is empty, or: it ends with [.], [!] or [?]; its first
    character is its own upper-case form, so no letter that has a capital,
    and is no blank, full stop or comma; it has no white space but single
    blanks, and no two full stops in a row. *)
Theorem clean_shape (t : text) :
  Forall (fun c => c <> "181"%char /\ c <> "255"%char) t ->
  let r := _clean_chunk_references t in
  Forall (fun c => c <> "181"%char /\ c <> "255"%char) r
  /\ (r = []
      \/ (PyStr.ends_with_any (txt ".!?") r = true
          /\ (forall c, head r = Some c ->
                PyStr.upper [c] = [c] /\ PyStr.char_in (txt " .,") c = false)
          /\ blanks_single r
          /\ no_adj (chr ".") r = true)).
Proof.
  intros Ht r. split; [by apply clean_in_domain|].
  subst r. rewrite clean_finish_removals.
  destruct (finish_shape (removals t)) as [->|(y & Hcore & ->)]; [by left|]. right.
  pose proof Hcore as (Hne & Hblank & Hdots & Hhead & Hlast).
  destruct (terminate_ends y) as [Hnil|Hends].
  { destruct y; [done|]. unfold terminate in Hnil.
    destruct (PyStr.ends_with_any _ _); [done|]. by destruct y. }
  split; [done|]. split; [|split; [by apply core_blanks_single|]].
  - intros c Hc. destruct (terminate_cases y Hne) as [[Heq _]|[Heq _]];
      rewrite Heq in Hc.
    + destruct (Hhead c Hc). done.
    + destruct y as [|x y]; [done|]. cbn in Hc. destruct (Hhead c Hc). done.
  - destruct (terminate_cases y Hne) as [[Heq _]|[Heq Hl]]; rewrite Heq; [done|].
    apply no_adj_app. split; [done|]. split; [done|].
    intros x z Hx [= <-]. specialize (Hl x Hx).
    apply andb_false_iff. left. unfold chr. revert Hl. clear. by_char x.
Qed.

End CleanShape.

(** ** Optimizer: the cache *)

Lemma pretty_N_go_chars (P : ascii -> Prop) (x : N) (s : string) :
  (forall d, P (pretty_N_char d)) ->
  Forall P (txt s) -> Forall P (txt (pretty_N_go x s)).
Proof.
  intros Hd. revert s. induction (N.lt_wf_0 x) as [x _ IH]; intros s Hs.
  assert (x = 0 \/ 0 < x)%N as [->|Hx] by lia.
  - by rewrite pretty_N_go_0.
  - rewrite pretty_N_go_step by done. apply IH.
    + by apply N.div_lt.
    + by constructor.
Qed.

Lemma pretty_Z_chars (z : Z) : Forall (fun c => c <> ":"%char) (txt (pretty z)).
Proof.
  assert (forall d, pretty_N_char d <> ":"%char) as Hd.
  { intros d. unfold pretty_N_char. by repeat case_match. }
  assert (forall x, Forall (fun c => c <> ":"%char) (txt (pretty_N_go x ""))) as Hgo.
  { intros x. apply pretty_N_go_chars; [done|constructor]. }
  destruct z as [|p|p]; unfold pretty, pretty_Z.
  - by repeat constructor.
  - unfold pretty, pretty_positive, pretty, pretty_N. case_decide; [done|apply Hgo].
  - unfold pretty, pretty_positive, pretty, pretty_N. case_decide; [done|].
    constructor; [done|apply Hgo].
Qed.

Lemma txt_inj (s s' : string) : txt s = txt s' -> s = s'.
Proof.
  unfold txt. intros H.
  by rewrite <- (string_of_list_ascii_of_string s), H, string_of_list_ascii_of_string.
Qed.

(** A text is split in one way only at its last occurrence of [c]. *)
Lemma split_at_last (c : ascii) (l l' r r' : text) :
  Forall (fun x => x <> c) r -> Forall (fun x => x <> c) r' ->
  l ++ c :: r = l' ++ c :: r' -> l = l' /\ r = r'.
Proof.
  assert (forall a a' m m' : text,
            Forall (fun x => x <> c) a -> Forall (fun x => x <> c) a' ->
            a ++ c :: m = a' ++ c :: m' -> a = a' /\ m = m') as Hfront.
  { induction a as [|x a IH]; intros [|y a'] m m' Ha Ha' H; cbn in H.
    - by injection H as ->.
    - injection H as <- _. by inversion Ha'.
    - injection H as -> _. by inversion Ha.
    - injection H as -> H. inversion Ha; inversion Ha'; subst.
      destruct (IH _ _ _ ltac:(done) ltac:(done) H) as [-> ->]. done. }
  intros Hr Hr' H. apply (f_equal reverse) in H.
  rewrite !reverse_app, !reverse_cons, <- !app_assoc in H. cbn in H.
  apply Hfront in H as [H1 H2]; [|by apply Forall_reverse..].
  split; by apply (inj reverse).
Qed.

Section CacheMore.

Import QueryOptimizer.

Variable hash : text -> Z.

Lemma cache_key_eq (query document_url query' document_url' : text) :
  cache_key hash query document_url = cache_key hash query' document_url'
  <-> document_url = document_url' /\ hash query = hash query'.
Proof.
  unfold cache_key. split.
  - intros H. apply split_at_last in H as [Hurl Hh]; [|apply pretty_Z_chars..].
    split; [done|]. by apply (inj pretty), txt_inj.
  - by intros [-> ->].
Qed.

(** X11.  What [cache_result] stored under a document and a question is
    what [get_cached_result] gives for every question with the same hash on
    the same document, and for no other pair: for those the cache answers
    as before the write.  A pair the cache has no entry for is a [KeyError];
    where [should_use_cache] says yes there is an entry. *)
Theorem cache_entries_shared_by_hash (query document_url res : text) (now : PrimFloat.float)
    (query_cache : gmap text cache_entry) (query' document_url' : text) :
  get_cached_result hash query' document_url'
    (cache_result hash query document_url res now query_cache)
  = (if bool_decide (document_url' = document_url /\ hash query' = hash query)
     then Some res
     else get_cached_result hash query' document_url' query_cache)
  /\ get_cached_result hash query' document_url' ∅ = None
  /\ (forall at_, should_use_cache hash query' document_url' at_ query_cache = true ->
        is_Some (get_cached_result hash query' document_url' query_cache)).
Proof.
  unfold get_cached_result, cache_result, should_use_cache. split; [|split].
  - case_bool_decide as Hsame.
    + apply cache_key_eq in Hsame. rewrite Hsame. by rewrite lookup_insert_eq.
    + rewrite lookup_insert_ne; [done|]. intros Heq. apply Hsame.
      by apply cache_key_eq.
  - by rewrite lookup_empty.
  - intros at_. destruct (query_cache !! _); [by eexists|done].
Qed.

End CacheMore.

(** ** Optimizer: similarity and selection *)

Section SelectionMore.

Import QueryOptimizer.

Lemma size_pos_of_nat (n : nat) : (0 < n)%nat -> Z.pos (Pos.of_nat n) = Z.of_nat n.
Proof. intros H. rewrite <- positive_nat_Z, Nat2Pos.id by lia. done. Qed.

(** X12.  The word similarity is symmetric and lies between 0 and 1; a text
    compared with itself has similarity 1 when it has a word and 0 when it
    has none. *)
Theorem text_similarity_facts (text1 text2 : text) :
  _calculate_text_similarity text1 text2 = _calculate_text_similarity text2 text1
  /\ (0 <= _calculate_text_similarity text1 text2 <= 1)%Q
  /\ (_calculate_text_similarity text1 text1
      == if bool_decide (word_set text1 = ∅) then 0 else 1)%Q.
Proof.
  unfold _calculate_text_similarity. split; [|split].
  - rewrite (comm_L (∪) (word_set text2)), (comm_L (∩) (word_set text2)). done.
  - case_bool_decide as Hne; [done|].
    set (a := word_set text1) in *. set (b := word_set text2) in *.
    assert (size (a ∩ b) <= size (a ∪ b))%nat as Hle
      by (apply subseteq_size; etrans;
          [apply intersection_subseteq_l|apply union_subseteq_l]).
    assert (0 < size (a ∪ b))%nat as Hpos.
    { destruct (size (a ∪ b)) eqn:E; [|lia]. apply size_empty_inv in E.
      destruct Hne. by apply leibniz_equiv. }
    unfold Qle. cbn [Qnum Qden]. rewrite size_pos_of_nat by done. lia.
  - rewrite (idemp_L (∪)), (idemp_L (∩)).
    case_bool_decide as Hne; [done|].
    assert (0 < size (word_set text1))%nat as Hpos.
    { destruct (size (word_set text1)) eqn:E; [|lia]. apply size_empty_inv in E.
      destruct Hne. by apply leibniz_equiv. }
    unfold Qeq. cbn [Qnum Qden]. rewrite size_pos_of_nat by done. lia.
Qed.

Lemma StronglySorted_sublist {A} (R : relation A) (l1 l2 : list A) :
  l1 `sublist_of` l2 -> StronglySorted R l2 -> StronglySorted R l1.
Proof.
  induction 1 as [|x l1 l2 Hsub IH|x l1 l2 Hsub IH]; intros Hs; [done|..].
  - apply StronglySorted_inv in Hs as [Hs Hx].
    constructor; [by apply IH|].
    rewrite Forall_forall in Hx. apply Forall_forall. intros y Hy.
    apply Hx. by eapply elem_of_sublist.
  - apply StronglySorted_inv in Hs as [Hs _]. by apply IH.
Qed.

Lemma sorted_desc_fixed (l : list ClauseMatch.t) :
  StronglySorted before l -> sorted_desc l = l.
Proof.
  induction 1 as [|x l Hl IH Hx]; [done|]. cbn. unfold sorted_desc in IH. rewrite IH.
  destruct l as [|y l]; [done|]. cbn.
  inversion Hx as [|? ? Hy _]; subst.
  replace (Qlt_bool _ _) with false; [done|].
  symmetry. by apply Qlt_bool_false_iff.
Qed.

Lemma greedy_diverse_all (selected candidates : list ClauseMatch.t) :
  pairwise_diverse (selected ++ candidates) ->
  (length (selected ++ candidates) <= 5)%nat ->
  greedy_diverse selected candidates = selected ++ candidates.
Proof.
  revert selected. induction candidates as [|c cs IH]; intros selected Hd Hlen.
  - rewrite app_nil_r. cbn [greedy_diverse]. by destruct (5 <=? length selected)%nat.
  - rewrite length_app in Hlen. cbn in Hlen. cbn [greedy_diverse].
    replace (5 <=? length selected)%nat with false by (symmetry; apply Nat.leb_gt; lia).
    assert (admissible c selected = true) as ->.
    { unfold admissible. apply forallb_forall. intros s Hs.
      apply list_elem_of_In, list_elem_of_lookup_1 in Hs as [i Hi].
      apply Qle_bool_iff.
      apply (Hd i (length selected) s c).
      - by apply lookup_lt_Some in Hi.
      - by rewrite lookup_app_l by (by apply lookup_lt_Some in Hi).
      - by rewrite list_lookup_middle. }
    rewrite IH.
    + by rewrite <- app_assoc.
    + by rewrite <- app_assoc.
    + rewrite <- app_assoc, length_app. cbn. lia.
Qed.

(** X13.  Selecting twice is selecting once: on its own result,
    [optimize_chunk_selection] changes nothing. *)
Theorem optimize_chunk_selection_idempotent (chunks : list ClauseMatch.t) (query query' : text) :
  optimize_chunk_selection (optimize_chunk_selection chunks query) query'
  = optimize_chunk_selection chunks query.
Proof.
  destruct (length chunks <=? 3)%nat eqn:Hlen.
  { assert (forall q, optimize_chunk_selection chunks q = chunks) as Hsame
      by (intros q; unfold optimize_chunk_selection; by rewrite Hlen).
    by rewrite !Hsame. }
  destruct (sorted_desc chunks) as [|best rest] eqn:Hs.
  { assert (optimize_chunk_selection chunks query = []) as ->
      by (unfold optimize_chunk_selection; by rewrite Hlen, Hs).
    done. }
  assert (optimize_chunk_selection chunks query = greedy_diverse [best] rest) as ->.
  { unfold optimize_chunk_selection. rewrite Hlen, Hs.
    apply select_loop_greedy. cbn. lia. }
  set (R := greedy_diverse [best] rest).
  assert (StronglySorted before R) as Hsorted.
  { eapply StronglySorted_sublist; [apply (greedy_diverse_sublist [best] rest)|].
    cbn. rewrite <- Hs. apply sorted_desc_sorted. }
  assert (pairwise_diverse R) as Hdiv.
  { apply greedy_diverse_pairwise. intros i j a b Hij Ha Hb.
    apply lookup_lt_Some in Hb. cbn in Hb. lia. }
  assert (length R <= 5)%nat as Hfive by (apply greedy_diverse_length; cbn; lia).
  unfold optimize_chunk_selection.
  destruct (length R <=? 3)%nat; [done|].
  rewrite (sorted_desc_fixed R Hsorted).
  destruct R as [|b r]; [done|].
  rewrite select_loop_greedy by (cbn; lia).
  by apply (greedy_diverse_all [b] r).
Qed.

End SelectionMore.

(** ** Document loader *)

Section ChunkMetadata.

Import DocumentProcessor.

Variable uuid4 : nat -> text.
Variable chunk_size chunk_overlap : Z.

Lemma _chunk_text_returns (raw : text) (md : gmap text value) (k : nat) :
  exists cs k', _chunk_text uuid4 chunk_size chunk_overlap raw md k = Some (cs, k').
Proof.
  unfold _chunk_text.
  destruct (PyStr.len (normalize raw) <=? chunk_size); [by eexists _, _|].
  destruct (chunk_loop_finishes uuid4 chunk_size chunk_overlap
              (S (length (normalize raw))) (normalize raw) md (mk_loop 0 0 [] k))
    as (st' & -> & _).
  { cbn [start]. unfold PyStr.len. lia. }
  by eexists _, _.
Qed.

(** On both paths a chunk is a piece of the normalized text and carries
    the metadata of the call. *)
Lemma _chunk_text_chunks (raw : text) (md : gmap text value) (k k' : nat)
    (cs : list DocumentChunk.t) :
  _chunk_text uuid4 chunk_size chunk_overlap raw md k = Some (cs, k') ->
  Forall (fun c => kept_metadata md c
                   /\ part_of (DocumentChunk.content c) (normalize raw)) cs.
Proof.
  intros H. pose proof H as H'. unfold _chunk_text in H.
  destruct (PyStr.len (normalize raw) <=? chunk_size) eqn:E.
  - injection H as <- <-. constructor; [|constructor]. cbn. split; [done|].
    by exists [], []; rewrite app_nil_r.
  - apply Z.leb_gt in E.
    destruct (loop_chunks_numbered uuid4 chunk_size chunk_overlap raw md k k' cs E H')
      as (Hnum & _ & _).
    destruct (chunk_loop _ _ _ _ _ _ _) as [st'|] eqn:Hloop; [|done].
    injection H as <- <-.
    apply (chunk_loop_invariant uuid4 chunk_size chunk_overlap
             (fun s => Forall (fun c => part_of (DocumentChunk.content c) (normalize raw))
                         (chunks s)))
      in Hloop as [Hparts _].
    + apply Forall_forall. intros c Hc.
      rewrite Forall_forall in Hnum. rewrite Forall_forall in Hparts.
      destruct (Hnum c Hc) as (n & Hmd & Hpage). split; [|by apply Hparts].
      split; [done|]. intros key Hkey. rewrite Hmd. by rewrite lookup_insert_ne.
    + intros s Hs _. unfold chunk_step.
      destruct (bool_decide _); cbn [chunks generate_chunk_id]; [done|].
      apply Forall_app. split; [done|]. constructor; [|constructor]. cbn.
      eapply part_of_trans; [apply strip_by_part_of|apply slice_part_of].
    + constructor.
Qed.

End ChunkMetadata.

Section LoaderFacts.

Import DocumentLoader.

Variables World Bytes Page : Type.
Variable uuid4 : nat -> text.
Variables chunk_size chunk_overlap : Z.
Variable requests_get : text -> Eff.M World (response Bytes).
Variable raise_for_status : response Bytes -> option exn.
Variable PdfReader : Bytes -> result (list Page).
Variable extract_text : Page -> result text.
Variable Document : Bytes -> result (list text).
Variable _process_email : text -> Eff.M (nat * World) (list DocumentChunk.t).

Let chunk_text := chunk_text (World := World) uuid4 chunk_size chunk_overlap.
Let pdf_pages := pdf_pages (World := World) uuid4 chunk_size chunk_overlap extract_text.
Let _process_pdf :=
  _process_pdf (World := World) uuid4 chunk_size chunk_overlap PdfReader extract_text.
Let process_document :=
  process_document uuid4 chunk_size chunk_overlap requests_get raise_for_status
    PdfReader extract_text Document _process_email.

(** A call of the chunker from the loader returns; it draws one identifier
    for each chunk and leaves the world alone. *)
Lemma chunk_text_run (raw : text) (md : gmap text value) (k : nat) (w : World) :
  exists cs,
    chunk_text raw md (k, w) = (inr cs, ((k + length cs)%nat, w))
    /\ DocumentProcessor._chunk_text uuid4 chunk_size chunk_overlap raw md k
       = Some (cs, (k + length cs)%nat).
Proof.
  destruct (_chunk_text_returns uuid4 chunk_size chunk_overlap raw md k) as (cs & k' & H).
  destruct (chunk_ids_aux uuid4 chunk_size chunk_overlap raw md k k' cs H) as (-> & _).
  exists cs. split; [|done].
  unfold chunk_text, DocumentLoader.chunk_text. cbn [fst snd]. by rewrite H.
Qed.

(** The chunk comes from the page at index [i] of [pages], counted from
    [first]. *)
Let of_page (first : Z) (pages : list Page) (c : DocumentChunk.t) : Prop :=
  exists (i : nat) page text,
    pages !! i = Some page
    /\ extract_text page = inr text
    /\ PyStr.strip text <> []
    /\ DocumentChunk.page_number c = Some (first + Z.of_nat i + 1)
    /\ DocumentChunk.metadata c !! txt "document_type" = Some (VStr (txt "pdf"))
    /\ part_of (DocumentChunk.content c) (DocumentProcessor.normalize text).

Lemma pdf_pages_run (pages : list Page) (page_num : Z) (acc chunks : list DocumentChunk.t)
    (k : nat) (w : World) (s' : nat * World) :
  pdf_pages page_num pages acc (k, w) = (inr chunks, s') ->
  exists new,
    chunks = acc ++ new
    /\ s' = ((k + length new)%nat, w)
    /\ map DocumentChunk.chunk_id new = map uuid4 (seq k (length new))
    /\ Forall (of_page page_num pages) new.
Proof.
  revert page_num acc k. induction pages as [|page pages IH]; intros page_num acc k H.
  - injection H as <- <-. exists []. rewrite app_nil_r, Nat.add_0_r. by repeat split.
  - unfold pdf_pages in H. cbn [DocumentLoader.pdf_pages] in H. fold pdf_pages in H.
    unfold Eff.bind at 1 in H. unfold lift in H.
    destruct (extract_text page) as [e|text] eqn:Htext; [done|].
    assert (forall l, Forall (of_page (page_num + 1) pages) l ->
                      Forall (of_page page_num (page :: pages)) l) as Hshift.
    { intros l Hl. eapply Forall_impl; [exact Hl|]. intros c (i & pg & tx & Hi & Hrest).
      exists (S i), pg, tx. split; [done|].
      replace (page_num + Z.of_nat (S i) + 1) with (page_num + 1 + Z.of_nat i + 1) by lia.
      done. }
    case_bool_decide as Hblank.
    + apply IH in H as (new & -> & -> & Hids & Hall).
      exists new. repeat split; [done|]. by apply Hshift.
    + destruct (chunk_text_run text (pdf_metadata page_num) k w) as (cs & Hrun & Hsome).
      fold chunk_text in H. rewrite (bind_ok _ _ _ _ _ Hrun) in H.
      apply IH in H as (new & -> & -> & Hids & Hall).
      destruct (chunk_ids_aux uuid4 chunk_size chunk_overlap _ _ _ _ _ Hsome)
        as (_ & Hcs & _).
      pose proof (_chunk_text_chunks uuid4 chunk_size chunk_overlap _ _ _ _ _ Hsome)
        as Hmeta.
      exists (cs ++ new). rewrite <- app_assoc, length_app.
      split; [done|]. split; [f_equal; lia|]. split.
      * rewrite map_app, seq_app, map_app, Hcs, Hids. done.
      * apply Forall_app. split; [|by apply Hshift].
        eapply Forall_impl; [exact Hmeta|]. intros c [[Hpage Hkeys] Hpart].
        exists O, page, text. split; [done|]. split; [done|]. split; [done|].
        split; [|split; [|done]].
        -- rewrite Hpage. unfold DocumentProcessor.get_page_number, pdf_metadata.
           rewrite lookup_insert_eq. f_equal. lia.
        -- rewrite Hkeys by (intros Heq; by apply (f_equal length) in Heq).
           unfold pdf_metadata. rewrite lookup_insert_ne
             by (intros Heq; by apply (f_equal length) in Heq).
           by rewrite lookup_singleton_eq.
Qed.

Lemma pdf_pages_blank (pages : list Page) (page_num : Z) (acc : list DocumentChunk.t)
    (s : nat * World) :
  Forall (fun page => exists text, extract_text page = inr text /\ PyStr.strip text = [])
    pages ->
  pdf_pages page_num pages acc s = (inr acc, s).
Proof.
  intros H. revert page_num. induction H as [|page pages (text & Htext & Hblank) _ IH];
    intros page_num; [done|].
  unfold pdf_pages. cbn [DocumentLoader.pdf_pages]. fold pdf_pages.
  unfold Eff.bind at 1. unfold lift. rewrite Htext.
  rewrite bool_decide_eq_true_2 by done. apply IH.
Qed.

(** X14.  The chunks of a PDF: each comes from one page whose text is not
    blank, is a piece of the normalized text of that page, and carries the
    1-based number of the page and the document type [pdf]; the identifiers
    are consecutive draws over the whole document, and nothing but the
    identifier count changes. *)
Theorem pdf_chunks_by_page (file_stream : Bytes) (pages : list Page)
    (chunks : list DocumentChunk.t) (k : nat) (w : World) (s' : nat * World) :
  PdfReader file_stream = inr pages ->
  _process_pdf file_stream (k, w) = (inr chunks, s') ->
  s' = ((k + length chunks)%nat, w)
  /\ map DocumentChunk.chunk_id chunks = map uuid4 (seq k (length chunks))
  /\ Forall (fun c =>
       exists (i : nat) page text,
         pages !! i = Some page
         /\ extract_text page = inr text
         /\ PyStr.strip text <> []
         /\ DocumentChunk.page_number c = Some (Z.of_nat i + 1)
         /\ DocumentChunk.metadata c !! txt "document_type" = Some (VStr (txt "pdf"))
         /\ part_of (DocumentChunk.content c) (DocumentProcessor.normalize text)) chunks.
Proof.
  intros Hpdf H. unfold _process_pdf, DocumentLoader._process_pdf in H.
  rewrite catch_reraise in H. unfold Eff.bind at 1 in H. unfold lift in H.
  rewrite Hpdf in H. fold pdf_pages in H.
  apply pdf_pages_run in H as (new & -> & -> & Hids & Hall). cbn [app].
  split; [done|]. split; [done|].
  eapply Forall_impl; [exact Hall|]. intros c (i & page & text & H1 & H2 & H3 & H4 & H5).
  exists i, page, text. by rewrite Z.add_0_l in H4.
Qed.

Lemma process_document_run (url : text) (k : nat) (w w1 : World) (resp : response Bytes) :
  requests_get url w = (inr resp, w1) ->
  raise_for_status resp = None ->
  let content_type := PyStr.lower (default [] (content_type resp)) in
  process_document url (k, w)
  = if contains (txt "pdf") content_type || endswith (PyStr.lower url) (txt ".pdf")
    then _process_pdf (content resp) (k, w1)
    else if contains (txt "word") content_type
            || (endswith (PyStr.lower url) (txt ".docx")
                || endswith (PyStr.lower url) (txt ".doc"))
    then _process_docx uuid4 chunk_size chunk_overlap Document (content resp) (k, w1)
    else _process_text uuid4 chunk_size chunk_overlap _process_email (text_ resp) (k, w1).
Proof.
  intros Hget Hstatus content_type.
  unfold process_document, DocumentLoader.process_document. rewrite catch_reraise.
  rewrite (bind_ok _ _ _ _ _ (on_snd_run _ k _ _ _ Hget)). rewrite Hstatus.
  fold content_type. fold _process_pdf.
  destruct (_ || _); [done|]. destruct (_ || _); [done|]. by destruct (_ || _).
Qed.

Lemma blank_has_no_at (t : text) :
  Forall (fun x => PyStr.isspace x = true) t -> contains (txt "@") t = false.
Proof.
  induction 1 as [|x t Hx _ IH]; [done|]. cbn [contains]. rewrite IH.
  change (txt "@") with ["@"%char]. cbn [startswith].
  destruct (Ascii.eqb "@"%char x) eqn:E; [|done].
  apply Ascii.eqb_eq in E. by subst.
Qed.

Lemma chunk_text_blank (raw : text) (md : gmap text value) (k : nat) (w : World) :
  0 <= chunk_size ->
  Forall (fun x => PyStr.isspace x = true) raw ->
  chunk_text raw md (k, w)
  = (inr [DocumentChunk.mk [] md (uuid4 k) (DocumentProcessor.get_page_number md)], (S k, w)).
Proof.
  intros Hcs Hraw. apply normalize_blank in Hraw.
  unfold chunk_text, DocumentLoader.chunk_text, DocumentProcessor._chunk_text.
  cbn [fst snd]. rewrite Hraw. change (PyStr.len []) with 0.
  by replace (0 <=? chunk_size) with true by (symmetry; apply Z.leb_le; lia).
Qed.

Lemma filter_blank_paragraphs (paragraphs : list text) :
  Forall (fun paragraph => PyStr.strip paragraph = []) paragraphs ->
  filter (fun paragraph => PyStr.strip paragraph <> []) paragraphs = [].
Proof.
  induction 1 as [|p ps Hp _ IH]; [done|].
  rewrite filter_cons. by destruct (decide _).
Qed.

Variable Index : Type.
Variable create_embeddings :
  list DocumentChunk.t -> Eff.M (EmbeddingService.state Index * (nat * World)) unit.
Variable search_similar_chunks :
  text -> option Z -> Eff.M (EmbeddingService.state Index * (nat * World)) (list ClauseMatch.t).
Variable generate_answer : text -> list ClauseMatch.t -> Eff.M (nat * World) text.

(** X15.  A PDF none of whose pages has text is rejected: the loader
    returns no chunk and draws no identifier, and [process_queries] raises
    the [ValueError] for a document without content, the processor being as
    it was. *)
Theorem blank_pdf_is_rejected (url : text) (questions : list text)
    (st : QueryProcessor.state Index) (k : nat) (w w1 : World) (resp : response Bytes)
    (pages : list Page) :
  QueryProcessor._current_document_url st <> Some url ->
  requests_get url w = (inr resp, w1) ->
  raise_for_status resp = None ->
  contains (txt "pdf") (PyStr.lower (default [] (content_type resp)))
  || endswith (PyStr.lower url) (txt ".pdf") = true ->
  PdfReader (content resp) = inr pages ->
  Forall (fun page => exists text, extract_text page = inr text /\ PyStr.strip text = [])
    pages ->
  process_document url (k, w) = (inr [], (k, w1))
  /\ QueryProcessor.process_queries process_document create_embeddings
       search_similar_chunks generate_answer url questions (st, (k, w))
     = (inl (ValueError (txt "No content extracted from document")), (st, (k, w1))).
Proof.
  intros Hurl Hget Hstatus Hpdf Hread Hblank.
  assert (process_document url (k, w) = (inr [], (k, w1))) as Hdoc.
  { rewrite (process_document_run url k w w1 resp Hget Hstatus). cbv zeta. rewrite Hpdf.
    unfold _process_pdf, DocumentLoader._process_pdf. rewrite catch_reraise.
    unfold Eff.bind at 1. unfold lift. rewrite Hread.
    by apply pdf_pages_blank. }
  split; [done|].
  rewrite process_queries_unfold. cbn [fst]. rewrite bool_decide_eq_false_2 by done.
  by rewrite (_process_document_no_chunks _ _ _ _ url st (k, w) (k, w1) Hdoc).
Qed.

(** X16.  A blank DOCX or text document is not rejected: with a window
    of at least zero characters, a DOCX without a paragraph that has text,
    and a text that is white space throughout, give one chunk each, with an
    empty content. *)
Theorem blank_text_is_one_empty_chunk (url : text) (k : nat) (w w1 : World)
    (resp : response Bytes) :
  0 <= chunk_size ->
  requests_get url w = (inr resp, w1) ->
  raise_for_status resp = None ->
  contains (txt "pdf") (PyStr.lower (default [] (content_type resp)))
  || endswith (PyStr.lower url) (txt ".pdf") = false ->
  let word :=
    contains (txt "word") (PyStr.lower (default [] (content_type resp)))
    || (endswith (PyStr.lower url) (txt ".docx") || endswith (PyStr.lower url) (txt ".doc")) in
  (word = true ->
   forall paragraphs,
     Document (content resp) = inr paragraphs ->
     Forall (fun paragraph => PyStr.strip paragraph = []) paragraphs ->
     process_document url (k, w)
     = (inr [DocumentChunk.mk [] {[ txt "document_type" := VStr (txt "docx") ]} (uuid4 k) None],
        (S k, w1)))
  /\ (word = false ->
      Forall (fun x => PyStr.isspace x = true) (text_ resp) ->
      process_document url (k, w)
      = (inr [DocumentChunk.mk [] {[ txt "document_type" := VStr (txt "text") ]} (uuid4 k) None],
         (S k, w1))).
Proof.
  intros Hcs Hget Hstatus Hpdf word.
  pose proof (process_document_run url k w w1 resp Hget Hstatus) as Hrun.
  cbv zeta in Hrun. rewrite Hpdf in Hrun. fold word in Hrun. split.
  - intros Hword paragraphs Hdoc Hblank. rewrite Hrun, Hword.
    unfold _process_docx. rewrite catch_reraise.
    unfold Eff.bind at 1. unfold lift. rewrite Hdoc.
    rewrite (filter_blank_paragraphs _ Hblank). cbn [LLMService.join].
    fold chunk_text. by rewrite chunk_text_blank.
  - intros Hword Hblank. rewrite Hrun, Hword.
    unfold _process_text. rewrite catch_reraise.
    rewrite (blank_has_no_at _ Hblank). cbn [andb].
    fold chunk_text. by rewrite chunk_text_blank.
Qed.

End LoaderFacts.

Lemma pdf_chunks_by_page_witness :
  let pages := [txt "The grace period is 30 days."; txt " ";
                txt "Claims must be filed within 90 days."] in
  exists chunks s',
    DocumentLoader._process_pdf Pipeline.uuid4 1000 200 inr inr pages (4%nat, tt)
    = (inr chunks, s')
    /\ s' = ((4 + length chunks)%nat, tt)
    /\ map DocumentChunk.page_number chunks = [Some 1; Some 3].
Proof.
  intros pages. eexists _, _. split; [vm_compute; reflexivity|].
  split; [|vm_compute; reflexivity].
  refine (proj1 (pdf_chunks_by_page unit (list text) text Pipeline.uuid4 1000 200 inr inr
                   pages pages _ 4%nat tt _ _ _)); [reflexivity|vm_compute; reflexivity].
Defined.

Lemma blank_pdf_is_rejected_witness :
  QueryProcessor.process_queries LoaderDemo.process_document
    (fun _ => Eff.ret tt) (fun _ _ => Eff.ret []) (fun _ _ => Eff.ret [])
    (txt "http://host/blank.pdf") [txt "q1"] (Demo.idle, (0%nat, tt))
  = (inl (ValueError (txt "No content extracted from document")), (Demo.idle, (0%nat, tt))).
Proof.
  refine (proj2 (blank_pdf_is_rejected unit (list text) text Pipeline.uuid4 1000 200
                   LoaderDemo.requests_get (fun _ => None) inr inr inr (fun _ => Eff.ret [])
                   unit (fun _ => Eff.ret tt) (fun _ _ => Eff.ret []) (fun _ _ => Eff.ret [])
                   (txt "http://host/blank.pdf") [txt "q1"] Demo.idle 0%nat tt tt
                   (DocumentLoader.mk_response (Some (txt "application/pdf")) [txt " "; []] [])
                   [txt " "; []] _ _ _ _ _ _));
    [discriminate|reflexivity|reflexivity|reflexivity|reflexivity|].
  repeat constructor; eexists; (split; [reflexivity|vm_compute; reflexivity]).
Defined.

Lemma blank_text_is_one_empty_chunk_witness :
  LoaderDemo.process_document (txt "http://host/blank.txt") (0%nat, tt)
  = (inr [DocumentChunk.mk [] {[ txt "document_type" := VStr (txt "text") ]}
            (Pipeline.uuid4 0) None], (1%nat, tt)).
Proof.
  refine (proj2 (blank_text_is_one_empty_chunk unit (list text) text Pipeline.uuid4 1000 200
                   LoaderDemo.requests_get (fun _ => None) inr inr inr (fun _ => Eff.ret [])
                   (txt "http://host/blank.txt") 0%nat tt tt
                   (DocumentLoader.mk_response (Some (txt "text/plain")) [] (txt "   "))
                   _ _ _ _) _ _);
    [lia|reflexivity|reflexivity|reflexivity|reflexivity|].
  repeat constructor.
Defined.

(** ** Callers of the orchestrator: the endpoint and the batch runner *)

Section CallerFacts.

Variables World Index : Type.
Variable process_document : text -> Eff.M World (list DocumentChunk.t).
Variable create_embeddings :
  list DocumentChunk.t -> Eff.M (EmbeddingService.state Index * World) unit.
Variable search_similar_chunks :
  text -> option Z -> Eff.M (EmbeddingService.state Index * World) (list ClauseMatch.t).
Variable generate_answer : text -> list ClauseMatch.t -> Eff.M World text.

Let process_queries :=
  QueryProcessor.process_queries process_document create_embeddings
    search_similar_chunks generate_answer.
Let _process_document :=
  QueryProcessor._process_document process_document create_embeddings.

(** [process_queries] returns one answer for each question, or raises what
    [_process_document] raised for a document that was not the current
    one. *)
Lemma process_queries_outcome (url : text) (questions : list text)
    (s : QueryProcessor.state Index * World) :
  match process_queries url questions s with
  | (inr answers, _) => length answers = length questions
  | (inl e, s') =>
      QueryProcessor._current_document_url s.1 <> Some url
      /\ _process_document url s = (inl e, s')
  end.
Proof.
  unfold process_queries. rewrite process_queries_unfold.
  fold _process_document. case_bool_decide as Hcur.
  - destruct (answer_all_answered _ _ search_similar_chunks generate_answer questions [] s)
      as (answers & s1 & -> & Hans).
    by apply answered_length in Hans.
  - destruct (_process_document url s) as [[e|[]] s1]; [done|].
    destruct (answer_all_answered _ _ search_similar_chunks generate_answer questions []
                (QueryProcessor.mk_state (Some url) (QueryProcessor.embedding_service s1.1),
                 s1.2))
      as (answers & s2 & -> & Hans).
    by apply answered_length in Hans.
Qed.

Section Endpoint.

Variable API_TOKEN : text.

Let endpoint :=
  Api.process_queries API_TOKEN process_document create_embeddings
    search_similar_chunks generate_answer.

(** X17.  The query endpoint answers in one of three ways.  With a token
    other than the configured one: status 401, and the processor and the
    world are as before.  With the right token: a response with one answer
    for each question, or status 500 with the detail
    [Error processing queries: <message>], and this only when the document
    was not the current one and [_process_document] raised; a question that
    fails never makes the request fail. *)
Theorem endpoint_responses (request : Api.QueryRequest) (credentials : text)
    (s : QueryProcessor.state Index * World) :
  match endpoint request credentials s with
  | (inr response, _) =>
      credentials = API_TOKEN
      /\ length (Api.answers response) = length (Api.questions request)
  | (inl e, s') =>
      (credentials <> API_TOKEN
       /\ e = Api.mk_http 401 (txt "Invalid authentication credentials")
       /\ s' = s)
      \/ (credentials = API_TOKEN
          /\ QueryProcessor._current_document_url s.1 <> Some (Api.documents request)
          /\ exists raised,
               _process_document (Api.documents request) s = (inl raised, s')
               /\ e = Api.mk_http 500 (txt "Error processing queries: " ++ exn_str raised))
  end.
Proof.
  unfold endpoint, Api.process_queries, Api.verify_token.
  case_bool_decide as Htoken; [by left|].
  pose proof (process_queries_outcome (Api.documents request) (Api.questions request) s)
    as Hout.
  fold process_queries.
  destruct (process_queries _ _ s) as [[raised|answers] s'].
  - right. destruct Hout as [Hcur Hdoc]. split; [done|]. split; [done|]. by exists raised.
  - done.
Qed.

End Endpoint.

Section Batch.

Variable Time : Type.
Variable load_batch : text -> Eff.M World (list BatchProcessor.doc_data).
Variable time : World -> Time.
Variable minus : Time -> Time -> Time.

Let process_doc :=
  BatchProcessor.process_doc time minus process_document create_embeddings
    search_similar_chunks generate_answer.
Let process_docs :=
  BatchProcessor.process_docs time minus process_document create_embeddings
    search_similar_chunks generate_answer.
Let process_batch_file :=
  BatchProcessor.process_batch_file load_batch time minus process_document create_embeddings
    search_similar_chunks generate_answer.

(** The entry [r] is the one of the document [doc]. *)
Let entry_of (doc : BatchProcessor.doc_data) (r : BatchProcessor.doc_result Time) : Prop :=
  BatchProcessor.url doc = Some (BatchProcessor.document_url r)
  /\ match r with
     | BatchProcessor.success _ _ questions_count answers =>
         exists qs, BatchProcessor.questions doc = Some qs
                    /\ questions_count = Z.of_nat (length qs)
                    /\ length answers = length qs
     | BatchProcessor.error _ _ _ => True
     end.

Lemma process_docs_complete (docs : list BatchProcessor.doc_data)
    (acc : list (BatchProcessor.doc_result Time)) (s : QueryProcessor.state Index * World) :
  Forall (fun doc => is_Some (BatchProcessor.url doc)
                     /\ is_Some (BatchProcessor.questions doc)) docs ->
  exists rs s',
    process_docs acc docs s = (inr (acc ++ rs), s') /\ Forall2 entry_of docs rs.
Proof.
  intros H. revert acc s.
  induction H as [|doc docs [[u Hu] [qs Hqs]] _ IH]; intros acc s.
  - exists [], s. rewrite app_nil_r. split; [done|constructor].
  - unfold process_docs. cbn [BatchProcessor.process_docs]. fold process_docs.
    unfold BatchProcessor.process_doc. rewrite Hu, Hqs.
    pose proof (process_queries_outcome u qs s) as Hout. fold process_queries.
    destruct (process_queries u qs s) as [[e|answers] s1].
    + destruct (IH (acc ++ [BatchProcessor.error u (minus (time s1.2) (time s.2)) (exn_str e)])
                  s1) as (rs & s' & -> & Hrs).
      eexists (_ :: rs), s'. rewrite <- app_assoc. split; [done|].
      constructor; [|done]. by split.
    + destruct (IH (acc ++ [BatchProcessor.success u (minus (time s1.2) (time s.2))
                              (Z.of_nat (length qs)) answers]) s1)
        as (rs & s' & -> & Hrs).
      eexists (_ :: rs), s'. rewrite <- app_assoc. split; [done|].
      constructor; [|done]. split; [done|]. by exists qs.
Qed.

(** X18.  A batch in which every document has its [url] and [questions]
    gives one entry for each document, in the order of the batch, under the
    URL of the document; a document that fails has an [error] entry and the
    documents after it are still processed; a [success] entry has as many
    answers as the document has questions.  [total_documents] is the number
    of entries. *)
Theorem batch_one_entry_per_document (batch_file : text)
    (st : QueryProcessor.state Index) (w w1 : World) (docs : list BatchProcessor.doc_data) :
  load_batch batch_file w = (inr docs, w1) ->
  Forall (fun doc => is_Some (BatchProcessor.url doc)
                     /\ is_Some (BatchProcessor.questions doc)) docs ->
  exists rs s',
    process_batch_file batch_file (st, w)
    = (inr (BatchProcessor.mk_results (time w1) (Z.of_nat (length rs)) rs), s')
    /\ length rs = length docs
    /\ Forall2 (fun doc r =>
         BatchProcessor.url doc = Some (BatchProcessor.document_url r)
         /\ match r with
            | BatchProcessor.success _ _ questions_count answers =>
                exists qs, BatchProcessor.questions doc = Some qs
                           /\ questions_count = Z.of_nat (length qs)
                           /\ length answers = length qs
            | BatchProcessor.error _ _ _ => True
            end) docs rs.
Proof.
  intros Hload Hdocs.
  destruct (process_docs_complete docs [] (st, w1) Hdocs) as (rs & s' & Hrun & Hrs).
  exists rs, s'. pose proof (Forall2_length _ _ _ Hrs) as Hlen.
  split; [|split; [done|done]].
  unfold process_batch_file, BatchProcessor.process_batch_file. cbn [fst snd].
  rewrite Hload. fold process_docs. rewrite Hrun. cbn [app]. by rewrite Hlen.
Qed.

(** X19.  A document without [url], or with it and without [questions],
    ends the whole batch with a [KeyError] for that key: no result is
    returned, though the documents before it have been processed. *)
Theorem batch_missing_key_aborts (batch_file : text)
    (st : QueryProcessor.state Index) (w w1 : World)
    (before_ after_ : list BatchProcessor.doc_data) (doc : BatchProcessor.doc_data) :
  load_batch batch_file w = (inr (before_ ++ doc :: after_), w1) ->
  Forall (fun doc => is_Some (BatchProcessor.url doc)
                     /\ is_Some (BatchProcessor.questions doc)) before_ ->
  BatchProcessor.url doc = None \/ BatchProcessor.questions doc = None ->
  exists rs s',
    process_docs [] before_ (st, w1) = (inr rs, s')
    /\ length rs = length before_
    /\ process_batch_file batch_file (st, w)
       = (inl (BatchProcessor.KeyError
                 match BatchProcessor.url doc with
                 | Some _ => txt "questions"
                 | None => txt "url"
                 end), s').
Proof.
  intros Hload Hbefore Hkey.
  destruct (process_docs_complete before_ [] (st, w1) Hbefore) as (rs & s' & Hrun & Hrs).
  exists rs, s'. split; [done|]. split; [symmetry; by eapply Forall2_length|].
  unfold process_batch_file, BatchProcessor.process_batch_file. cbn [fst snd].
  rewrite Hload. fold process_docs.
  assert (forall l acc s,
            process_docs acc (l ++ doc :: after_) s
            = match process_docs acc l s with
              | (inl f, s1) => (inl f, s1)
              | (inr acc', s1) => process_docs acc' (doc :: after_) s1
              end) as Happ.
  { induction l as [|d l IH]; intros acc s; [done|].
    unfold process_docs. cbn [app BatchProcessor.process_docs]. fold process_docs.
    destruct (BatchProcessor.process_doc _ _ _ _ _ _ _ d s) as [[f|acc'] s1]; [done|].
    apply IH. }
  rewrite Happ, Hrun. unfold process_docs. cbn [BatchProcessor.process_docs].
  unfold BatchProcessor.process_doc.
  destruct Hkey as [Hu|Hq].
  - by rewrite Hu.
  - rewrite Hq. by destruct (BatchProcessor.url doc).
Qed.

End Batch.

End CallerFacts.

Lemma batch_one_entry_per_document_witness :
  let docs := [BatchProcessor.mk_doc (Some (txt "ok")) (Some [txt "q1"; txt "q2"]);
               BatchProcessor.mk_doc (Some (txt "missing")) (Some [txt "q1"]);
               BatchProcessor.mk_doc (Some (txt "ok")) (Some [txt "q3"])] in
  exists rs s',
    BatchProcessor.process_batch_file (fun _ => Eff.ret docs) (fun _ : unit => tt)
      (fun _ _ => tt) Demo.process_document Demo.create_embeddings
      Demo.search_similar_chunks Demo.generate_answer (txt "batch.json") (Demo.idle, tt)
    = (inr (BatchProcessor.mk_results tt 3 rs), s')
    /\ map BatchProcessor.document_url rs = [txt "ok"; txt "missing"; txt "ok"].
Proof.
  intros docs.
  destruct (batch_one_entry_per_document unit unit Demo.process_document
              Demo.create_embeddings Demo.search_similar_chunks Demo.generate_answer
              unit (fun _ => Eff.ret docs) (fun _ => tt) (fun _ _ => tt)
              (txt "batch.json") Demo.idle tt tt docs)
    as (rs & s' & Hrun & Hlen & Hrs).
  - reflexivity.
  - repeat constructor; by eexists.
  - exists rs, s'.
    destruct rs as [|r1 [|r2 [|r3 [|r4 rs]]]]; try discriminate Hlen.
    split; [exact Hrun|].
    apply Forall2_cons in Hrs as [[H1 _] Hrs]. apply Forall2_cons in Hrs as [[H2 _] Hrs].
    apply Forall2_cons in Hrs as [[H3 _] _]. cbn in H1, H2, H3.
    injection H1 as H1. injection H2 as H2. injection H3 as H3.
    cbn [map]. rewrite <- H1, <- H2, <- H3. reflexivity.
Defined.

Lemma batch_missing_key_aborts_witness :
  let docs := [BatchProcessor.mk_doc (Some (txt "ok")) (Some [txt "q1"; txt "q2"]);
               BatchProcessor.mk_doc None (Some [txt "q1"])] in
  exists s',
    BatchProcessor.process_batch_file (fun _ => Eff.ret docs) (fun _ : unit => tt)
      (fun _ _ => tt) Demo.process_document Demo.create_embeddings
      Demo.search_similar_chunks Demo.generate_answer (txt "batch.json") (Demo.idle, tt)
    = (inl (BatchProcessor.KeyError (txt "url")), s').
Proof.
  intros docs.
  destruct (batch_missing_key_aborts unit unit Demo.process_document
              Demo.create_embeddings Demo.search_similar_chunks Demo.generate_answer
              unit (fun _ => Eff.ret docs) (fun _ => tt) (fun _ _ => tt)
              (txt "batch.json") Demo.idle tt tt
              [BatchProcessor.mk_doc (Some (txt "ok")) (Some [txt "q1"; txt "q2"])] []
              (BatchProcessor.mk_doc None (Some [txt "q1"])))
    as (rs & s' & _ & _ & Hrun).
  - reflexivity.
  - repeat constructor; by eexists.
  - by left.
  - by exists s'.
Defined.

Lemma normalize_idempotent_witness :
  DocumentProcessor.normalize (txt "The grace period is 30 days.")
  = txt "The grace period is 30 days.".
Proof.
  apply (proj2 normalize_idempotent (txt "The grace period is 30 days.")).
  split; [split|split].
  - apply Forall_forall. intros c Hc. apply list_elem_of_In in Hc.
    vm_compute in Hc. intros Hspace.
    repeat (destruct Hc as [<-|Hc]; [vm_compute in Hspace; try reflexivity; discriminate|]).
    destruct Hc.
  - vm_compute. reflexivity.
  - intros y Hy. vm_compute in Hy. injection Hy as <-. vm_compute. reflexivity.
  - intros y Hy. vm_compute in Hy. injection Hy as <-. vm_compute. reflexivity.
Defined.

Lemma clean_shape_witness :
  let r := LLMService._clean_chunk_references (txt "the grace period - as stated - is 30 days") in
  PyStr.ends_with_any (txt ".!?") r = true /\ PyStr.upper (txt "T") = txt "T".
Proof.
  intros r.
  destruct (clean_shape (txt "the grace period - as stated - is 30 days"))
    as (_ & [Hnil|(Hends & Hhead & _)]).
  - apply Forall_forall. intros c Hc. apply list_elem_of_In in Hc. vm_compute in Hc.
    repeat (destruct Hc as [<-|Hc]; [split; discriminate|]). destruct Hc.
  - vm_compute in Hnil. discriminate.
  - split; [exact Hends|]. apply (Hhead "T"%char). vm_compute. reflexivity.
Defined.

Lemma cache_entries_shared_by_hash_witness :
  let hash := fun q : text => Z.of_nat (length q) in
  let cache := QueryOptimizer.cache_result hash (txt "what?") (txt "http://host/a.pdf")
                 (txt "An answer.") PrimFloat.zero ∅ in
  QueryOptimizer.get_cached_result hash (txt "where") (txt "http://host/a.pdf") cache
  = Some (txt "An answer.")
  /\ is_Some (QueryOptimizer.get_cached_result hash (txt "what?") (txt "http://host/a.pdf")
                cache).
Proof.
  intros hash cache.
  destruct (cache_entries_shared_by_hash hash (txt "what?") (txt "http://host/a.pdf")
              (txt "An answer.") PrimFloat.zero ∅ (txt "where") (txt "http://host/a.pdf"))
    as (Hget & _ & _).
  destruct (cache_entries_shared_by_hash hash (txt "what?") (txt "http://host/a.pdf")
              (txt "An answer.") PrimFloat.zero cache (txt "what?") (txt "http://host/a.pdf"))
    as (_ & _ & Huse).
  split.
  - unfold cache. rewrite Hget. reflexivity.
  - apply (Huse PrimFloat.two). vm_compute. reflexivity.
Defined.

(** ** Letters beyond ASCII *)

(** The case functions act on every 8-bit letter.  Two matches that differ
    only in the case of an accented letter have the same words, so the
    second is not selected beside the first. *)
Example selection_folds_accented_letters :
  let m := fun (content : text) (score : Q) => ClauseMatch.mk content score ∅ [] in
  let upper_ete := ["201"; "T"; "201"]%char in
  let lower_ete := ["233"; "t"; "233"]%char in
  QueryOptimizer._calculate_text_similarity upper_ete lower_ete = 1%Q
  /\ map ClauseMatch.content
       (QueryOptimizer.optimize_chunk_selection
          [m upper_ete (9 # 10)%Q; m lower_ete (8 # 10)%Q; m (txt "x") (7 # 10)%Q;
           m (txt "y") (6 # 10)%Q] [])
     = [upper_ete; txt "x"; txt "y"].
Proof. split; vm_compute; reflexivity. Qed.

(** The cleaning pass capitalizes an accented first letter, and U+00DF
    becomes [SS]. *)
Example clean_capitalizes_accented_letters :
  LLMService._clean_chunk_references (["233"; "t"; "233"]%char ++ txt " is summer")
  = ["201"; "t"; "233"]%char ++ txt " is summer."
  /\ LLMService._clean_chunk_references (["223"%char] ++ txt "a") = txt "SSa.".
Proof. split; vm_compute; reflexivity. Qed.
